(** * quickrest: the resource-tree builder and its compiled client

    A shallow embedding of the tree-based revision of [src/index.js]
    (the one with [verbFactory], [place] and [normalize]) and the
    properties of the routes, the merged tree and the verb calls.

    Scope of the model.
    - Strings are sequences of code units below 256 ([string]).
    - A JavaScript object is modelled by its own data properties.  Two
      places where the built-in objects decide what the source does are
      modelled: the read [map[head]] in [place], which [Object.prototype]
      answers for its own names ([inherited]), and the writes of [loop]
      on function objects, which throw for four names ([buildable]).
      The built-in objects themselves are not held: what [place] writes
      into one of them when a path goes through a name of
      [Object.prototype], and what a read of a name that is no resource
      and no method finds on a function or an object, is outside the
      model.  The statements that depend on it say so in a hypothesis
      ([ordinary], [function_members]).
    - Identifiers handed to a resource function are given by the string
      their interpolation [${id}] produces ("undefined" when omitted). *)

From Stdlib Require Import Ascii String NArith Lia Sorted.
From stdpp Require Import base option list strings gmap.

Local Open Scope string_scope.
Local Open Scope list_scope.
Local Open Scope stdpp_scope.
Local Open Scope nat_scope.

#[local] Set Warnings "-clear-no-such-hyp".

(** ** String primitives used by the source *)

Module Str.

Definition slash : ascii := "/"%char.

Definition is_slash (c : ascii) : bool := Ascii.eqb c slash.

(** The white space [String.prototype.trim] removes, below code unit 256:
    TAB, LF, VT, FF, CR, SPACE and NBSP. *)
Definition is_space (c : ascii) : bool :=
  let n := N_of_ascii c in
  ((9 <=? n)%N && (n <=? 13)%N) || (n =? 32)%N || (n =? 160)%N.

(** lodash [dropWhile]. *)
Fixpoint dropWhile {A} (l : list A) (p : A → bool) : list A :=
  match l with
  | [] => []
  | x :: l' => if p x then dropWhile l' p else l
  end.

(** [s.split('')] and [chars.join('')]. *)
Definition chars (s : string) : list ascii := list_ascii_of_string s.
Definition join (l : list ascii) : string := string_of_list_ascii l.

Definition trim (s : string) : string :=
  join (rev (dropWhile (rev (dropWhile (chars s) is_space)) is_space)).

(** [s.endsWith('/')]. *)
Definition endsWith_slash (s : string) : bool :=
  match rev (chars s) with
  | c :: _ => is_slash c
  | [] => false
  end.

(** [s.split('/')]: never empty; one empty piece for the empty string. *)
Fixpoint split (s : string) : list string :=
  match s with
  | EmptyString => [EmptyString]
  | String c s' =>
      if is_slash c then EmptyString :: split s'
      else match split s' with
           | x :: xs => String c x :: xs
           | [] => [String c EmptyString]
           end
  end.

Definition nonempty (s : string) : bool :=
  match s with EmptyString => false | _ => true end.

(** lodash [compact] on an array of strings: the empty string is the
    only falsy string. *)
Definition compact (l : list string) : list string := filter (λ s, nonempty s = true) l.

End Str.

(** ** Path Normalizer *)

(** A configuration record of an endpoint declaration. *)
Record resource_config := ResourceConfig {
  rc_resource : string;
  rc_versions : list string;
  rc_createMethod : option string;
  rc_headers : gmap string string
}.

(** An endpoint declaration: [isObject(resource)] separates the two. *)
Inductive endpoint :=
| Simple (path : string)
| Configured (cfg : resource_config).

(** An array of segments; a configured one carries its record as the
    array's [config] property. *)
Record segments := Segments {
  segs : list string;
  seg_config : option resource_config
}.

Definition plain (l : list string) : segments := Segments l None.

(** State threaded through [endpoints.map] in [buildResources]: the
    [simpleResources] array and the [versions] identity map. *)
Record br_state := BrState {
  simpleResources : list segments;
  versions_seen : gmap nat string
}.

(** [[].concat(resource.versions).reduce((iden, v, k) => ...)]: the
    reducer stores [v] under its index [k]. *)
Definition record_versions (vs : list string) (iden : gmap nat string) : gmap nat string :=
  foldl (λ m kv, <[kv.1 := kv.2]> m) iden (imap (λ k v, (k, v)) vs).

(** The callback of [endpoints.map]. *)
Definition buildResource (commonVersions : list string) (st : br_state) (resource : endpoint)
  : br_state * segments :=
  match resource with
  | Simple path =>
      let clean := plain (Str.compact (Str.split path)) in
      let pushed := simpleResources st ++ [clean] in
      let copies := map (λ cv, plain (cv :: segs clean)) commonVersions in
      (BrState (pushed ++ copies) (versions_seen st), clean)
  | Configured cfg =>
      let vs := record_versions (rc_versions cfg) (versions_seen st) in
      (BrState (simpleResources st) vs, Segments (Str.split (rc_resource cfg)) (Some cfg))
  end.

Fixpoint map_endpoints (commonVersions : list string) (st : br_state) (endpoints : list endpoint)
  : br_state * list segments :=
  match endpoints with
  | [] => (st, [])
  | e :: rest =>
      let '(st1, x) := buildResource commonVersions st e in
      let '(st2, xs) := map_endpoints commonVersions st1 rest in
      (st2, x :: xs)
  end.

(** [buildResources]: returns [[simpleResources, eps, versions]]; the
    caller drops the third component. *)
Definition buildResources (endpoints : list endpoint) (commonVersions : list string)
  : list segments * list segments * gmap nat string :=
  let '(st, eps) := map_endpoints commonVersions (BrState [] ∅) endpoints in
  (simpleResources st, eps, versions_seen st).

(** [all.sort((ls, xs) => -(ls.length - xs.length))]: a stable sort,
    longest first. *)
Fixpoint sort_insert (x : segments) (l : list segments) : list segments :=
  match l with
  | [] => [x]
  | y :: ys =>
      if (length (segs y) <=? length (segs x))%nat then x :: l
      else y :: sort_insert x ys
  end.

Definition sort_longest_first (l : list segments) : list segments :=
  foldr sort_insert [] l.

(** The array [all] that [module.exports] hands to [normalize]. *)
Definition all_paths (endpoints : list endpoint) (commonVersions : list string) : list segments :=
  let '(simple, resources, _) := buildResources endpoints commonVersions in
  let all := filter (λ ls, segs ls ≠ []) resources in
  sort_longest_first (all ++ simple).

(** ** Tree Merger *)

(** A value of the resource tree: the leaf marker [1] or an object that
    maps segment names to values.  The entries are kept in the order
    [Object.keys] enumerates them: array-index keys ascending, then the
    other keys in insertion order. *)
#[warnings="-register-all"]
Inductive node :=
| One
| Sub (kids : list (string * node)).

Abbreviation rtree := (list (string * node)).

Definition keys (t : rtree) : list string := map fst t.

Definition kids_of (v : node) : rtree :=
  match v with One => [] | Sub kids => kids end.

Module Keys.

Definition digit (c : ascii) : option N :=
  let n := N_of_ascii c in
  if ((48 <=? n) && (n <=? 57))%N then Some (n - 48)%N else None.

Fixpoint digits (acc : N) (s : string) : option N :=
  match s with
  | EmptyString => Some acc
  | String c s' =>
      match digit c with
      | Some d => digits (acc * 10 + d)%N s'
      | None => None
      end
  end.

(** A canonical array index: the digit 0 alone, or decimal digits without a leading
    zero, at most 2^32 - 2. *)
Definition array_index (s : string) : option N :=
  match s with
  | EmptyString => None
  | String c s' =>
      if Ascii.eqb c "0"%char then
        match s' with EmptyString => Some 0%N | _ => None end
      else
        match digits 0 s with
        | Some n => if (n <=? 4294967294)%N then Some n else None
        | None => None
        end
  end.

(** Does the new key [k] come before the existing key [k']? *)
Definition before (k k' : string) : bool :=
  match array_index k, array_index k' with
  | Some i, Some j => (i <? j)%N
  | Some _, None => true
  | None, _ => false
  end.

End Keys.

(** [map[k]]. *)
Fixpoint lookup_key (k : string) (t : rtree) : option node :=
  match t with
  | [] => None
  | (k', v) :: t' => if decide (k = k') then Some v else lookup_key k t'
  end.

(** [map[k] = v] for a key the object has: the entry keeps its place. *)
Fixpoint replace_key (k : string) (v : node) (t : rtree) : rtree :=
  match t with
  | [] => []
  | (k', v') :: t' =>
      if decide (k = k') then (k, v) :: t' else (k', v') :: replace_key k v t'
  end.

(** [map[k] = v] for a new key. *)
Fixpoint insert_key (k : string) (v : node) (t : rtree) : rtree :=
  match t with
  | [] => [(k, v)]
  | (k', v') :: t' =>
      if Keys.before k k' then (k, v) :: t else (k', v') :: insert_key k v t'
  end.

Definition set_key (k : string) (v : node) (t : rtree) : rtree :=
  match lookup_key k t with
  | Some _ => replace_key k v t
  | None => insert_key k v t
  end.

(** The names [Object.prototype] answers for.  The objects of the tree
    are made by [{}]: a read [map[head]] of one of these names, on an
    object without own property [head], yields a built-in function (the
    prototype object itself for [__proto__]), which is truthy and is not
    the leaf marker. *)
Definition object_members : list string :=
  [ "constructor"; "hasOwnProperty"; "isPrototypeOf"; "propertyIsEnumerable";
    "toLocaleString"; "toString"; "valueOf"; "__proto__";
    "__defineGetter__"; "__defineSetter__"; "__lookupGetter__"; "__lookupSetter__" ].

Definition inherited (k : string) : bool := existsb (String.eqb k) object_members.

(** The last step of [place]: [if (!node) map[head] = 1], where [node]
    is [map[head]], an own property or an inherited one. *)
Definition place_leaf (map : rtree) (head : string) : rtree :=
  match lookup_key head map with
  | None => if inherited head then map else set_key head One map
  | Some _ => map
  end.

(** [place(map, paths)].  The source mutates [map] and the nodes below
    it in place; here the updated [map] is returned.  An empty [paths]
    destructures to [head = undefined], which as a property key is the
    string "undefined".

    When [map] has no own property [head] and [head] is a name of
    [Object.prototype], [node] is the built-in: nothing is filed under
    [head], and with segments left the source goes on with
    [place(node, rest)] inside the built-in object.  [map] is then as it
    was, which is what is returned here; what is written into the
    built-in object is not modelled. *)
Fixpoint place (map : rtree) (paths : list string) : rtree :=
  match paths with
  | [] => place_leaf map "undefined"
  | head :: rest =>
      match rest with
      | [] => place_leaf map head
      | _ :: _ =>
          match lookup_key head map with
          | Some (Sub kids) => set_key head (Sub (place kids rest)) map
          | Some One => set_key head (Sub (place [] rest)) map
          | None =>
              if inherited head then map
              else set_key head (Sub (place [] rest)) map
          end
      end
  end.

(** [normalize(ls)]. *)
Definition normalize (ls : list segments) : rtree :=
  foldl (λ out xs, place out (segs xs)) [] ls.

(** ** Root URL *)

(** [cleanroot(root)]; [matches('/')] holds of a one-character string
    exactly when it is "/". *)
Definition cleanroot (root : string) : string :=
  if negb (Str.endsWith_slash root) then Str.trim root
  else Str.join (rev (Str.dropWhile (rev (Str.chars (Str.trim root))) Str.is_slash)).

(** ** Configuration *)

Abbreviation jsmap := (gmap string string).

(** What a [beforeEach] hook hands back: any of [headers], [properties]
    and [query]. *)
Record modification := Modification {
  m_headers : option jsmap;
  m_properties : option jsmap;
  m_query : option jsmap
}.

Definition no_mod : modification := Modification None None None.

(** The synchronous result of a hook: [undefined], a modification (or a
    promise fulfilled with one), or a promise that rejects. *)
Inductive hook_return :=
| HUndefined
| HValue (m : modification)
| HRejects (e : string).

(** A hook is an external collaborator: it is given by what it returns
    and by the calls [(err, mod)] it makes to its completion callback, in
    order.  [None] stands for a falsy [err] and for an omitted [mod]. *)
Record hook_behaviour := HookBehaviour {
  h_return : hook_return;
  h_calls : list (option string * option modification)
}.

Definition hook := jsmap → jsmap → jsmap → hook_behaviour.

Record alt_names := AltNames {
  alt_patch : option string;
  alt_create : option string;
  alt_update : option string;
  alt_del : option string;
  alt_list : option string;
  alt_get : option string
}.

Definition no_alt : alt_names := AltNames None None None None None None.

Record config := Config {
  root : string;                      (* '' when missing *)
  endpoints : list endpoint;          (* [] when missing or no array *)
  versions : list string;             (* [].concat(versions) *)
  headers : option jsmap;
  altMethodNames : alt_names;
  beforeEach : option hook;
  has_request : bool
}.

Definition DEFAULT_HEADERS : jsmap :=
  <["Accept" := "application/json"]> (<["Content-Type" := "application/json"]> ∅).

(** [Object.assign({}, a, b)]: the keys of [b] win. *)
Definition assign (a b : jsmap) : jsmap := b ∪ a.

(** The merged header map of [opts]. *)
Definition opts_headers (cfg : config) : jsmap :=
  assign DEFAULT_HEADERS (default ∅ (headers cfg)).

(** [validateConfig] and [chooseDependencies] throw on [false]. *)
Definition validateConfig (cfg : config) : bool :=
  Str.nonempty (root cfg) && Str.nonempty (Str.trim (root cfg)) &&
  negb (bool_decide (endpoints cfg = [])).

Definition chooseDependencies (cfg : config) : bool := has_request cfg.

(** ** Verb calls as seen from outside *)

(** The callback a verb works with: the default [noop], a function of
    the caller, or a falsy value the caller passed in its place. *)
Inductive callback :=
| Noop
| Fn (n : nat)
| Falsy.

(** What a verb call does to its collaborators. *)
Inductive event :=
| Request (url method : string) (props query hdrs : jsmap) (finish : option callback)
| Called (cb : callback) (err : string)        (* cb(err) *)
| Threw.                                       (* cb(err), cb no function *)

(** What a verb call returns. *)
Inductive returned :=
| Nothing                 (* undefined *)
| FromRequest             (* the value the request function returned *)
| Pending                 (* new opts.promise(...), never resolved *)
| ThenRequest             (* opts.promise.resolve(out).then(processed) *)
| Rejects (e : string).   (* the same, for a hook promise that rejects *)

(** ** Compiled objects *)

Abbreviation loc := nat.

Inductive verb := Create | Patch | Del | Delete | Get | List | Update.

(** Property values of the compiled objects.  The two route accessors and
    the verb methods are closures that are never mutated; they are values
    that record what they close over.  Resource functions, the objects
    they return and the client itself are mutable and live in the heap. *)
Inductive value :=
| VUndef
| VRef (l : loc)
| VNodeRoute (accum : loc) (name : string)             (* fn._route *)
| VInstRoute (accum self : loc) (name id : string)     (* out._route *)
| VVerb (op : verb) (resource : string)                (* a method of proto *)
| VGetUrl.

Definition truthy (v : value) : bool :=
  match v with VUndef => false | _ => true end.

(** What a heap object is when called: a plain object, the initial
    [function () {}], or a resource function [fn] closing over [accum],
    [name] and [v]. *)
Inductive kind :=
| KPlain
| KAccum
| KNode (accum : loc) (name : string) (v : node).

Record object := Object {
  okind : kind;
  oprops : gmap string value
}.

Abbreviation heap := (list object).

Definition kind_of (h : heap) (l : loc) : option kind := okind <$> h !! l.

(** [o[k]], from the own properties of [o]: [undefined] when [o] has
    none under [k].  For a name of [function_members] that is not an own
    property the source finds a built-in member in its place; the
    statements that find nothing under a name exclude these. *)
Definition get (h : heap) (l : loc) (k : string) : value :=
  match h !! l with
  | Some o => default VUndef (oprops o !! k)
  | None => VUndef
  end.

(** [o[k] = v]. *)
Definition set_prop (l : loc) (k : string) (v : value) (h : heap) : heap :=
  alter (λ o, Object (okind o) (<[k := v]> (oprops o))) l h.

(** [alt || name]. *)
Definition or_name (alt : option string) (name : string) : string :=
  match alt with
  | Some a => if Str.nonempty a then a else name
  | None => name
  end.

Section Compiler.

Variable conf : config.

(** The object literal of [proto]: a later key replaces an equal earlier one. *)
Definition proto (resource : string) : gmap string value :=
  let alt := altMethodNames conf in
  <["getUrl" := VGetUrl]>
  (<[or_name (alt_update alt) "update" := VVerb Update resource]>
  (<[or_name (alt_list alt) "list" := VVerb List resource]>
  (<[or_name (alt_get alt) "get" := VVerb Get resource]>
  (<[or_name (alt_del alt) "delete" := VVerb Delete resource]>
  (<[or_name (alt_del alt) "del" := VVerb Del resource]>
  (<[or_name (alt_patch alt) "patch" := VVerb Patch resource]>
  (<[or_name (alt_create alt) "create" := VVerb Create resource]> ∅))))))).

(** The properties of a fresh [fn] or [out]: the route accessor first,
    [proto] assigned over it. *)
Definition fresh_props (route : value) (name : string) : gmap string value :=
  proto name ∪ {["_route" := route]}.

Definition new_fn (accum : loc) (name : string) (v : node) : object :=
  Object (KNode accum name v) (fresh_props (VNodeRoute accum name) name).

(** [loop(resources, accum)]: [size(1)] is 0, so a leaf adds nothing. *)
Fixpoint loop (resources : node) (accum : loc) (h : heap) : heap :=
  match resources with
  | One => h
  | Sub kids =>
      foldl (λ h entry,
               let fn := length h in
               let h1 := h ++ [new_fn accum entry.1 entry.2] in
               let h2 := match entry.2 with
                         | One => h1
                         | Sub _ => loop entry.2 fn h1
                         end in
               set_prop accum entry.1 (VRef fn) h2) h kids
  end.

(** One round of [loop], for the first key of [resources]. *)
Definition compile_key (accum : loc) (h : heap) (entry : string * node) : heap :=
  let fn := length h in
  let h1 := h ++ [new_fn accum entry.1 entry.2] in
  let h2 := match entry.2 with
            | One => h1
            | Sub _ => loop entry.2 fn h1
            end in
  set_prop accum entry.1 (VRef fn) h2.

(** [fn.call(this, id)]: a call of the heap object [fn]. *)
Definition invoke (h : heap) (this fn : loc) (id : string) : option (heap * value) :=
  match kind_of h fn with
  | Some (KNode accum name v) =>
      if truthy (get h this "_out") then Some (h, get h this "_out")
      else
        let out := length h in
        let h1 := h ++ [Object KPlain (fresh_props (VInstRoute accum this name id) name)] in
        let h2 := set_prop this "out" (VRef out) h1 in
        Some (loop v out h2, VRef out)
  | Some KAccum => Some (h, VUndef)
  | Some KPlain | None => None
  end.

(** [this[name](id)]. *)
Definition call_resource (h : heap) (this : loc) (name id : string) : option (heap * value) :=
  match get h this name with
  | VRef fn => invoke h this fn id
  | _ => None
  end.

(** The string an interpolation makes of a value; the text of a
    function is not modelled. *)
Definition render (h : heap) (v : value) : option string :=
  match v with
  | VUndef => Some "undefined"
  | VRef l => match kind_of h l with
              | Some KPlain => Some "[object Object]"
              | _ => None
              end
  | _ => None
  end.

(** [this._route()], as the string its interpolation yields.  [None]:
    no fuel left, or the call does not return (a [TypeError], or a verb
    method found under [_route], which calls itself for ever). *)
Fixpoint call_route (fuel : nat) (h : heap) (this : loc) : option (heap * string) :=
  match fuel with
  | O => None
  | S fuel =>
      match get h this "_route" with
      | VNodeRoute accum name =>
          if truthy (get h accum "_route") then
            match call_route fuel h accum with
            | Some (h', r) => Some (h', r +:+ "/" +:+ name)
            | None => None
            end
          else Some (h, cleanroot (root conf) +:+ "/" +:+ name)
      | VInstRoute accum self name id =>
          if truthy (get h accum "_route") then
            match call_route fuel h self with
            | Some (h', r) => Some (h', r +:+ "/" +:+ name +:+ "/" +:+ id)
            | None => None
            end
          else Some (h, cleanroot (root conf) +:+ "/" +:+ name +:+ "/" +:+ id)
      | VRef fn =>
          match invoke h this fn "undefined" with
          | Some (h', v) =>
              match render h' v with
              | Some r => Some (h', r)
              | None => None
              end
          | None => None
          end
      | VVerb _ _ | VGetUrl | VUndef => None
      end
  end.

(** *** Verb Binder *)

(** [resource.props]: [resource] is the segment name handed to [proto],
    a string, and a string has no member [props]. *)
Definition resource_props (resource : string) : option resource_config := None.

(** [resource.props && resource.props.createMethod || 'post']. *)
Definition create_method (resource : string) : string :=
  match resource_props resource with
  | Some p =>
      match rc_createMethod p with
      | Some m => if Str.nonempty m then m else "post"
      | None => "post"
      end
  | None => "post"
  end.

(** [processed(mod, finish)]: the one call of the request function. *)
Definition processed (route method : string) (properties query hdrs : jsmap)
    (md : modification) (finish : option callback) : event :=
  Request route method
    (assign properties (default ∅ (m_properties md)))
    (assign query (default ∅ (m_query md)))
    (assign hdrs (default ∅ (m_headers md)))
    finish.

(** [spy(err, mod)]. *)
Definition spy (route method : string) (properties query hdrs : jsmap)
    (cb : callback) (call : option string * option modification) : event :=
  match call.1 with
  | Some e => match cb with Falsy => Threw | _ => Called cb e end
  | None => processed route method properties query hdrs (default no_mod call.2) (Some cb)
  end.

(** The function [verbFactory] returns.  The events are those of the
    completion-callback calls, in order, followed by the request of the
    promise path; how they interleave in time is not modelled. *)
Definition verbFactory (route method : string) (properties query hdrs : jsmap)
    (cb : callback) : list event * returned :=
  match beforeEach conf with
  | None =>
      match cb with
      | Falsy => ([processed route method properties query hdrs no_mod None], Pending)
      | _ => ([processed route method properties query hdrs no_mod (Some cb)], FromRequest)
      end
  | Some hk =>
      let b := hk properties query hdrs in
      let evs := map (spy route method properties query hdrs cb) (h_calls b) in
      match h_return b with
      | HUndefined => (evs, Nothing)
      | HValue m => (evs ++ [processed route method properties query hdrs m None], ThenRequest)
      | HRejects e => (evs, Rejects e)
      end
  end.

(** A method of [proto] called on [this] with its data argument and an
    optional callback ([cb = noop] when omitted). *)
Definition run_verb (op : verb) (resource route : string) (arg : jsmap)
    (cb : option callback) : list event * returned :=
  let c := default Noop cb in
  let hdrs := opts_headers conf in
  match op with
  | Create => verbFactory route (create_method resource) arg ∅ hdrs c
  | Patch => verbFactory route "patch" arg ∅ hdrs c
  | Del | Delete => verbFactory route "delete" ∅ ∅ hdrs c
  | Get | List => verbFactory route "get" ∅ arg hdrs c
  | Update => verbFactory route "put" arg ∅ hdrs c
  end.

(** [this[key](arg, cb)]. *)
Definition call_verb (fuel : nat) (h : heap) (this : loc) (key : string)
    (arg : jsmap) (cb : option callback) : option (heap * (list event * returned)) :=
  match get h this key with
  | VVerb op resource =>
      match call_route fuel h this with
      | Some (h', route) => Some (h', run_verb op resource route arg cb)
      | None => None
      end
  | _ => None
  end.

End Compiler.

(** [module.exports(config)]: the heap and the location of the client,
    [None] when construction throws: in [validateConfig], in
    [chooseDependencies], or at a write in [loop]. *)
Definition commonVersions (cfg : config) : list string := Str.compact (versions cfg).

Definition resource_tree (cfg : config) : rtree :=
  normalize (all_paths (endpoints cfg) (commonVersions cfg)).

(** The names under which [proto] stores its methods. *)
Definition method_names (conf : config) : list string :=
  let alt := altMethodNames conf in
  [ "getUrl"; or_name (alt_update alt) "update"; or_name (alt_list alt) "list";
    or_name (alt_get alt) "get"; or_name (alt_del alt) "delete";
    or_name (alt_del alt) "del"; or_name (alt_patch alt) "patch";
    or_name (alt_create alt) "create" ].

(** The names a function object does not let the source write (an ES
    module is strict code): [name] and [length] are read-only own
    properties of every function, [arguments] and [caller] are accessors
    of [Function.prototype] whose setter throws. *)
Definition read_only_names : list string := ["name"; "length"; "arguments"; "caller"].

Definition read_only (k : string) : bool := existsb (String.eqb k) read_only_names.

(** Can every entry below [v] be attached?  At construction [loop]
    attaches each entry of the tree to a function object, the client for
    the top entries and the resource function of the parent for the
    others: [accum[name] = fn] throws a [TypeError] for a read-only
    name. *)
Fixpoint attachable (v : node) : bool :=
  match v with
  | One => true
  | Sub kids =>
      (fix go (kids : rtree) : bool :=
         match kids with
         | [] => true
         | e :: rest => negb (read_only e.1) && attachable e.2 && go rest
         end) kids
  end.

(** Does construction get through [loop]?  Besides the entries, every
    resource function is given the methods of [proto] by
    [Object.assign(fn, proto(name, conf))], which throws for a method
    stored under a read-only name; a tree without entries makes no
    resource function. *)
Definition buildable (cfg : config) : bool :=
  attachable (Sub (resource_tree cfg))
  && match resource_tree cfg with
     | [] => true
     | _ :: _ => forallb (λ k, negb (read_only k)) (method_names cfg)
     end.

Definition quickrest (cfg : config) : option (heap * loc) :=
  if validateConfig cfg && chooseDependencies cfg && buildable cfg then
    Some (loop cfg (Sub (resource_tree cfg)) 0 [Object KAccum ∅], 0)
  else None.

(** ** Navigation and observation *)

(** The value found by following [p] from [v]. *)
Fixpoint descend (v : node) (p : list string) : option node :=
  match p with
  | [] => Some v
  | s :: rest =>
      match v with
      | Sub kids =>
          match lookup_key s kids with
          | Some v' => descend v' rest
          | None => None
          end
      | One => None
      end
  end.

Definition is_sub (v : node) : Prop :=
  match v with Sub _ => True | One => False end.

(** No level of the tree holds a segment name twice. *)
#[warnings="-register-all"]
Inductive wf_node : node → Prop :=
| wf_One : wf_node One
| wf_Sub kids :
    NoDup (keys kids) → Forall (λ e, wf_node e.2) kids → wf_node (Sub kids).

(** One step of a fluent expression: [.seg] or [.seg(id)]. *)
Record step := Step {
  seg : string;
  ident : option string
}.

(** [cur.seg1(id1).seg2 ...] *)
Fixpoint navigate (conf : config) (h : heap) (cur : loc) (path : list step)
  : option (heap * loc) :=
  match path with
  | [] => Some (h, cur)
  | Step s None :: rest =>
      match get h cur s with
      | VRef fn => navigate conf h fn rest
      | _ => None
      end
  | Step s (Some id) :: rest =>
      match call_resource conf h cur s id with
      | Some (h', VRef out) => navigate conf h' out rest
      | _ => None
      end
  end.

(** The text a path stands for: [/seg] or [/seg/id] per step. *)
Fixpoint path_text (path : list step) : string :=
  match path with
  | [] => EmptyString
  | Step s oid :: rest =>
      match oid with
      | Some id => "/" +:+ s +:+ "/" +:+ id +:+ path_text rest
      | None => "/" +:+ s +:+ path_text rest
      end
  end.

(** The names the compiled objects keep for themselves. *)
Definition own_names : list string := ["_route"; "_out"].

(** No segment below [v] is called [_route] or [_out]. *)
Fixpoint avoids (names : list string) (v : node) : Prop :=
  match v with
  | One => True
  | Sub kids =>
      (fix go (kids : rtree) : Prop :=
         match kids with
         | [] => True
         | e :: rest => (e.1 ∉ names) ∧ avoids names e.2 ∧ go rest
         end) kids
  end.

(** No method of [proto] is stored under one of [names]. *)
Definition names_free (conf : config) (names : list string) : Prop :=
  ∀ k, k ∈ names → k ∉ method_names conf.

(** ** Names that are taken *)

(** [h'] comes after [h]: every object of [h] is still there with its
    kind, and its properties are the same except where [P] allows. *)
Definition extends (P : loc → string → Prop) (h h' : heap) : Prop :=
  (length h ≤ length h')%nat ∧
  ∀ l o, h !! l = Some o →
    ∃ o', h' !! l = Some o' ∧ okind o' = okind o
          ∧ ∀ k, ¬ P l k → oprops o' !! k = oprops o !! k.

(** The names a function object answers for: those of
    [Object.prototype], those of [Function.prototype], and its own
    [length], [name] and [prototype]. *)
Definition function_members : list string :=
  object_members
  ++ ["length"; "name"; "prototype"; "arguments"; "caller"; "apply"; "bind"; "call"].

Definition ordinary_names (names : list string) : bool :=
  forallb (λ s, negb (inherited s)) names.

(** No array handed to [place] has a segment, and [proto] has no method
    name, that [Object.prototype] answers for.  On such a configuration
    [place] files every path and writes into no built-in object. *)
Definition ordinary (cfg : config) : bool :=
  forallb (λ xs, ordinary_names (segs xs)) (all_paths (endpoints cfg) (commonVersions cfg))
  && ordinary_names (method_names cfg).

(** The name a call of a resource function writes on the object it is
    called on ([this.out = ...]). *)
Definition call_writes : list string := ["out"].

(** The names the compiled objects keep for themselves or write. *)
Definition kept_names : list string := own_names ++ call_writes.

(** [h] is a later heap of the client built as [h0]: objects have been
    added, and of what the old objects hold only [out] may differ.  The
    heaps that fluent expressions and verb calls lead to are of this
    kind. *)
Definition used (h0 h : heap) : Prop := extends (λ _ k, k = "out") h0 h.

(** ** Heap predicates *)

(** The entry [e] of a tree object is compiled and attached to [accum]:
    [accum[e.1]] is a resource function [fn] for it, and what [fn] holds
    under a name that is no child of [e.2] is what it was created with.
    The names in [written] are left open: they are the names calls may
    have written since ([] for a heap just built). *)
Definition attached (conf : config) (written : list string) (sub : loc → node → Prop)
    (h : heap) (accum : loc) (e : string * node) : Prop :=
  ∃ fn, (accum < fn)%nat
    ∧ get h accum e.1 = VRef fn
    ∧ kind_of h fn = Some (KNode accum e.1 e.2)
    ∧ (∀ k, k ∉ keys (kids_of e.2) → k ∉ written →
         get h fn k = default VUndef (fresh_props conf (VNodeRoute accum e.1) e.1 !! k))
    ∧ sub fn e.2.

(** All entries of [v], at every depth, are compiled below [accum]. *)
Fixpoint compiled (conf : config) (written : list string) (h : heap) (accum : loc) (v : node)
  : Prop :=
  match v with
  | One => True
  | Sub kids =>
      (fix go (kids : rtree) : Prop :=
         match kids with
         | [] => True
         | e :: rest => attached conf written (compiled conf written h) h accum e ∧ go rest
         end) kids
  end.

(** [l._route()] yields [r], told from the accessors alone. *)
Inductive has_route (conf : config) (h : heap) : loc → string → Prop :=
| hr_node_top l accum name :
    get h l "_route" = VNodeRoute accum name →
    is_Some (h !! accum) → get h accum "_route" = VUndef →
    has_route conf h l (cleanroot (root conf) +:+ "/" +:+ name)
| hr_node_sub l accum name r :
    get h l "_route" = VNodeRoute accum name →
    truthy (get h accum "_route") = true → has_route conf h accum r →
    has_route conf h l (r +:+ "/" +:+ name)
| hr_inst_top l accum self name id :
    get h l "_route" = VInstRoute accum self name id →
    is_Some (h !! accum) → get h accum "_route" = VUndef →
    has_route conf h l (cleanroot (root conf) +:+ "/" +:+ name +:+ "/" +:+ id)
| hr_inst_sub l accum self name id r :
    get h l "_route" = VInstRoute accum self name id →
    truthy (get h accum "_route") = true → has_route conf h self r →
    has_route conf h l (r +:+ "/" +:+ name +:+ "/" +:+ id).

(** The prefix the children of [cur] start from: the clean root for an
    object without accessor, the route of [cur] otherwise. *)
Definition base_route (conf : config) (h : heap) (cur : loc) (r : string) : Prop :=
  (is_Some (h !! cur) ∧ get h cur "_route" = VUndef ∧ r = cleanroot (root conf))
  ∨ (truthy (get h cur "_route") = true ∧ has_route conf h cur r).

(** What holds of the object [cur] a fluent expression has reached: the
    tree value [v] is compiled below it, its children start from the
    route [r], and it has no [_out]. *)
Definition standing (conf : config) (written : list string) (h : heap) (cur : loc)
    (v : node) (r : string) : Prop :=
  compiled conf written h cur v ∧ base_route conf h cur r ∧ get h cur "_out" = VUndef
  ∧ is_Some (h !! cur) ∧ wf_node v ∧ avoids own_names v.

(** The segments of a string declaration. *)
Definition clean (path : string) : list string := Str.compact (Str.split path).

(** What one declaration adds to [simpleResources], in the words of the
    specification: a string declaration adds its own segments and one
    copy per version prefix, a configured one adds nothing. *)
Definition replicas (commonVersions : list string) (e : endpoint) : list segments :=
  match e with
  | Simple path =>
      plain (clean path) :: map (λ cv, plain (cv :: clean path)) commonVersions
  | Configured _ => []
  end.

(** [cur.s1.s2...], without identifiers. *)
Definition plain_path (p : list string) : list step := (λ s, Step s None) <$> p.

(** The claim on top-level routes, read for every segment name. *)
Definition top_level_route_claim (cfg : config) (s id : string) : Prop :=
  ∀ h api, quickrest cfg = Some (h, api) →
    is_Some (lookup_key s (resource_tree cfg)) →
    ∃ h' out n, call_resource cfg h api s id = Some (h', VRef out)
      ∧ ∀ fuel, n ≤ fuel →
          call_route cfg fuel h' out
          = Some (h', cleanroot (root cfg) +:+ "/" +:+ s +:+ "/" +:+ id).

(** The same claim on a client that has been used: after the fluent
    expression [first], read for every segment name. *)
Definition later_route_claim (cfg : config) (first : list step) (s id : string) : Prop :=
  ∀ h0 api h l, quickrest cfg = Some (h0, api) →
    navigate cfg h0 api first = Some (h, l) →
    is_Some (lookup_key s (resource_tree cfg)) →
    ∃ h' out n, call_resource cfg h api s id = Some (h', VRef out)
      ∧ ∀ fuel, n ≤ fuel →
          call_route cfg fuel h' out
          = Some (h', cleanroot (root cfg) +:+ "/" +:+ s +:+ "/" +:+ id).

(** The claim on shared prefixes, read for every segment name: the
    declarations [q/p1] and [q/p2] give one node at [q], which holds
    both continuations. *)
Definition shared_prefix_claim (cfg : config) (e1 e2 : string) (q p1 p2 : list string) : Prop :=
  Simple e1 ∈ endpoints cfg → Simple e2 ∈ endpoints cfg →
  clean e1 = q ++ p1 → clean e2 = q ++ p2 → p1 ≠ [] → p2 ≠ [] →
  ∃ kids, descend (Sub (resource_tree cfg)) q = Some (Sub kids)
          ∧ is_Some (descend (Sub kids) p1) ∧ is_Some (descend (Sub kids) p2).

(** The claim on a resource that is also a prefix, read for every
    segment name: the node of [p/s] is internal and holds [q]. *)
Definition prefix_resource_claim (cfg : config) (e1 e2 : string) (p : list string)
    (s : string) (q : list string) : Prop :=
  Simple e1 ∈ endpoints cfg → Simple e2 ∈ endpoints cfg →
  clean e1 = p ++ [s] → clean e2 = (p ++ [s]) ++ q → q ≠ [] →
  ∃ kids, descend (Sub (resource_tree cfg)) (p ++ [s]) = Some (Sub kids)
          ∧ is_Some (descend (Sub kids) q).

(** The claim that a compiled node shows every method of [proto],
    read for every tree. *)
Definition exposes_verbs_claim (cfg : config) (p : list string) (s : string) : Prop :=
  ∀ h api fn, quickrest cfg = Some (h, api) →
    navigate cfg h api (plain_path (p ++ [s])) = Some (h, fn) →
    ∀ k m, proto cfg s !! k = Some m → get h fn k = m.

(** A configuration with the defaults of the README: no headers, no
    method aliases, no hook, a request function. *)
Definition example_cfg (eps : list endpoint) (vs : list string) : config :=
  Config "https://api.example.com" eps vs None no_alt None true.

(** The table of the verbs: what each method hands to the factory. *)
Definition verb_method (op : verb) (resource : string) : string :=
  match op with
  | Create => create_method resource
  | Patch => "patch"
  | Del | Delete => "delete"
  | Get | List => "get"
  | Update => "put"
  end.

Definition verb_props (op : verb) (arg : jsmap) : jsmap :=
  match op with
  | Create | Patch | Update => arg
  | Del | Delete | Get | List => ∅
  end.

Definition verb_query (op : verb) (arg : jsmap) : jsmap :=
  match op with
  | Get | List => arg
  | Create | Patch | Update | Del | Delete => ∅
  end.




Definition hooked_cfg (hk : hook) : config :=
  Config "https://api.example.com" [Simple "users"] [] None no_alt (Some hk) true.

(** The configuration of the README that asks for [put] on [create]. *)
Definition put_cfg : config :=
  example_cfg [Configured (ResourceConfig "comments" [] (Some "put") ∅)] [].


(** ** The paths of the declarations *)

(** The path [place] follows for an array of segments: an empty array
    destructures to [head = undefined], the key "undefined". *)
Definition placed_path (p : list string) : list string :=
  match p with [] => ["undefined"] | _ :: _ => p end.

(** The element of [eps] that [endpoints.map] returns for a declaration. *)
Definition declared (e : endpoint) : segments :=
  match e with
  | Simple path => plain (clean path)
  | Configured c => Segments (Str.split (rc_resource c)) (Some c)
  end.

(** The paths one declaration hands to [place]: a string declaration
    its segments and one copy per common version, a configured one the
    pieces of its [resource]. *)
Definition declared_paths (commonVersions : list string) (e : endpoint) : list (list string) :=
  match e with
  | Simple path => placed_path (clean path) :: map (λ cv, cv :: clean path) commonVersions
  | Configured c => [Str.split (rc_resource c)]
  end.

(** A string without separator. *)
Definition slash_free (s : string) : Prop :=
  Forall (λ c, Str.is_slash c = false) (Str.chars s).

(** A segment as [compact(path.split('/'))] yields them. *)
Definition segment_ok (s : string) : Prop := s ≠ EmptyString ∧ slash_free s.

(** ** Counting the calls of the request function *)







(** ** The keys of [proto] *)

(** The key the object literal of [proto] computes for a verb. *)
Definition verb_name (conf : config) (op : verb) : string :=
  let alt := altMethodNames conf in
  match op with
  | Create => or_name (alt_create alt) "create"
  | Patch => or_name (alt_patch alt) "patch"
  | Del => or_name (alt_del alt) "del"
  | Delete => or_name (alt_del alt) "delete"
  | Get => or_name (alt_get alt) "get"
  | List => or_name (alt_list alt) "list"
  | Update => or_name (alt_update alt) "update"
  end.

(** The place of a verb in the object literal, in source order. *)
Definition rank (op : verb) : nat :=
  match op with
  | Create => 0 | Patch => 1 | Del => 2 | Delete => 3 | Get => 4 | List => 5 | Update => 6
  end.

(** The number of entries of a tree value, at every depth. *)
Fixpoint nodes (v : node) : nat :=
  match v with
  | One => 0
  | Sub kids =>
      (fix go (kids : rtree) : nat :=
         match kids with
         | [] => 0
         | e :: rest => S (nodes e.2 + go rest)
         end) kids
  end.

(** ** The request function built on superagent

    [makeRequest] of [src/index.js] and [requestFactory], its successor:
    what the callback handed to [end] does with the [(err, res)] it is
    given. *)

Module Transport.

Record response := Response {
  status : nat;
  body : string
}.

(** The arguments of the callback of [end]; [res] is missing when no
    response came. *)
Record reply := Reply {
  err : option string;
  res : option response
}.

(** The object [{ status: res.status, model: res.body }]. *)
Record out := Out {
  out_status : nat;
  model : string
}.

Inductive effect :=
| Callback (cb : callback) (err : option string) (o : out)   (* cb(err, out) *)
| Resolve (o : out)
| Reject (err : string)
| TypeError.   (* thrown: [res.status] without [res], or [cb] no function *)

(** [if (err) return reject(err); resolve(out)]. *)
Definition settle (r : reply) (o : out) : effect :=
  match err r with
  | Some e => Reject e
  | None => Resolve o
  end.

(** [makeRequest]: the callback is called without a test. *)
Definition makeRequest (cb : callback) (r : reply) : list effect :=
  match res r with
  | None => [TypeError]
  | Some rs =>
      let o := Out (status rs) (body rs) in
      match cb with
      | Falsy => [TypeError]
      | Noop | Fn _ => [Callback cb (err r) o; settle r o]
      end
  end.

(** [requestFactory]: without a [PromiseLib] the callback alone learns
    of the outcome; with one, the callback is called if there is one. *)
Definition requestFactory (promiseLib : bool) (cb : callback) (r : reply) : list effect :=
  match res r with
  | None => [TypeError]
  | Some rs =>
      let o := Out (status rs) (body rs) in
      if promiseLib then
        match cb with
        | Falsy => [settle r o]
        | Noop | Fn _ => [Callback cb (err r) o; settle r o]
        end
      else
        match cb with
        | Falsy => [TypeError]
        | Noop | Fn _ => [Callback cb (err r) o]
        end
  end.

End Transport.

(** ** The array-based revision of [loop]

    [src/index.js] as it was before the resource tree: [build] works on
    the sorted array of paths itself, and the resource functions attach
    their subresources when they are called. *)

Module Legacy.

(** What a heap object is when called: a plain object, the initial
    [function () {}], or a [resourceNamespace] closing over [accum],
    [topResource] and [subresources]. *)
Inductive kind :=
| KPlain
| KAccum
| KNamespace (accum : loc) (topResource : string) (subresources : list string).

Record object := Object {
  okind : kind;
  oprops : gmap string value
}.

Abbreviation heap := (list object).

Definition kind_of (h : heap) (l : loc) : option kind := okind <$> h !! l.

Definition get (h : heap) (l : loc) (k : string) : value :=
  match h !! l with
  | Some o => default VUndef (oprops o !! k)
  | None => VUndef
  end.

Definition set_prop (l : loc) (k : string) (v : value) (h : heap) : heap :=
  alter (λ o, Object (okind o) (<[k := v]> (oprops o))) l h.

Section Build.

Variable conf : config.

(** The object literal of [proto] in this revision: no [patch] and no
    [getUrl]. *)
Definition proto (resource : string) : gmap string value :=
  let alt := altMethodNames conf in
  <[or_name (alt_update alt) "update" := VVerb Update resource]>
  (<[or_name (alt_list alt) "list" := VVerb List resource]>
  (<[or_name (alt_get alt) "get" := VVerb Get resource]>
  (<[or_name (alt_del alt) "delete" := VVerb Delete resource]>
  (<[or_name (alt_del alt) "del" := VVerb Del resource]>
  (<[or_name (alt_create alt) "create" := VVerb Create resource]> ∅))))).

Definition fresh_props (route : value) (name : string) : gmap string value :=
  proto name ∪ {["_route" := route]}.

(** [loop(resources, accum)]: the first empty array ends the loop, and a
    name that [accum] holds already is left as it is. *)
Fixpoint loop (resources : list (list string)) (accum : loc) (h : heap) : heap :=
  match resources with
  | [] => h
  | xs :: rest =>
      match xs with
      | [] => h
      | topResource :: subresources =>
          if truthy (get h accum topResource) then loop rest accum h
          else
            let fn := length h in
            let h1 := h ++ [Object (KNamespace accum topResource subresources)
                              (fresh_props (VNodeRoute accum topResource) topResource)] in
            loop rest accum (set_prop accum topResource (VRef fn) h1)
      end
  end.

(** [resourceNamespace(id)]: a call of the heap object [fn].  The route
    accessor of the object it returns asks [accum] for its route. *)
Definition invoke (h : heap) (fn : loc) (id : string) : option (heap * value) :=
  match kind_of h fn with
  | Some (KNamespace accum topResource subresources) =>
      let out := length h in
      let h1 := h ++ [Object KPlain
                        (fresh_props (VInstRoute accum accum topResource id) topResource)] in
      match subresources with
      | [] => Some (h1, VRef out)
      | _ :: _ => Some (loop [subresources] out h1, VRef out)
      end
  | Some KAccum => Some (h, VUndef)
  | Some KPlain | None => None
  end.

Definition render (h : heap) (v : value) : option string :=
  match v with
  | VUndef => Some "undefined"
  | VRef l => match kind_of h l with
              | Some KPlain => Some "[object Object]"
              | _ => None
              end
  | _ => None
  end.

(** [this._route()], as the string its interpolation yields. *)
Fixpoint call_route (fuel : nat) (h : heap) (this : loc) : option (heap * string) :=
  match fuel with
  | O => None
  | S fuel =>
      match get h this "_route" with
      | VNodeRoute accum name =>
          if truthy (get h accum "_route") then
            match call_route fuel h accum with
            | Some (h', r) => Some (h', r +:+ "/" +:+ name)
            | None => None
            end
          else Some (h, cleanroot (root conf) +:+ "/" +:+ name)
      | VInstRoute accum _ name id =>
          if truthy (get h accum "_route") then
            match call_route fuel h accum with
            | Some (h', r) => Some (h', r +:+ "/" +:+ name +:+ "/" +:+ id)
            | None => None
            end
          else Some (h, cleanroot (root conf) +:+ "/" +:+ name +:+ "/" +:+ id)
      | VRef fn =>
          match invoke h fn "undefined" with
          | Some (h', v) =>
              match render h' v with
              | Some r => Some (h', r)
              | None => None
              end
          | None => None
          end
      | VVerb _ _ | VGetUrl | VUndef => None
      end
  end.

(** [cur.seg1(id1).seg2 ...] *)
Fixpoint navigate (h : heap) (cur : loc) (path : list step) : option (heap * loc) :=
  match path with
  | [] => Some (h, cur)
  | Step s None :: rest =>
      match get h cur s with
      | VRef fn => navigate h fn rest
      | _ => None
      end
  | Step s (Some id) :: rest =>
      match get h cur s with
      | VRef fn =>
          match invoke h fn id with
          | Some (h', VRef out) => navigate h' out rest
          | _ => None
          end
      | _ => None
      end
  end.

(** [build(opts)(all)], for a configuration that passes validation. *)
Definition client : heap :=
  loop (segs <$> all_paths (endpoints conf) (commonVersions conf)) 0 [Object KAccum ∅].

(** The names under which [proto] stores its methods. *)
Definition method_names : list string :=
  let alt := altMethodNames conf in
  [ or_name (alt_update alt) "update"; or_name (alt_list alt) "list";
    or_name (alt_get alt) "get"; or_name (alt_del alt) "delete";
    or_name (alt_del alt) "del"; or_name (alt_create alt) "create" ].

(** [l._route()] yields [r], told from the accessors alone. *)
Inductive has_route (h : heap) : loc → string → Prop :=
| hr_node_top l accum name :
    get h l "_route" = VNodeRoute accum name →
    is_Some (h !! accum) → get h accum "_route" = VUndef →
    has_route h l (cleanroot (root conf) +:+ "/" +:+ name)
| hr_node_sub l accum name r :
    get h l "_route" = VNodeRoute accum name →
    truthy (get h accum "_route") = true → has_route h accum r →
    has_route h l (r +:+ "/" +:+ name)
| hr_inst_top l accum self name id :
    get h l "_route" = VInstRoute accum self name id →
    is_Some (h !! accum) → get h accum "_route" = VUndef →
    has_route h l (cleanroot (root conf) +:+ "/" +:+ name +:+ "/" +:+ id)
| hr_inst_sub l accum self name id r :
    get h l "_route" = VInstRoute accum self name id →
    truthy (get h accum "_route") = true → has_route h accum r →
    has_route h l (r +:+ "/" +:+ name +:+ "/" +:+ id).

Definition base_route (h : heap) (cur : loc) (r : string) : Prop :=
  (is_Some (h !! cur) ∧ get h cur "_route" = VUndef ∧ r = cleanroot (root conf))
  ∨ (truthy (get h cur "_route") = true ∧ has_route h cur r).

(** What holds of the object [cur] a fluent expression has reached, with
    the segments [rest] still to come: the next one is attached to [cur]
    as a resource function for this path. *)
Definition standing (h : heap) (cur : loc) (rest : list string) (r : string) : Prop :=
  base_route h cur r
  ∧ match rest with
    | [] => True
    | t :: subs =>
        ∃ fn, get h cur t = VRef fn
              ∧ kind_of h fn = Some (KNamespace cur t subs)
              ∧ get h fn "_route" = VNodeRoute cur t
    end.

End Build.

(** No array has a segment, and [proto] has no method name, that a
    function object answers for.  [accum[topResource]] is read on the
    client, a function, and on the objects calls return; for such a name
    the read finds the built-in member, or throws, and so does the write
    of a read-only name.  These reads are not modelled: the statements on
    the resource functions of the array-based revision are for
    configurations without such names. *)
Definition ordinary (conf : config) : bool :=
  forallb (λ xs, forallb (λ s, negb (existsb (String.eqb s) function_members)) (segs xs))
          (all_paths (endpoints conf) (commonVersions conf))
  && forallb (λ s, negb (existsb (String.eqb s) function_members)) (method_names conf).

(** The subresources of the first array that starts with [s], among
    the arrays before the first empty one. *)
Fixpoint first_with_head (s : string) (resources : list (list string)) : option (list string) :=
  match resources with
  | [] => None
  | xs :: rest =>
      match xs with
      | [] => None
      | t :: subs => if decide (t = s) then Some subs else first_with_head s rest
      end
  end.

(** Every step but the last is a call. *)
Fixpoint called_but_last (path : list step) : Prop :=
  match path with
  | [] => True
  | st :: rest =>
      match rest with
      | [] => True
      | _ :: _ => is_Some (ident st) ∧ called_but_last rest
      end
  end.

End Legacy.

(** ** Declarations without their configuration *)

(** A declaration reduced to its path: a configured one keeps its
    [resource] and loses [versions], [createMethod] and [headers]. *)
Definition bare (e : endpoint) : endpoint :=
  match e with
  | Simple path => Simple path
  | Configured c => Configured (ResourceConfig (rc_resource c) [] None ∅)
  end.

Definition bare_config (cfg : config) : config :=
  Config (root cfg) (bare <$> endpoints cfg) (versions cfg) (headers cfg)
         (altMethodNames cfg) (beforeEach cfg) (has_request cfg).
(** ** Properties of the string primitives *)

Module StrFacts.
Import Str.

Lemma split_nonempty s : split s ≠ [].
Proof.
  destruct s as [|c s]; simpl; [done|].
  destruct (is_slash c); [done|]. by destruct (split s).
Qed.

(** A string of separators only splits into empty pieces. *)
Lemma split_slashes s :
  Forall (λ c, is_slash c = true) (chars s) → Forall (λ x, x = EmptyString) (split s).
Proof.
  induction s as [|c s IH]; simpl; intros H.
  - by repeat constructor.
  - inversion H as [|?? Hc Hs]; subst. rewrite Hc. constructor; [done | by apply IH].
Qed.

Lemma compact_empties (l : list string) : Forall (λ x, x = EmptyString) l → compact l = [].
Proof.
  induction 1 as [|x l Hx _ IH]; [done|]. subst x. unfold compact in *.
  rewrite filter_cons. destruct (decide _) as [E|_]; [done | exact IH].
Qed.

Lemma dropWhile_head {A} (p : A → bool) l x l' :
  dropWhile l p = x :: l' → p x = false.
Proof.
  induction l as [|y l IH]; simpl; [done|].
  destruct (p y) eqn:E; [exact IH|]. intros [= <- _]. exact E.
Qed.

Lemma chars_join l : chars (join l) = l.
Proof. apply list_ascii_of_string_of_list_ascii. Qed.

Lemma join_chars s : join (chars s) = s.
Proof. apply string_of_list_ascii_of_string. Qed.

End StrFacts.

(** ** Properties of the tree merger *)

Lemma node_ind' (P : node → Prop) :
  P One → (∀ kids, Forall (λ e, P e.2) kids → P (Sub kids)) → ∀ v, P v.
Proof.
  intros H1 HS. fix IH 1. intros [|kids]; [exact H1|].
  apply HS. induction kids as [|[k v] kids IHk]; constructor; [apply IH | apply IHk].
Qed.

Lemma lookup_key_elem k t v : lookup_key k t = Some v → (k, v) ∈ t.
Proof.
  induction t as [|[k' v'] t IH]; simpl; [done|].
  case_decide; [intros [= ->]; subst; apply list_elem_of_here | intros; apply list_elem_of_further; auto].
Qed.

Lemma lookup_key_None k t : lookup_key k t = None ↔ k ∉ keys t.
Proof.
  induction t as [|[k' v'] t IH]; simpl.
  - split; [intros _; apply not_elem_of_nil | done].
  - case_decide as E; rewrite not_elem_of_cons.
    + split; [done | intros [? _]; done].
    + rewrite IH. naive_solver.
Qed.

Lemma lookup_key_is_Some k t : is_Some (lookup_key k t) ↔ k ∈ keys t.
Proof.
  destruct (lookup_key k t) eqn:E.
  - split; [intros _ | eauto].
    destruct (decide (k ∈ keys t)) as [|Hn]; [done|].
    apply lookup_key_None in Hn. congruence.
  - split; [intros [? ?]; done|]. intros Hin. apply lookup_key_None in E. done.
Qed.

Lemma elem_lookup_key k v t : NoDup (keys t) → (k, v) ∈ t → lookup_key k t = Some v.
Proof.
  induction t as [|[k' v'] t IH]; simpl; intros Hnd Hin.
  - by apply elem_of_nil in Hin.
  - apply NoDup_cons in Hnd as [Hk Hnd]. apply elem_of_cons in Hin as [[= -> ->]|Hin].
    + by rewrite decide_True.
    + rewrite decide_False; [auto|]. intros ->. apply Hk.
      apply (list_elem_of_fmap_2 fst) in Hin. exact Hin.
Qed.

Lemma keys_replace_key k v t : keys (replace_key k v t) = keys t.
Proof.
  induction t as [|[k' v'] t IH]; simpl; [done|].
  case_decide; simpl; [by subst | by rewrite IH].
Qed.

Lemma lookup_replace_key k k' v t :
  is_Some (lookup_key k t) →
  lookup_key k' (replace_key k v t) = if decide (k' = k) then Some v else lookup_key k' t.
Proof.
  induction t as [|[k0 v0] t IH]; simpl; [intros [? ?]; done|].
  destruct (decide (k = k0)) as [->|Hne]; simpl.
  - intros _. destruct (decide (k' = k0)); done.
  - intros Hs. specialize (IH Hs).
    destruct (decide (k' = k0)) as [->|]; [by rewrite decide_False|]. exact IH.
Qed.

Lemma keys_insert_key k v t : keys (insert_key k v t) ≡ₚ k :: keys t.
Proof.
  induction t as [|[k' v'] t IH]; simpl; [done|].
  destruct (Keys.before k k'); simpl; [done|]. rewrite IH. apply Permutation_swap.
Qed.

Lemma lookup_insert_key k k' v t :
  lookup_key k t = None →
  lookup_key k' (insert_key k v t) = if decide (k' = k) then Some v else lookup_key k' t.
Proof.
  induction t as [|[k0 v0] t IH]; simpl.
  - intros _. by destruct (decide (k' = k)).
  - destruct (decide (k = k0)) as [->|Hne]; [done|]. intros Hn. specialize (IH Hn).
    destruct (Keys.before k k0); simpl.
    + destruct (decide (k' = k)) as [->|]; [done|]. done.
    + destruct (decide (k' = k0)) as [->|]; [by rewrite decide_False|]. exact IH.
Qed.

Lemma lookup_set_key k k' v t :
  lookup_key k' (set_key k v t) = if decide (k' = k) then Some v else lookup_key k' t.
Proof.
  unfold set_key. destruct (lookup_key k t) eqn:E.
  - apply lookup_replace_key. rewrite E. eauto.
  - by apply lookup_insert_key.
Qed.

Lemma keys_set_key_old k v t : is_Some (lookup_key k t) → keys (set_key k v t) = keys t.
Proof. intros [w E]. unfold set_key. rewrite E. apply keys_replace_key. Qed.

Lemma NoDup_set_key k v t : NoDup (keys t) → NoDup (keys (set_key k v t)).
Proof.
  intros Hnd. unfold set_key. destruct (lookup_key k t) eqn:E.
  - by rewrite keys_replace_key.
  - rewrite keys_insert_key. apply NoDup_cons. split; [|done]. by apply lookup_key_None.
Qed.

Lemma elem_replace_key e k v t : e ∈ replace_key k v t → e = (k, v) ∨ e ∈ t.
Proof.
  induction t as [|[k' v'] t IH]; simpl; [auto|].
  case_decide; rewrite !elem_of_cons; naive_solver.
Qed.

Lemma elem_insert_key e k v t : e ∈ insert_key k v t → e = (k, v) ∨ e ∈ t.
Proof.
  induction t as [|[k' v'] t IH]; simpl.
  - rewrite list_elem_of_singleton. auto.
  - destruct (Keys.before k k'); rewrite !elem_of_cons; naive_solver.
Qed.

Lemma elem_set_key e k v t : e ∈ set_key k v t → e = (k, v) ∨ e ∈ t.
Proof.
  unfold set_key. destruct (lookup_key k t); [apply elem_replace_key | apply elem_insert_key].
Qed.

Lemma wf_set_key k v t : wf_node (Sub t) → wf_node v → wf_node (Sub (set_key k v t)).
Proof.
  intros Ht Hv. inversion Ht as [|? Hnd Hall]; subst. constructor.
  - by apply NoDup_set_key.
  - apply Forall_forall. intros e He. apply elem_set_key in He as [->|He]; [done|].
    rewrite Forall_forall in Hall. by apply Hall.
Qed.

Lemma wf_lookup k t v : wf_node (Sub t) → lookup_key k t = Some v → wf_node v.
Proof.
  intros Ht E. inversion Ht as [|? _ Hall]; subst.
  rewrite Forall_forall in Hall. apply (Hall (k, v)). by apply lookup_key_elem.
Qed.

Lemma ordinary_names_spec names :
  ordinary_names names = true ↔ Forall (λ s, inherited s = false) names.
Proof.
  unfold ordinary_names. rewrite forallb_forall, Forall_forall. split.
  - intros H x Hx. apply list_elem_of_In, H in Hx. by destruct (inherited x).
  - intros H x Hx. apply list_elem_of_In, H in Hx. by rewrite Hx.
Qed.

Lemma place_cons t s r0 r' :
  place t (s :: r0 :: r') =
    match lookup_key s t with
    | Some (Sub kids) => set_key s (Sub (place kids (r0 :: r'))) t
    | Some One => set_key s (Sub (place [] (r0 :: r'))) t
    | None => if inherited s then t else set_key s (Sub (place [] (r0 :: r'))) t
    end.
Proof. reflexivity. Qed.

Lemma wf_place_leaf t k : wf_node (Sub t) → wf_node (Sub (place_leaf t k)).
Proof.
  intros Ht. unfold place_leaf. destruct (lookup_key k t); [done|].
  destruct (inherited k); [done|]. apply wf_set_key; [done | constructor].
Qed.

Lemma wf_place p : ∀ t, wf_node (Sub t) → wf_node (Sub (place t p)).
Proof.
  assert (Hnil : wf_node (Sub [])) by (constructor; [apply NoDup_nil_2 | constructor]).
  induction p as [|s rest IH]; intros t Ht; [by apply wf_place_leaf|].
  destruct rest as [|s' rest]; [by apply wf_place_leaf|].
  rewrite place_cons. destruct (lookup_key s t) as [[|kids]|] eqn:E.
  - apply wf_set_key; [done | by apply IH].
  - apply wf_set_key; [done|]. apply IH. by eapply wf_lookup.
  - destruct (inherited s); [done|]. apply wf_set_key; [done | by apply IH].
Qed.

Lemma wf_normalize ls : wf_node (Sub (normalize ls)).
Proof.
  unfold normalize.
  assert (H : wf_node (Sub [])) by (constructor; [apply NoDup_nil_2 | constructor]).
  revert H. generalize (@nil (string * node)).
  induction ls as [|xs ls IH]; intros t Ht; simpl; [done|].
  apply IH. by apply wf_place.
Qed.

Lemma lookup_place_leaf_other t k k' :
  is_Some (lookup_key k' t) → lookup_key k' (place_leaf t k) = lookup_key k' t.
Proof.
  intros Hs. unfold place_leaf. destruct (lookup_key k t) eqn:E; [done|].
  destruct (inherited k); [done|].
  rewrite lookup_set_key. case_decide; [|done]. subst. rewrite E in Hs. by destruct Hs.
Qed.

Lemma lookup_place_leaf_self t k :
  inherited k = false → is_Some (lookup_key k (place_leaf t k)).
Proof.
  intros Hk. unfold place_leaf. destruct (lookup_key k t) eqn:E; [rewrite E; eauto|].
  rewrite Hk, lookup_set_key, decide_True by done. eauto.
Qed.

Lemma descend_app v p q :
  descend v (p ++ q) = match descend v p with Some w => descend w q | None => None end.
Proof.
  revert v. induction p as [|s p IH]; intros v; simpl; [done|].
  destruct v as [|kids]; [done|]. destruct (lookup_key s kids); [apply IH | done].
Qed.

Lemma descend_One p w : descend One p = Some w → p = [] ∧ w = One.
Proof. destruct p; simpl; [by intros [= <-] | done]. Qed.

(** Every path the tree reaches is still reached after [place], and an
    internal node stays internal. *)
Lemma place_keeps q : ∀ t p w,
  descend (Sub t) q = Some w →
  ∃ w', descend (Sub (place t p)) q = Some w' ∧ (is_sub w → is_sub w').
Proof.
  induction q as [|s q IH]; intros t p w; simpl.
  - intros [= <-]. eauto.
  - destruct (lookup_key s t) as [v|] eqn:E; [|done]. intros Hd.
    assert (Hleaf : ∀ k, ∃ w', match lookup_key s (place_leaf t k) with
                              | Some v' => descend v' q
                              | None => None
                              end = Some w' ∧ (is_sub w → is_sub w')).
    { intros k. rewrite lookup_place_leaf_other, E by (rewrite E; eauto). eauto. }
    assert (Hsame : ∃ w', match lookup_key s t with
                          | Some v' => descend v' q
                          | None => None
                          end = Some w' ∧ (is_sub w → is_sub w')).
    { rewrite E. eauto. }
    assert (Hset : ∀ h x, h ≠ s →
              ∃ w', match lookup_key s (set_key h x t) with
                    | Some v' => descend v' q
                    | None => None
                    end = Some w' ∧ (is_sub w → is_sub w')).
    { intros h x Hne. rewrite lookup_set_key, decide_False by congruence. exact Hsame. }
    destruct p as [|h rest]; [apply Hleaf|].
    destruct rest as [|h' rest]; [apply Hleaf|].
    rewrite place_cons. destruct (decide (h = s)) as [->|Hne].
    + rewrite E. destruct v as [|kids].
      * apply descend_One in Hd as [-> ->]. rewrite lookup_set_key, decide_True by done.
        simpl. eexists; split; [done | done].
      * rewrite lookup_set_key, decide_True by done. apply (IH kids (h' :: rest) w Hd).
    + destruct (lookup_key h t) as [[|kids]|]; [by apply Hset | by apply Hset |].
      destruct (inherited h); [exact Hsame | by apply Hset].
Qed.

(** After [place], the placed path is reached. *)
Lemma place_reaches p : ∀ t,
  p ≠ [] → Forall (λ s, inherited s = false) p → is_Some (descend (Sub (place t p)) p).
Proof.
  induction p as [|s rest IH]; intros t Hp Hord; [done|].
  apply Forall_cons in Hord as [Hs Hrest].
  destruct rest as [|s' rest].
  - simpl. destruct (lookup_place_leaf_self t s Hs) as [v ->]. eauto.
  - rewrite place_cons, Hs.
    destruct (lookup_key s t) as [[|kids]|]; cbn [descend];
      rewrite lookup_set_key, decide_True by done; by apply IH.
Qed.

Lemma normalize_keeps ls : ∀ t q w,
  descend (Sub t) q = Some w →
  ∃ w', descend (Sub (foldl (λ out xs, place out (segs xs)) t ls)) q = Some w'
        ∧ (is_sub w → is_sub w').
Proof.
  induction ls as [|xs ls IH]; intros t q w Hd; simpl; [eauto|].
  destruct (place_keeps q t (segs xs) w Hd) as (w1 & H1 & Hs1).
  destruct (IH _ _ _ H1) as (w2 & H2 & Hs2). eauto.
Qed.

(** Every non-empty path handed to [normalize] is reached in its result. *)
Lemma normalize_reaches ls xs :
  xs ∈ ls → segs xs ≠ [] → ordinary_names (segs xs) = true →
  is_Some (descend (Sub (normalize ls)) (segs xs)).
Proof.
  unfold normalize. generalize (@nil (string * node)).
  induction ls as [|ys ls IH]; intros t Hin Hne Hord; [by apply elem_of_nil in Hin|].
  apply elem_of_cons in Hin as [->|Hin]; simpl; [|by apply IH].
  destruct (place_reaches (segs ys) t Hne) as [w Hw]; [by apply ordinary_names_spec|].
  destruct (normalize_keeps ls _ _ _ Hw) as (w' & -> & _). eauto.
Qed.

(** An empty path handed to [normalize] leaves the key "undefined". *)
Lemma normalize_empty ls xs :
  xs ∈ ls → segs xs = [] → is_Some (lookup_key "undefined" (normalize ls)).
Proof.
  intros Hin Hxs.
  assert (H : is_Some (descend (Sub (normalize ls)) ["undefined"])).
  { revert Hin. unfold normalize. generalize (@nil (string * node)).
    induction ls as [|ys ls IH]; intros t Hin; [by apply elem_of_nil in Hin|].
    apply elem_of_cons in Hin as [<-|Hin]; cbn [foldl]; [|by apply IH].
    rewrite Hxs. change (place t []) with (place t ["undefined"]).
    destruct (place_reaches ["undefined"] t) as [w Hw]; [done | by repeat constructor|].
    destruct (normalize_keeps ls _ _ _ Hw) as (w' & Hw' & _). rewrite Hw'. eauto. }
  simpl in H. destruct (lookup_key "undefined" (normalize ls)); [eauto | by destruct H].
Qed.

(** A path with a continuation ends in an internal node. *)
Lemma descend_internal v p q w :
  descend v (p ++ q) = Some w → q ≠ [] → ∃ kids, descend v p = Some (Sub kids).
Proof.
  rewrite descend_app. destruct (descend v p) as [[|kids]|]; [|eauto|done].
  destruct q; [done | simpl; done].
Qed.

Lemma wf_descend p : ∀ v w, wf_node v → descend v p = Some w → wf_node w.
Proof.
  induction p as [|s p IH]; intros v w Hwf; simpl; [by intros [= <-]|].
  destruct v as [|kids]; [done|]. destruct (lookup_key s kids) as [v'|] eqn:E; [|done].
  apply IH. by eapply wf_lookup.
Qed.

Lemma filter_key_absent s (t : rtree) : s ∉ keys t → filter (λ e, e.1 = s) t = [].
Proof.
  induction t as [|[k v] t IH]; simpl; [done|]. rewrite not_elem_of_cons. intros [Hk Ht].
  rewrite filter_cons. simpl. rewrite decide_False by congruence. by apply IH.
Qed.

(** Under a name that is held once, a level has one entry. *)
Lemma filter_key_unique s v (t : rtree) :
  NoDup (keys t) → lookup_key s t = Some v → filter (λ e, e.1 = s) t = [(s, v)].
Proof.
  induction t as [|[k v0] t IH]; simpl; [done|]. intros Hnd E.
  apply NoDup_cons in Hnd as [Hk Hnd]. rewrite filter_cons. simpl.
  destruct (decide (s = k)) as [->|Hne].
  - injection E as ->. rewrite decide_True by done. by rewrite filter_key_absent.
  - rewrite decide_False by congruence. by apply IH.
Qed.

(** Promotion: a leaf that a longer path descends through becomes an
    internal node at the same place, and its siblings stay. *)
Lemma place_promotes t s q :
  lookup_key s t = Some One → q ≠ [] →
  lookup_key s (place t (s :: q)) = Some (Sub (place [] q))
  ∧ keys (place t (s :: q)) = keys t
  ∧ ∀ k, k ≠ s → lookup_key k (place t (s :: q)) = lookup_key k t.
Proof.
  intros E Hq. destruct q as [|s' q]; [done|].
  rewrite place_cons, E. split; [|split].
  - by rewrite lookup_set_key, decide_True.
  - apply keys_set_key_old. rewrite E. eauto.
  - intros k Hk. by rewrite lookup_set_key, decide_False.
Qed.
(** ** Properties of the heap operations *)

Section HeapFacts.

Implicit Types (h : heap) (l : loc) (k : string) (v : value).

Lemma get_alloc h l k : is_Some (h !! l) → ∀ o, get (h ++ [o]) l k = get h l k.
Proof. intros Hs o. unfold get. by rewrite lookup_app_l by (by apply lookup_lt_is_Some). Qed.

Lemma get_new h o k : get (h ++ [o]) (length h) k = default VUndef (oprops o !! k).
Proof. unfold get. by rewrite list_lookup_middle. Qed.

Lemma get_truthy_alloc h l k : truthy (get h l k) = true → is_Some (h !! l).
Proof. unfold get. destruct (h !! l); [eauto | done]. Qed.

Lemma get_set_prop h l l' k k' v :
  get (set_prop l k v h) l' k' =
    if decide (l' = l ∧ k' = k ∧ (l < length h)%nat) then v else get h l' k'.
Proof.
  unfold get, set_prop. destruct (decide (l' = l)) as [->|Hne].
  - rewrite list_lookup_alter_eq. destruct (h !! l) as [o|] eqn:E; rewrite ?E; simpl.
    + apply lookup_lt_Some in E as Hlt. destruct (decide (k' = k)) as [->|Hk].
      * rewrite lookup_insert_eq, decide_True by done. done.
      * rewrite lookup_insert_ne by done. rewrite decide_False by naive_solver. done.
    + apply lookup_ge_None in E. rewrite decide_False by lia. done.
  - rewrite list_lookup_alter_ne by congruence. rewrite decide_False by naive_solver. done.
Qed.

Lemma kind_of_set_prop h l l' k v : kind_of (set_prop l k v h) l' = kind_of h l'.
Proof.
  unfold kind_of, set_prop. destruct (decide (l' = l)) as [->|Hne].
  - rewrite list_lookup_alter_eq. destruct (h !! l) as [o|] eqn:E; by rewrite ?E.
  - by rewrite list_lookup_alter_ne by congruence.
Qed.

Lemma length_set_prop h l k v : length (set_prop l k v h) = length h.
Proof. apply length_alter. Qed.

Lemma extends_refl P h : extends P h h.
Proof. split; [done|]. intros l o E. eauto. Qed.

Lemma extends_trans P Q h1 h2 h3 :
  extends P h1 h2 → extends Q h2 h3 → extends (λ l k, P l k ∨ Q l k) h1 h3.
Proof.
  intros [L1 H1] [L2 H2]. split; [lia|]. intros l o E.
  destruct (H1 l o E) as (o1 & E1 & K1 & P1).
  destruct (H2 l o1 E1) as (o2 & E2 & K2 & P2).
  exists o2. split; [done|]. split; [congruence|].
  intros k Hk. rewrite P2, P1; [done | tauto | tauto].
Qed.

Lemma extends_weaken (P Q : loc → string → Prop) h h' :
  extends P h h' → (∀ l k, (l < length h)%nat → P l k → Q l k) → extends Q h h'.
Proof.
  intros [L H] HPQ. split; [done|]. intros l o E.
  destruct (H l o E) as (o' & E' & K & Hp). exists o'. split; [done|]. split; [done|].
  intros k Hk. apply Hp. intros Hpk. apply Hk, HPQ; [|done]. by apply lookup_lt_Some in E.
Qed.

Lemma extends_alloc h o : extends (λ _ _, False) h (h ++ [o]).
Proof.
  split; [rewrite length_app; lia|]. intros l o' E. exists o'.
  split; [by apply lookup_app_l_Some|]. done.
Qed.

Lemma extends_set_prop h l k v : extends (λ l' k', l' = l ∧ k' = k) h (set_prop l k v h).
Proof.
  split; [by rewrite length_set_prop|]. intros l' o E. unfold set_prop.
  destruct (decide (l' = l)) as [->|Hne].
  - rewrite list_lookup_alter_eq, E. simpl. eexists. split; [done|]. split; [done|].
    intros k' Hk. simpl. rewrite lookup_insert_ne; [done|]. naive_solver.
  - rewrite list_lookup_alter_ne by congruence. eauto.
Qed.

Lemma extends_get P h h' l k :
  extends P h h' → is_Some (h !! l) → ¬ P l k → get h' l k = get h l k.
Proof.
  intros [_ H] [o E] Hp. destruct (H l o E) as (o' & E' & _ & Hk).
  unfold get. rewrite E, E'. by rewrite Hk.
Qed.

Lemma extends_kind P h h' l :
  extends P h h' → is_Some (h !! l) → kind_of h' l = kind_of h l.
Proof.
  intros [_ H] [o E]. destruct (H l o E) as (o' & E' & K & _).
  unfold kind_of. rewrite E, E'. simpl. by rewrite K.
Qed.

Lemma extends_alloc_Some P h h' l : extends P h h' → is_Some (h !! l) → is_Some (h' !! l).
Proof. intros [_ H] [o E]. destruct (H l o E) as (o' & E' & _). eauto. Qed.


Lemma kind_of_alloc h l : is_Some (kind_of h l) ↔ is_Some (h !! l).
Proof. unfold kind_of. by rewrite fmap_is_Some. Qed.

End HeapFacts.

(** ** Properties of the hierarchy compiler *)

Section CompilerFacts.

Variable conf : config.
Variable written : list string.

Implicit Types (h : heap) (l accum fn : loc) (k : string) (v : node).

Lemma loop_Sub kids accum h :
  loop conf (Sub kids) accum h = foldl (compile_key conf accum) h kids.
Proof. reflexivity. Qed.

Lemma compile_key_eq accum h e :
  compile_key conf accum h e =
    set_prop accum e.1 (VRef (length h))
      (loop conf e.2 (length h) (h ++ [new_fn conf accum e.1 e.2])).
Proof. unfold compile_key. by destruct e.2. Qed.

Lemma compiled_Sub h accum kids :
  compiled conf written h accum (Sub kids)
  ↔ Forall (attached conf written (compiled conf written h) h accum) kids.
Proof.
  simpl. induction kids as [|e kids IH]; [split; [constructor | done]|].
  rewrite Forall_cons, IH. done.
Qed.

Lemma compile_key_extends accum h e :
  (∀ a h0, a < length h0 →
     extends (λ l k, l = a ∧ k ∈ keys (kids_of e.2)) h0 (loop conf e.2 a h0)) →
  extends (λ l k, l = accum ∧ k = e.1) h (compile_key conf accum h e).
Proof.
  intros IH. rewrite compile_key_eq.
  set (h1 := h ++ [new_fn conf accum e.1 e.2]).
  assert (Hlen : length h < length h1) by (unfold h1; rewrite length_app; simpl; lia).
  pose proof (extends_trans _ _ _ _ _
    (extends_trans _ _ _ _ _ (extends_alloc h (new_fn conf accum e.1 e.2)) (IH _ h1 Hlen))
    (extends_set_prop _ accum e.1 (VRef (length h)))) as H.
  eapply extends_weaken; [exact H|]. intros l k Hl [[[]|[-> _]]|?]; [lia | done].
Qed.

Lemma loop_list_extends accum kids :
  Forall (λ e, ∀ a h0, a < length h0 →
     extends (λ l k, l = a ∧ k ∈ keys (kids_of e.2)) h0 (loop conf e.2 a h0)) kids →
  ∀ h, extends (λ l k, l = accum ∧ k ∈ keys kids) h (foldl (compile_key conf accum) h kids).
Proof.
  induction 1 as [|e kids He _ IH]; intros h; simpl.
  - apply (extends_weaken (λ _ _, False)); [apply extends_refl | done].
  - eapply extends_weaken.
    + eapply extends_trans; [apply (compile_key_extends accum h e He) | apply IH].
    + intros l k _ [[-> ->]|[-> Hk]]; (split; [done|]); rewrite elem_of_cons; auto.
Qed.

(** [loop] keeps what is there: it adds objects, and of the old ones
    only [accum] changes, under the names of the entries. *)
Lemma loop_extends v : ∀ accum h, accum < length h →
  extends (λ l k, l = accum ∧ k ∈ keys (kids_of v)) h (loop conf v accum h).
Proof.
  induction v as [|kids IH] using node_ind'; intros accum h Hlt.
  - apply (extends_weaken (λ _ _, False)); [apply extends_refl | done].
  - rewrite loop_Sub. by apply loop_list_extends.
Qed.

Lemma attached_frame (P : loc → string → Prop) h h' accum e :
  (∀ fn, accum < fn → compiled conf written h fn e.2 → compiled conf written h' fn e.2) →
  attached conf written (compiled conf written h) h accum e →
  extends P h h' →
  (∀ l k, P l k → l ≤ accum ∧ (l = accum → k ≠ e.1)) →
  attached conf written (compiled conf written h') h' accum e.
Proof.
  intros Hsub (fn & Hlt & Hget & Hkind & Hprops & Hc) Hext HP.
  assert (Hfn : is_Some (h !! fn)) by (apply kind_of_alloc; rewrite Hkind; eauto).
  exists fn. split; [done|]. split; [|split; [|split]].
  - rewrite (extends_get P h h'); [done | done | | ].
    + apply get_truthy_alloc with e.1. by rewrite Hget.
    + intros Hp. apply HP in Hp as [_ Hp]. by apply Hp.
  - by rewrite (extends_kind P h h').
  - intros k Hk Hw. rewrite (extends_get P h h'); [by apply Hprops | done | done |].
    intros Hp. apply HP in Hp as [Hp _]. lia.
  - by apply Hsub.
Qed.

(** Frame: what is compiled below [a] is untouched by changes to
    older objects and to other names of [a]. *)
Lemma compiled_frame v : ∀ (P : loc → string → Prop) h h' a,
  compiled conf written h a v → extends P h h' →
  (∀ l k, P l k → l ≤ a ∧ (l = a → k ∉ keys (kids_of v))) →
  compiled conf written h' a v.
Proof.
  induction v as [|kids IH] using node_ind'; intros P h h' a Hc Hext HP; [done|].
  rewrite compiled_Sub in *. rewrite Forall_forall in *. intros e He.
  apply (attached_frame P h h'); [| by apply Hc | done |].
  - intros fn Hlt Hce. apply (IH e He P h h' fn Hce Hext).
    intros l k Hp. apply HP in Hp as [Hp _]. split; [lia | intros ->; lia].
  - intros l k Hp. apply HP in Hp as [Hp1 Hp2]. split; [done|].
    intros -> ->. apply Hp2; [done|]. simpl. by apply (list_elem_of_fmap_2 fst) in He.
Qed.

Lemma compile_key_attached accum h e :
  (∀ a h0, wf_node e.2 → a < length h0 → compiled conf written (loop conf e.2 a h0) a e.2) →
  wf_node e.2 → accum < length h →
  let h' := compile_key conf accum h e in
  attached conf written (compiled conf written h') h' accum e.
Proof.
  intros IH Hwf Hlt. simpl. rewrite compile_key_eq.
  set (fn := length h). set (h1 := h ++ [new_fn conf accum e.1 e.2]).
  set (h2 := loop conf e.2 fn h1).
  assert (Hfn1 : h1 !! fn = Some (new_fn conf accum e.1 e.2))
    by (unfold h1, fn; by rewrite list_lookup_middle).
  assert (Hlen1 : fn < length h1) by (by apply lookup_lt_Some in Hfn1).
  pose proof (loop_extends e.2 fn h1 Hlen1) as Hext. fold h2 in Hext.
  assert (Hlen2 : length h1 ≤ length h2) by apply Hext.
  exists fn. split; [done|]. split; [|split; [|split]].
  - rewrite get_set_prop, decide_True; [done|]. split; [done|]. split; [done|].
    unfold fn in *. lia.
  - rewrite kind_of_set_prop. rewrite (extends_kind _ h1 h2 fn Hext) by eauto.
    unfold kind_of. by rewrite Hfn1.
  - intros k Hk _. rewrite get_set_prop, decide_False by (intros [? _]; lia).
    rewrite (extends_get _ h1 h2 fn k Hext); [| eauto | naive_solver].
    unfold h1, fn. by rewrite get_new.
  - eapply compiled_frame; [by apply IH | apply extends_set_prop |].
    intros l k [-> ->]. split; [lia | intros ->; lia].
Qed.

Lemma loop_list_compiled accum kids :
  Forall (λ e, ∀ a h0, wf_node e.2 → a < length h0 →
               compiled conf written (loop conf e.2 a h0) a e.2) kids →
  wf_node (Sub kids) →
  ∀ h, accum < length h →
    let h' := foldl (compile_key conf accum) h kids in
    Forall (attached conf written (compiled conf written h') h' accum) kids.
Proof.
  induction 1 as [|e kids He Hall IH]; intros Hwf h Hlt; simpl; [constructor|].
  inversion Hwf as [|? Hnd Hwfs]; subst.
  apply NoDup_cons in Hnd as [Hk Hnd]. apply Forall_cons in Hwfs as [Hwe Hwfs].
  set (h1 := compile_key conf accum h e).
  assert (Hext1 : extends (λ l k, l = accum ∧ k = e.1) h h1).
  { apply compile_key_extends. intros a h0 Ha. by apply loop_extends. }
  assert (Hlt1 : accum < length h1) by (destruct Hext1; lia).
  constructor; [|apply IH; [by constructor | done]].
  pose proof (compile_key_attached accum h e He Hwe Hlt) as Hatt. simpl in Hatt. fold h1 in Hatt.
  eapply attached_frame; [| exact Hatt | apply (loop_list_extends accum kids) |].
  - intros fn Hfn Hc. eapply compiled_frame; [exact Hc | apply (loop_list_extends accum kids) |].
    + rewrite Forall_forall. intros e' _ a h0 Ha. by apply loop_extends.
    + intros l k [-> _]. split; [lia | intros ->; lia].
  - rewrite Forall_forall. intros e' _ a h0 Ha. by apply loop_extends.
  - intros l k [-> Hin]. split; [done|]. intros _ ->. done.
Qed.

(** After [loop], every entry of the tree is compiled under [accum]. *)
Lemma loop_compiled v : ∀ accum h, wf_node v → accum < length h →
  compiled conf written (loop conf v accum h) accum v.
Proof.
  induction v as [|kids IH] using node_ind'; intros accum h Hwf Hlt; [done|].
  rewrite compiled_Sub, loop_Sub. by apply loop_list_compiled.
Qed.

End CompilerFacts.

(** What is compiled with fewer names left open is compiled with more. *)
Lemma compiled_mono conf w1 w2 v :
  (∀ k, k ∈ w1 → k ∈ w2) → ∀ h a, compiled conf w1 h a v → compiled conf w2 h a v.
Proof.
  intros Hsub. induction v as [|kids IH] using node_ind'; intros h a; [done|].
  rewrite !compiled_Sub, !Forall_forall. intros Hc e He.
  destruct (Hc e He) as (fn & Hlt & Hget & Hkind & Hprops & Hce).
  exists fn. split; [done|]. split; [done|]. split; [done|]. split.
  - intros k Hk Hw. apply Hprops; [done|]. intros Hw1. by apply Hw, Hsub.
  - rewrite Forall_forall in IH. by apply IH.
Qed.
(** ** Routes *)

Lemma append_nil_r s : s +:+ EmptyString = s.
Proof.
  induction s as [|c s IH]; [done|].
  change (String c (s +:+ EmptyString) = String c s). by rewrite IH.
Qed.

Lemma append_assoc s1 s2 s3 : (s1 +:+ s2) +:+ s3 = s1 +:+ s2 +:+ s3.
Proof.
  induction s1 as [|c s1 IH]; [done|].
  change (String c ((s1 +:+ s2) +:+ s3) = String c (s1 +:+ s2 +:+ s3)). by rewrite IH.
Qed.

Lemma avoids_Sub names kids :
  avoids names (Sub kids) ↔ Forall (λ e, (e.1 ∉ names) ∧ avoids names e.2) kids.
Proof.
  simpl. induction kids as [|e kids IH]; [split; [constructor | done]|].
  rewrite Forall_cons, IH. tauto.
Qed.

Lemma avoids_lookup names kids s v :
  avoids names (Sub kids) → lookup_key s kids = Some v → (s ∉ names) ∧ avoids names v.
Proof.
  rewrite avoids_Sub, Forall_forall. intros H E. apply (H (s, v)). by apply lookup_key_elem.
Qed.

Lemma avoids_keys names v k : avoids names v → k ∈ names → k ∉ keys (kids_of v).
Proof.
  destruct v as [|kids]; simpl kids_of; [intros _ _; apply not_elem_of_nil|].
  rewrite avoids_Sub, Forall_forall. intros H Hk Hin.
  apply list_elem_of_fmap in Hin as (e & -> & He). by apply (H e He).
Qed.

Lemma own_route : "_route" ∈ own_names.
Proof. unfold own_names. rewrite elem_of_cons. auto. Qed.

Lemma own_out : "_out" ∈ own_names.
Proof. unfold own_names. rewrite !elem_of_cons. auto. Qed.

Create HintDb quickrest.
#[local] Hint Resolve own_route own_out : quickrest.

(** A tree given in full avoids the names in question. *)
Ltac avoids_by_computation :=
  simpl; unfold kept_names, call_writes, own_names; simpl; rewrite !not_elem_of_cons;
  repeat split; (done || apply not_elem_of_nil).

Section RouteFacts.

Variable conf : config.

Implicit Types (h : heap) (l accum fn cur : loc) (k : string) (v : node).

Lemma proto_lookup_None resource k :
  k ∉ method_names conf → proto conf resource !! k = None.
Proof.
  unfold method_names, proto. rewrite !not_elem_of_cons. intros H.
  rewrite !lookup_insert_ne by naive_solver. done.
Qed.

Lemma fresh_props_route route name :
  names_free conf own_names → fresh_props conf route name !! "_route" = Some route.
Proof.
  intros Hf. unfold fresh_props. rewrite lookup_union_r.
  - by rewrite lookup_singleton_eq.
  - apply proto_lookup_None, Hf. auto with quickrest.
Qed.

Lemma fresh_props_out route name :
  names_free conf own_names → fresh_props conf route name !! "_out" = None.
Proof.
  intros Hf. unfold fresh_props. rewrite lookup_union_r.
  - by rewrite lookup_singleton_ne.
  - apply proto_lookup_None, Hf. auto with quickrest.
Qed.

(** A call of a resource function on an object without [_out]. *)
Lemma invoke_spec h this fn accum name v id :
  kind_of h fn = Some (KNode accum name v) →
  get h this "_out" = VUndef → this < length h → wf_node v →
  ∃ h', invoke conf h this fn id = Some (h', VRef (length h))
    ∧ extends (λ l k, l = this ∧ k = "out") h h'
    ∧ get h' this "out" = VRef (length h)
    ∧ kind_of h' (length h) = Some KPlain
    ∧ (∀ k, k ∉ keys (kids_of v) →
         get h' (length h) k
         = default VUndef (fresh_props conf (VInstRoute accum this name id) name !! k))
    ∧ compiled conf [] h' (length h) v.
Proof.
  intros Hkind Hout Hlt Hwf. unfold invoke. rewrite Hkind, Hout. simpl.
  set (o := Object KPlain (fresh_props conf (VInstRoute accum this name id) name)).
  set (out := length h). set (h1 := h ++ [o]).
  set (h2 := set_prop this "out" (VRef out) h1).
  assert (Ho1 : h1 !! out = Some o) by (unfold h1, out; by rewrite list_lookup_middle).
  assert (Hlen2 : out < length h2).
  { unfold h2. rewrite length_set_prop. by apply lookup_lt_Some in Ho1. }
  pose proof (loop_extends conf v out h2 Hlen2) as Hext.
  eexists. split; [done|]. split; [|split; [|split; [|split]]].
  - pose proof (extends_trans _ _ _ _ _
      (extends_trans _ _ _ _ _ (extends_alloc h o)
         (extends_set_prop h1 this "out" (VRef out))) Hext) as H.
    eapply extends_weaken; [exact H|].
    intros l k Hl [[[]|?]|[-> _]]; [done | unfold out in Hl; lia].
  - assert (Hthis : this < length h1) by (unfold h1; rewrite length_app; simpl; lia).
    rewrite (extends_get _ h2 _ this "out" Hext).
    + unfold h2. by rewrite get_set_prop, decide_True.
    + apply lookup_lt_is_Some. unfold h2. by rewrite length_set_prop.
    + intros [? _]. unfold out in *. lia.
  - rewrite (extends_kind _ h2 _ out Hext) by (by apply lookup_lt_is_Some).
    unfold h2. rewrite kind_of_set_prop. unfold kind_of. by rewrite Ho1.
  - intros k Hk.
    rewrite (extends_get _ h2 _ out k Hext); [| by apply lookup_lt_is_Some | naive_solver].
    unfold h2. rewrite get_set_prop, decide_False by (unfold out; intros [? _]; lia).
    unfold h1, out. by rewrite get_new.
  - by apply loop_compiled.
Qed.

Lemma has_route_truthy h l r : has_route conf h l r → truthy (get h l "_route") = true.
Proof. intros H. destruct H as [? ? ? E|? ? ? ? E|? ? ? ? ? E|? ? ? ? ? ? E]; by rewrite E. Qed.

Lemma has_route_extends (P : loc → string → Prop) h h' l r :
  has_route conf h l r → extends P h h' → (∀ l', ¬ P l' "_route") →
  has_route conf h' l r.
Proof.
  intros Hr Hext HP.
  assert (Hget : ∀ l', is_Some (h !! l') → get h' l' "_route" = get h l' "_route").
  { intros l' Hs. by apply (extends_get P). }
  assert (Hget' : ∀ l', truthy (get h l' "_route") = true →
                        get h' l' "_route" = get h l' "_route").
  { intros l' Ht. apply Hget. by apply get_truthy_alloc in Ht. }
  induction Hr as [l accum name E Ha Eu|l accum name r E Ht _ IH
                  |l accum self name id E Ha Eu|l accum self name id r E Ht _ IH].
  - apply hr_node_top with accum.
    + rewrite Hget', E; [done | by rewrite E].
    + by apply (extends_alloc_Some P h h').
    + by rewrite Hget.
  - apply hr_node_sub with accum; [| |done].
    + rewrite Hget', E; [done | by rewrite E].
    + by rewrite Hget'.
  - apply hr_inst_top with accum self.
    + rewrite Hget', E; [done | by rewrite E].
    + by apply (extends_alloc_Some P h h').
    + by rewrite Hget.
  - apply hr_inst_sub with accum self; [| |done].
    + rewrite Hget', E; [done | by rewrite E].
    + by rewrite Hget'.
Qed.

(** With enough fuel the accessor returns the route, and the heap is
    as before. *)
Lemma call_route_complete h l r :
  has_route conf h l r → ∃ n, ∀ fuel, n ≤ fuel → call_route conf fuel h l = Some (h, r).
Proof.
  induction 1 as [l accum name E Ha Eu|l accum name r E Ht _ [n IH]
                 |l accum self name id E Ha Eu|l accum self name id r E Ht _ [n IH]].
  - exists 1. intros [|fuel] Hf; [lia|]. simpl. by rewrite E, Eu.
  - exists (S n). intros [|fuel] Hf; [lia|]. simpl. rewrite E, Ht, IH by lia. done.
  - exists 1. intros [|fuel] Hf; [lia|]. simpl. by rewrite E, Eu.
  - exists (S n). intros [|fuel] Hf; [lia|]. simpl. rewrite E, Ht, IH by lia. done.
Qed.

Lemma base_route_extends (P : loc → string → Prop) h h' cur r :
  base_route conf h cur r → extends P h h' → (∀ l', ¬ P l' "_route") →
  base_route conf h' cur r.
Proof.
  intros [(Hs & Hu & ->)|[Ht Hr]] Hext HP.
  - left. split; [by apply (extends_alloc_Some P h h')|]. split; [|done].
    by rewrite (extends_get P h h').
  - right. split; [|by apply (has_route_extends P h h')].
    rewrite (extends_get P h h'); [done | done | by apply get_truthy_alloc in Ht | done].
Qed.

(** The accessor of a child function continues the route of its parent. *)
Lemma child_route h cur fn name r :
  base_route conf h cur r → get h fn "_route" = VNodeRoute cur name →
  has_route conf h fn (r +:+ "/" +:+ name).
Proof.
  intros [(Hs & Hu & ->)|[Ht Hr]] E.
  - by apply hr_node_top with cur.
  - by apply hr_node_sub with cur.
Qed.

(** The accessor of an instance made on its parent continues the
    route of the parent. *)
Lemma instance_route h cur out name id r :
  base_route conf h cur r → get h out "_route" = VInstRoute cur cur name id →
  has_route conf h out (r +:+ "/" +:+ name +:+ "/" +:+ id).
Proof.
  intros [(Hs & Hu & ->)|[Ht Hr]] E.
  - by apply hr_inst_top with cur cur.
  - by apply hr_inst_sub with cur cur.
Qed.

End RouteFacts.

(** ** Navigation *)

Section Navigation.

Variable conf : config.
Variable written : list string.
Hypothesis Hfree : names_free conf own_names.
Hypothesis Hwritten : ∀ k, k ∈ own_names → k ∉ written.

Implicit Types (h : heap) (l accum fn cur : loc) (k : string) (v : node).

Lemma standing_attached h cur kids r s v' :
  standing conf written h cur (Sub kids) r → lookup_key s kids = Some v' →
  attached conf written (compiled conf written h) h cur (s, v')
  ∧ wf_node v' ∧ avoids own_names v'.
Proof.
  intros (Hc & _ & _ & _ & Hwf & Hav) E.
  rewrite compiled_Sub, Forall_forall in Hc.
  split; [apply Hc; by apply lookup_key_elem|].
  split; [by eapply wf_lookup | by eapply avoids_lookup].
Qed.

(** [cur.s]: the child function, and where it stands. *)
Lemma step_plain h cur kids r s v' :
  standing conf written h cur (Sub kids) r → lookup_key s kids = Some v' →
  ∃ fn, get h cur s = VRef fn
    ∧ kind_of h fn = Some (KNode cur s v')
    ∧ has_route conf h fn (r +:+ "/" +:+ s)
    ∧ standing conf written h fn v' (r +:+ "/" +:+ s).
Proof.
  intros Hst E.
  destruct (standing_attached _ _ _ _ _ _ Hst E)
    as ((fn & Hlt & Hget & Hkind & Hprops & Hc) & Hwf & Hav).
  simpl in *. exists fn. split; [done|]. split; [done|].
  assert (Er : get h fn "_route" = VNodeRoute cur s).
  { rewrite Hprops; [by rewrite fresh_props_route | | auto with quickrest].
    apply (avoids_keys own_names); auto with quickrest. }
  assert (Hr : has_route conf h fn (r +:+ "/" +:+ s)).
  { apply child_route with cur; [apply Hst | done]. }
  split; [done|]. split; [done|]. split; [|split; [|split; [|done]]].
  - right. split; [by rewrite Er | done].
  - rewrite Hprops; [by rewrite fresh_props_out | | auto with quickrest].
    apply (avoids_keys own_names); auto with quickrest.
  - apply kind_of_alloc. rewrite Hkind. eauto.
Qed.

(** [cur.s(id)] on an object without [_out] whose property [s] is the
    resource function [fn]: a fresh object, and where it stands. *)
Lemma call_fresh h cur fn r s v' id :
  get h cur s = VRef fn → kind_of h fn = Some (KNode cur s v') →
  get h cur "_out" = VUndef → is_Some (h !! cur) → base_route conf h cur r →
  wf_node v' → avoids own_names v' →
  ∃ h', call_resource conf h cur s id = Some (h', VRef (length h))
    ∧ extends (λ l k, l = cur ∧ k = "out") h h'
    ∧ get h' cur "out" = VRef (length h)
    ∧ kind_of h' (length h) = Some KPlain
    ∧ has_route conf h' (length h) (r +:+ "/" +:+ s +:+ "/" +:+ id)
    ∧ standing conf written h' (length h) v' (r +:+ "/" +:+ s +:+ "/" +:+ id).
Proof.
  intros Hget Hkind Hout Hcur Hbase Hwf Hav. unfold call_resource. rewrite Hget.
  destruct (invoke_spec conf h cur fn cur s v' id Hkind Hout) as
    (h' & Hinv & Hext & Hw & Hk' & Hprops' & Hc'); [by apply lookup_lt_is_Some | done |].
  exists h'. split; [done|]. split; [done|]. split; [done|]. split; [done|].
  assert (Er : get h' (length h) "_route" = VInstRoute cur cur s id).
  { rewrite Hprops', fresh_props_route; [done | done |].
    apply (avoids_keys own_names); auto with quickrest. }
  assert (Hr : has_route conf h' (length h) (r +:+ "/" +:+ s +:+ "/" +:+ id)).
  { apply instance_route with cur; [|done].
    eapply base_route_extends; [exact Hbase | exact Hext | naive_solver]. }
  split; [done|]. split.
  { apply (compiled_mono conf [] written); [|done]. intros k Hk. by apply elem_of_nil in Hk. }
  split; [|split; [|split; [|done]]].
  - right. split; [by rewrite Er | done].
  - rewrite Hprops', fresh_props_out; [done | done |].
    apply (avoids_keys own_names); auto with quickrest.
  - apply kind_of_alloc. rewrite Hk'. eauto.
Qed.

Lemma step_call h cur kids r s v' id :
  standing conf written h cur (Sub kids) r → lookup_key s kids = Some v' →
  ∃ h', call_resource conf h cur s id = Some (h', VRef (length h))
    ∧ extends (λ l k, l = cur ∧ k = "out") h h'
    ∧ kind_of h' (length h) = Some KPlain
    ∧ has_route conf h' (length h) (r +:+ "/" +:+ s +:+ "/" +:+ id)
    ∧ standing conf written h' (length h) v' (r +:+ "/" +:+ s +:+ "/" +:+ id).
Proof.
  intros Hst E.
  destruct (standing_attached _ _ _ _ _ _ Hst E)
    as ((fn & Hlt & Hget & Hkind & Hprops & Hc) & Hwf & Hav).
  destruct Hst as (_ & Hbase & Hout & Hcur & _ & _).
  destruct (call_fresh h cur fn r s v' id) as (h' & ? & ? & _ & ? & ? & ?); eauto 10.
Qed.

(** A fluent expression over the tree reaches an object whose route is
    the starting route followed by the text of the path; the objects
    already there change at most under the name [out]. *)
Lemma navigate_sound path : ∀ h cur v r w,
  descend v (seg <$> path) = Some w → standing conf written h cur v r →
  ∃ h' l, navigate conf h cur path = Some (h', l)
    ∧ extends (λ _ k, k = "out") h h'
    ∧ standing conf written h' l w (r +:+ path_text path)
    ∧ (path ≠ [] ∨ truthy (get h cur "_route") = true →
       has_route conf h' l (r +:+ path_text path)).
Proof.
  induction path as [|[s oid] rest IH]; intros h cur v r w Hd Hst.
  - simpl in *. injection Hd as <-. exists h, cur. rewrite append_nil_r.
    split; [done|]. split; [apply extends_refl|]. split; [done|].
    intros [?|Ht]; [done|]. destruct Hst as (_ & [(_ & Hu & _)|[_ Hr]] & _); [|done].
    by rewrite Hu in Ht.
  - rewrite fmap_cons in Hd. cbn [seg descend] in Hd.
    destruct v as [|kids]; [done|].
    destruct (lookup_key s kids) as [v'|] eqn:E; [|done].
    destruct oid as [id|].
    + destruct (step_call h cur kids r s v' id Hst E) as (h1 & Hcall & Hext1 & Hk & Hr & Hst1).
      destruct (IH h1 (length h) v' _ w Hd Hst1) as (h' & l & Hnav & Hext & Hst' & Hr').
      exists h', l. cbn [navigate path_text]. rewrite Hcall.
      rewrite <- !append_assoc. rewrite <- !append_assoc in Hst', Hr'.
      split; [done|]. split; [|split; [done|]].
      * eapply extends_weaken; [apply (extends_trans _ _ _ _ _ Hext1 Hext)|]. naive_solver.
      * intros _. apply Hr'. right. by eapply has_route_truthy.
    + destruct (step_plain h cur kids r s v' Hst E) as (fn & Hget & Hk & Hr & Hst1).
      destruct (IH h fn v' _ w Hd Hst1) as (h' & l & Hnav & Hext & Hst' & Hr').
      exists h', l. cbn [navigate path_text]. rewrite Hget.
      rewrite <- !append_assoc. rewrite <- !append_assoc in Hst', Hr'.
      split; [done|]. split; [done|]. split; [done|].
      intros _. apply Hr'. right. by eapply has_route_truthy.
Qed.

End Navigation.


(** ** The built client *)

Section Client.

Variable cfg : config.
Variable h : heap.
Variable api : loc.
Hypothesis Hbuilt : quickrest cfg = Some (h, api).

Lemma built_eq :
  api = 0 ∧ h = loop cfg (Sub (resource_tree cfg)) 0 [Object KAccum ∅].
Proof.
  unfold quickrest in Hbuilt.
  destruct (validateConfig cfg && chooseDependencies cfg && buildable cfg); [|done].
  by injection Hbuilt as <- <-.
Qed.

Lemma built_extends :
  extends (λ l k, l = api ∧ k ∈ keys (resource_tree cfg)) [Object KAccum ∅] h.
Proof.
  destruct built_eq as [-> ->]. apply (loop_extends cfg (Sub (resource_tree cfg)) 0). simpl. lia.
Qed.

Lemma built_compiled : compiled cfg [] h api (Sub (resource_tree cfg)).
Proof.
  destruct built_eq as [-> ->]. apply loop_compiled; [apply wf_normalize | simpl; lia].
Qed.

Lemma built_api_alloc : is_Some (h !! api).
Proof.
  eapply extends_alloc_Some; [apply built_extends|]. destruct built_eq as [-> _]. simpl. eauto.
Qed.

(** The client holds nothing but its top-level resources. *)
Lemma built_api_get k : k ∉ keys (resource_tree cfg) → get h api k = VUndef.
Proof.
  intros Hk. rewrite (extends_get _ _ _ api k built_extends).
  - destruct built_eq as [-> _]. done.
  - destruct built_eq as [-> _]. simpl. eauto.
  - naive_solver.
Qed.

Lemma built_standing :
  avoids own_names (Sub (resource_tree cfg)) →
  standing cfg [] h api (Sub (resource_tree cfg)) (cleanroot (root cfg)).
Proof.
  intros Hav. split; [apply built_compiled|]. split; [|split; [|split; [|split]]].
  - left. split; [apply built_api_alloc|]. split; [|done].
    apply built_api_get. apply (avoids_keys own_names (Sub _)); auto with quickrest.
  - apply built_api_get. apply (avoids_keys own_names (Sub _)); auto with quickrest.
  - apply built_api_alloc.
  - apply wf_normalize.
  - done.
Qed.

End Client.

(** ** A client that has been used *)

Lemma avoids_mono n1 n2 v : (∀ k, k ∈ n1 → k ∈ n2) → avoids n2 v → avoids n1 v.
Proof.
  intros Hsub. induction v as [|kids IH] using node_ind'; [done|].
  rewrite !avoids_Sub, !Forall_forall. rewrite Forall_forall in IH.
  intros H e He. destruct (H e He) as [H1 H2]. split; [|by apply IH].
  intros Hin. by apply H1, Hsub.
Qed.

(** Frame: what is compiled below [a] is compiled still when the names
    that are left open, held by no entry, have been written anywhere. *)
Lemma compiled_used conf written v : ∀ (P : loc → string → Prop) h h' a,
  compiled conf written h a v → extends P h h' →
  (∀ l k, P l k → k ∈ written) → avoids written v →
  compiled conf written h' a v.
Proof.
  induction v as [|kids IH] using node_ind'; intros P h h' a Hc Hext HP Hav; [done|].
  rewrite compiled_Sub in *. rewrite avoids_Sub in Hav. rewrite Forall_forall in *.
  intros e He. destruct (Hc e He) as (fn & Hlt & Hget & Hkind & Hprops & Hce).
  destruct (Hav e He) as [Hname Hav'].
  assert (Hfn : is_Some (h !! fn)) by (apply kind_of_alloc; rewrite Hkind; eauto).
  exists fn. split; [done|]. split; [|split; [|split]].
  - rewrite (extends_get P h h'); [done | done | | ].
    + apply get_truthy_alloc with e.1. by rewrite Hget.
    + intros Hp. by apply Hname, (HP a).
  - by rewrite (extends_kind P h h').
  - intros k Hk Hw. rewrite (extends_get P h h'); [by apply Hprops | done | done |].
    intros Hp. by apply Hw, (HP fn).
  - by apply (IH e He P h h').
Qed.

Lemma kept_own k : k ∈ own_names → k ∈ kept_names.
Proof. unfold kept_names. rewrite elem_of_app. auto. Qed.

Lemma kept_written k : k ∈ call_writes → k ∈ kept_names.
Proof. unfold kept_names. rewrite elem_of_app. auto. Qed.

Lemma own_not_written k : k ∈ own_names → k ∉ call_writes.
Proof.
  unfold own_names, call_writes. rewrite !elem_of_cons, !elem_of_nil.
  intros [->|[->|[]]] [?|[]]; done.
Qed.

(** On a used heap the client stands where it stood when it was built,
    up to the name [out]. *)
Lemma used_standing cfg h0 api h :
  quickrest cfg = Some (h0, api) →
  avoids kept_names (Sub (resource_tree cfg)) →
  used h0 h →
  standing cfg call_writes h api (Sub (resource_tree cfg)) (cleanroot (root cfg)).
Proof.
  intros Hb Hav Hused.
  assert (Hown : avoids own_names (Sub (resource_tree cfg))).
  { eapply avoids_mono; [apply kept_own | done]. }
  destruct (built_standing cfg h0 api Hb Hown) as (Hc & Hbase & Hout & Hs & Hwf & _).
  assert (Hno : ∀ k, k ∈ own_names → ¬ (λ (_ : loc) k', k' = "out") api k).
  { intros k Hk ->. by apply (own_not_written "out"), list_elem_of_singleton. }
  split; [|split; [|split; [|split; [|split]]]]; [| | | |done|done].
  - apply (compiled_used cfg call_writes _ (λ _ k, k = "out") h0 h); [|done| |].
    + apply (compiled_mono cfg [] call_writes); [|done]. intros k Hk. by apply elem_of_nil in Hk.
    + intros _ k ->. by apply list_elem_of_singleton.
    + eapply avoids_mono; [apply kept_written | done].
  - eapply base_route_extends; [exact Hbase | exact Hused | by intros l' [=]].
  - rewrite (extends_get _ h0 h api "_out" Hused); [done | done | by intros [=]].
  - by eapply extends_alloc_Some.
Qed.
(** ** Properties of the path normalizer *)

Lemma map_endpoints_simple cvs eps : ∀ st,
  simpleResources (map_endpoints cvs st eps).1
  = simpleResources st ++ flat_map (replicas cvs) eps.
Proof.
  induction eps as [|e eps IH]; intros st; simpl; [by rewrite app_nil_r|].
  destruct (buildResource cvs st e) as [st1 x] eqn:E1.
  specialize (IH st1). destruct (map_endpoints cvs st1 eps) as [st2 xs]. simpl in *.
  rewrite IH. destruct e as [path|rc]; simpl in E1; injection E1 as <- <-; simpl.
  - unfold clean. by rewrite <- !app_assoc.
  - done.
Qed.

Lemma buildResources_simple eps cvs :
  (buildResources eps cvs).1.1 = flat_map (replicas cvs) eps.
Proof.
  unfold buildResources. pose proof (map_endpoints_simple cvs eps (BrState [] ∅)) as H.
  destruct (map_endpoints cvs (BrState [] ∅) eps) as [st xs]. simpl in *. exact H.
Qed.

Lemma elem_sort_insert x y l : x ∈ sort_insert y l ↔ x = y ∨ x ∈ l.
Proof.
  induction l as [|z l IH]; simpl; [by rewrite list_elem_of_singleton, elem_of_nil; tauto|].
  destruct (length (segs z) <=? length (segs y)); rewrite !elem_of_cons, ?IH; tauto.
Qed.

Lemma elem_sort_longest_first x l : x ∈ sort_longest_first l ↔ x ∈ l.
Proof.
  unfold sort_longest_first. induction l as [|y l IH]; simpl; [done|].
  by rewrite elem_sort_insert, elem_of_cons, IH.
Qed.

Lemma sort_insert_sorted x l :
  StronglySorted (λ a b, length (segs b) ≤ length (segs a)) l →
  StronglySorted (λ a b, length (segs b) ≤ length (segs a)) (sort_insert x l).
Proof.
  induction 1 as [|y ys Hs IH Hall]; simpl; [by repeat constructor|].
  destruct (length (segs y) <=? length (segs x)) eqn:E.
  - apply Nat.leb_le in E. constructor; [by constructor|]. constructor; [done|].
    eapply Forall_impl; [exact Hall|]. simpl. intros z Hz. lia.
  - apply Nat.leb_gt in E. constructor; [done|]. apply Forall_forall. intros z Hz.
    apply elem_sort_insert in Hz as [->|Hz]; [lia|].
    rewrite Forall_forall in Hall. by apply Hall.
Qed.

(** The paths handed to [normalize] are ordered longest first. *)
Lemma all_paths_sorted eps cvs :
  StronglySorted (λ a b, length (segs b) ≤ length (segs a)) (all_paths eps cvs).
Proof.
  unfold all_paths. destruct (buildResources eps cvs) as [[simple resources] vs].
  unfold sort_longest_first. induction (filter _ resources ++ simple) as [|x l IH]; simpl.
  - constructor.
  - by apply sort_insert_sorted.
Qed.

(** Everything in [simpleResources] reaches [normalize]. *)
Lemma all_paths_simple eps cvs x :
  x ∈ flat_map (replicas cvs) eps → x ∈ all_paths eps cvs.
Proof.
  intros Hx. unfold all_paths. pose proof (buildResources_simple eps cvs) as H.
  destruct (buildResources eps cvs) as [[simple resources] vs]. simpl in H. subst simple.
  rewrite elem_sort_longest_first, elem_of_app. by right.
Qed.

Lemma replicas_self eps cvs path :
  Simple path ∈ eps → plain (clean path) ∈ flat_map (replicas cvs) eps.
Proof.
  intros Hin. apply list_elem_of_In, in_flat_map. exists (Simple path).
  split; [by apply list_elem_of_In|]. simpl. by left.
Qed.

Lemma replicas_version eps cvs path cv :
  Simple path ∈ eps → cv ∈ cvs → plain (cv :: clean path) ∈ flat_map (replicas cvs) eps.
Proof.
  intros Hin Hcv. apply list_elem_of_In, in_flat_map. exists (Simple path).
  split; [by apply list_elem_of_In|]. simpl. right.
  apply in_map_iff. exists cv. split; [done | by apply list_elem_of_In].
Qed.

(** Under [ordinary] no path handed to [normalize] has a segment that
    an empty object answers for. *)
Lemma ordinary_paths cfg xs :
  ordinary cfg = true → xs ∈ all_paths (endpoints cfg) (commonVersions cfg) →
  ordinary_names (segs xs) = true.
Proof.
  unfold ordinary. rewrite andb_true_iff, forallb_forall. intros [H _] Hxs.
  by apply H, list_elem_of_In.
Qed.

Lemma ordinary_all cfg :
  ordinary cfg = true →
  Forall (λ xs, ordinary_names (segs xs) = true) (all_paths (endpoints cfg) (commonVersions cfg)).
Proof. intros H. apply Forall_forall. intros xs. by apply ordinary_paths. Qed.

(** The segments of a string declaration are reached in the tree. *)
Lemma tree_reaches_simple cfg path :
  ordinary cfg = true →
  Simple path ∈ endpoints cfg → clean path ≠ [] →
  is_Some (descend (Sub (resource_tree cfg)) (clean path)).
Proof.
  intros Hord Hin Hne.
  assert (Hp : plain (clean path) ∈ all_paths (endpoints cfg) (commonVersions cfg))
    by by apply all_paths_simple, replicas_self.
  apply (normalize_reaches _ (plain (clean path))); [done | done |].
  by apply (ordinary_paths cfg _ Hord Hp).
Qed.


(** ** Navigation without identifiers *)

Section PlainNavigation.

Variable conf : config.
Variable written : list string.

Implicit Types (h : heap) (l cur : loc) (v w : node).

Lemma navigate_app p1 p2 : ∀ h cur,
  navigate conf h cur (p1 ++ p2) =
    match navigate conf h cur p1 with
    | Some (h', l) => navigate conf h' l p2
    | None => None
    end.
Proof.
  induction p1 as [|[s [id|]] p1 IH]; intros h cur; simpl; [done| |].
  - destruct (call_resource conf h cur s id) as [[h' [|l| | | |]]|]; first [done | apply IH].
  - destruct (get h cur s); first [done | apply IH].
Qed.

(** Every path of the tree can be walked on the compiled objects. *)
Lemma navigate_plain p : ∀ h cur v w,
  wf_node v → compiled conf written h cur v → descend v p = Some w →
  ∃ l, navigate conf h cur (plain_path p) = Some (h, l)
       ∧ compiled conf written h l w ∧ wf_node w.
Proof.
  induction p as [|s p IH]; intros h cur v w Hwf Hc Hd; simpl in *.
  - injection Hd as <-. eauto.
  - destruct v as [|kids]; [done|]. destruct (lookup_key s kids) as [v'|] eqn:E; [|done].
    rewrite compiled_Sub, Forall_forall in Hc.
    destruct (Hc (s, v') (lookup_key_elem _ _ _ E)) as (fn & _ & Hget & _ & _ & Hc').
    simpl in *. rewrite Hget. apply (IH h fn v' w); [by eapply wf_lookup | done | done].
Qed.

(** The object a path ends at is the resource function of its last
    segment, with the properties it was created with wherever no
    child took the name. *)
Lemma navigate_plain_last p s h cur v w :
  wf_node v → compiled conf written h cur v → descend v (p ++ [s]) = Some w →
  ∃ a l, navigate conf h cur (plain_path (p ++ [s])) = Some (h, l)
    ∧ kind_of h l = Some (KNode a s w)
    ∧ (∀ k, k ∉ keys (kids_of w) → k ∉ written →
         get h l k = default VUndef (fresh_props conf (VNodeRoute a s) s !! k))
    ∧ compiled conf written h l w ∧ wf_node w.
Proof.
  intros Hwf Hc Hd. rewrite descend_app in Hd.
  destruct (descend v p) as [w0|] eqn:E0; [|done].
  destruct (navigate_plain p h cur v w0 Hwf Hc E0) as (l0 & Hnav & Hc0 & Hwf0).
  simpl in Hd. destruct w0 as [|kids]; [done|].
  destruct (lookup_key s kids) as [w'|] eqn:E; [|done]. injection Hd as ->.
  rewrite compiled_Sub, Forall_forall in Hc0.
  destruct (Hc0 (s, w) (lookup_key_elem _ _ _ E)) as (fn & _ & Hget & Hk & Hp & Hc').
  simpl in *. exists l0, fn. unfold plain_path. rewrite fmap_app, navigate_app.
  fold (plain_path p). rewrite Hnav. simpl. rewrite Hget.
  split; [done|]. split; [done|]. split; [done|]. split; [done|]. by eapply wf_lookup.
Qed.

Lemma compiled_child h cur kids c v' :
  compiled conf written h cur (Sub kids) → lookup_key c kids = Some v' →
  ∃ child, get h cur c = VRef child ∧ kind_of h child = Some (KNode cur c v').
Proof.
  rewrite compiled_Sub, Forall_forall. intros Hc E.
  destruct (Hc (c, v') (lookup_key_elem _ _ _ E)) as (fn & _ & Hget & Hk & _). eauto.
Qed.

Lemma fresh_props_method route s k m :
  proto conf s !! k = Some m → default VUndef (fresh_props conf route s !! k) = m.
Proof. intros E. unfold fresh_props. by rewrite (lookup_union_Some_l _ _ _ _ E). Qed.

End PlainNavigation.
(** ** Claims about the merged tree *)


Lemma names_free_kept_no_alt cfg : altMethodNames cfg = no_alt → names_free cfg kept_names.
Proof.
  intros E k Hk. unfold method_names. rewrite E. simpl.
  unfold kept_names, own_names, call_writes in Hk. simpl in Hk.
  rewrite !elem_of_cons, elem_of_nil in Hk.
  rewrite !not_elem_of_cons. destruct Hk as [->|[->|[->|[]]]];
    repeat split; (done || apply not_elem_of_nil).
Qed.

(** C2: string declarations that share a path prefix are merged into one
    node for that prefix, when a client is built and no declared segment
    is the name of a member of [Object.prototype].  No level of the
    merged tree holds a segment name twice; the shared prefix [q] leads
    to one internal node under which both continuations are found, and
    the level above it has one entry under the last segment of [q], that
    node; on the compiled client the prefix leads to one resource
    function from which both continuations can be walked. *)
Theorem C2_shared_prefix_one_node cfg h api e1 e2 q p1 p2 :
  quickrest cfg = Some (h, api) →
  ordinary cfg = true →
  Simple e1 ∈ endpoints cfg → Simple e2 ∈ endpoints cfg →
  clean e1 = q ++ p1 → clean e2 = q ++ p2 → p1 ≠ [] → p2 ≠ [] →
  wf_node (Sub (resource_tree cfg))
  ∧ ∃ kids l,
      descend (Sub (resource_tree cfg)) q = Some (Sub kids)
      ∧ is_Some (descend (Sub kids) p1) ∧ is_Some (descend (Sub kids) p2)
      ∧ (∀ q0 s, q = q0 ++ [s] →
           ∃ level, descend (Sub (resource_tree cfg)) q0 = Some (Sub level)
                    ∧ filter (λ e, e.1 = s) level = [(s, Sub kids)])
      ∧ navigate cfg h api (plain_path q) = Some (h, l)
      ∧ is_Some (navigate cfg h l (plain_path p1))
      ∧ is_Some (navigate cfg h l (plain_path p2)).
Proof.
  intros Hb Hord H1 H2 E1 E2 Hp1 Hp2. split; [apply wf_normalize|].
  destruct (tree_reaches_simple cfg e1 Hord H1) as [w1 R1].
  { rewrite E1. intros [_ ->]%app_eq_nil. done. }
  destruct (tree_reaches_simple cfg e2 Hord H2) as [w2 R2].
  { rewrite E2. intros [_ ->]%app_eq_nil. done. }
  rewrite E1 in R1. rewrite E2 in R2.
  destruct (descend_internal _ _ _ _ R1 Hp1) as [kids Hq].
  rewrite descend_app, Hq in R1. rewrite descend_app, Hq in R2.
  destruct (navigate_plain cfg [] q h api _ _ (wf_normalize _) (built_compiled cfg h api Hb) Hq)
    as (l & Hnav & Hc & Hwf).
  destruct (navigate_plain cfg [] p1 h l _ _ Hwf Hc R1) as (l1 & Hn1 & _).
  destruct (navigate_plain cfg [] p2 h l _ _ Hwf Hc R2) as (l2 & Hn2 & _).
  exists kids, l. rewrite R1, R2, Hn1, Hn2.
  split; [done|]. split; [eauto|]. split; [eauto|]. split; [|eauto].
  intros q0 s ->. rewrite descend_app in Hq.
  destruct (descend (Sub (resource_tree cfg)) q0) as [[|level]|] eqn:E0; try done.
  exists level. split; [done|]. simpl in Hq.
  destruct (lookup_key s level) as [v|] eqn:Es; [|done]. injection Hq as ->.
  apply filter_key_unique; [|done].
  pose proof (wf_descend q0 _ _ (wf_normalize _) E0) as Hl. by inversion Hl.
Qed.

Lemma C2_witness :
  ∃ kids l h,
    descend (Sub (resource_tree (example_cfg [Simple "users/posts"; Simple "users/comments"] [])))
            ["users"] = Some (Sub kids)
    ∧ filter (λ e, e.1 = "users")
             (resource_tree (example_cfg [Simple "users/posts"; Simple "users/comments"] []))
      = [("users", Sub kids)]
    ∧ navigate (example_cfg [Simple "users/posts"; Simple "users/comments"] []) h 0
               (plain_path ["users"]) = Some (h, l)
    ∧ is_Some (descend (Sub kids) ["posts"]) ∧ is_Some (descend (Sub kids) ["comments"]).
Proof.
  set (cfg := example_cfg [Simple "users/posts"; Simple "users/comments"] []).
  set (h := loop cfg (Sub (resource_tree cfg)) 0 [Object KAccum ∅]).
  destruct (C2_shared_prefix_one_node cfg h 0 "users/posts" "users/comments"
              ["users"] ["posts"] ["comments"])
    as (_ & kids & l & Hq & H1 & H2 & Hu & Hn & _); try done.
  - unfold cfg, example_cfg. simpl. rewrite elem_of_cons. auto.
  - unfold cfg, example_cfg. simpl. rewrite !elem_of_cons. auto.
  - exists kids, l, h. destruct (Hu [] "users" eq_refl) as (level & [= <-] & Hf). auto.
Defined.

(** C2, as it is written, for every segment name: [place] reads
    [map[head]] through the prototype of the object, so a segment that
    [Object.prototype] answers for is never filed.  With [users/toString]
    and [users/posts] declared the node of [users] holds [posts] alone. *)
Lemma C2_counterexample :
  ¬ shared_prefix_claim (example_cfg [Simple "users/toString"; Simple "users/posts"] [])
      "users/toString" "users/posts" ["users"] ["toString"] ["posts"].
Proof.
  intros H. destruct H as (kids & Hq & [w Hw] & _); try done.
  - unfold example_cfg. simpl. rewrite elem_of_cons. auto.
  - unfold example_cfg. simpl. rewrite !elem_of_cons. auto.
  - vm_compute in Hq. injection Hq as <-. vm_compute in Hw. discriminate Hw.
Qed.

(** C3: a resource declared both on its own and as a proper prefix of a
    longer path ends up as an internal node, when a client is built and
    no declared segment or method is the name of a member of
    [Object.prototype].  [place] promotes a leaf in place when a longer
    path descends through it, and the paths are merged longest first; in
    the merged tree the node of [p ++ [s]] is internal with the
    continuation below it; on the compiled client that node is the
    resource function of [s], each child of the tree node is one of its
    properties, and every method of [proto] is found under its name
    unless a child took that name. *)
Theorem C3_prefix_resource_is_internal cfg h api e1 e2 p s q :
  quickrest cfg = Some (h, api) →
  ordinary cfg = true →
  Simple e1 ∈ endpoints cfg → Simple e2 ∈ endpoints cfg →
  clean e1 = p ++ [s] → clean e2 = (p ++ [s]) ++ q → q ≠ [] →
  (∀ t s0 q0, lookup_key s0 t = Some One → q0 ≠ [] →
     lookup_key s0 (place t (s0 :: q0)) = Some (Sub (place [] q0))
     ∧ keys (place t (s0 :: q0)) = keys t)
  ∧ StronglySorted (λ a b, length (segs b) ≤ length (segs a))
      (all_paths (endpoints cfg) (commonVersions cfg))
  ∧ ∃ kids fn a,
      descend (Sub (resource_tree cfg)) (p ++ [s]) = Some (Sub kids)
      ∧ is_Some (descend (Sub kids) q)
      ∧ navigate cfg h api (plain_path (p ++ [s])) = Some (h, fn)
      ∧ kind_of h fn = Some (KNode a s (Sub kids))
      ∧ (∀ c v', lookup_key c kids = Some v' →
           ∃ child, get h fn c = VRef child ∧ kind_of h child = Some (KNode fn c v'))
      ∧ (∀ k m, proto cfg s !! k = Some m → k ∉ keys kids → get h fn k = m).
Proof.
  intros Hb Hord H1 H2 E1 E2 Hq. split.
  { intros t s0 q0 E0 Hq0. destruct (place_promotes t s0 q0 E0 Hq0) as (? & ? & _). done. }
  split; [apply all_paths_sorted|].
  destruct (tree_reaches_simple cfg e2 Hord H2) as [w2 R2].
  { rewrite E2. intros [_ ->]%app_eq_nil. done. }
  rewrite E2 in R2. destruct (descend_internal _ _ _ _ R2 Hq) as [kids Hd].
  rewrite descend_app, Hd in R2.
  destruct (navigate_plain_last cfg [] p s h api _ _ (wf_normalize _)
              (built_compiled cfg h api Hb) Hd) as (a & fn & Hnav & Hk & Hp & Hc & _).
  exists kids, fn, a. split; [done|]. split; [by rewrite R2|]. split; [done|].
  split; [done|]. split.
  - intros c v' E. by apply (compiled_child cfg [] h fn kids).
  - intros k m Em Hk'. rewrite Hp; [by apply fresh_props_method | done | apply not_elem_of_nil].
Qed.

Lemma C3_witness :
  ∃ kids fn a h,
    descend (Sub (resource_tree (example_cfg [Simple "users"; Simple "users/posts"] [])))
            ["users"] = Some (Sub kids)
    ∧ navigate (example_cfg [Simple "users"; Simple "users/posts"] []) h 0
               (plain_path ["users"]) = Some (h, fn)
    ∧ kind_of h fn = Some (KNode a "users" (Sub kids))
    ∧ is_Some (descend (Sub kids) ["posts"]).
Proof.
  set (cfg := example_cfg [Simple "users"; Simple "users/posts"] []).
  set (h := loop cfg (Sub (resource_tree cfg)) 0 [Object KAccum ∅]).
  destruct (C3_prefix_resource_is_internal cfg h 0 "users" "users/posts" [] "users" ["posts"])
    as (_ & _ & kids & fn & a & Hd & Hq & Hn & Hk & _); try done.
  - unfold cfg, example_cfg. simpl. rewrite elem_of_cons. auto.
  - unfold cfg, example_cfg. simpl. rewrite !elem_of_cons. auto.
  - exists kids, fn, a, h. auto.
Defined.

(** C3, as it is written: a child named like a method takes the place of
    that method, and a continuation that [Object.prototype] answers for
    is never filed.  With [users] and [users/create] declared,
    [api.users.create] is the resource function of the child; with
    [users] and [users/toString] declared the node of [users] is internal
    and empty. *)
Lemma C3_counterexample :
  ¬ exposes_verbs_claim (example_cfg [Simple "users"; Simple "users/create"] []) [] "users"
  ∧ ¬ prefix_resource_claim (example_cfg [Simple "users"; Simple "users/toString"] [])
        "users" "users/toString" [] "users" ["toString"].
Proof.
  split.
  - intros H.
    set (cfg := example_cfg [Simple "users"; Simple "users/create"] []) in *.
    specialize (H (loop cfg (Sub (resource_tree cfg)) 0 [Object KAccum ∅]) 0 1
                  eq_refl eq_refl "create" (VVerb Create "users") eq_refl).
    vm_compute in H. discriminate H.
  - intros H. destruct H as (kids & Hq & [w Hw]); try done.
    + unfold example_cfg. simpl. rewrite elem_of_cons. auto.
    + unfold example_cfg. simpl. rewrite !elem_of_cons. auto.
    + vm_compute in Hq. injection Hq as <-. vm_compute in Hw. discriminate Hw.
Qed.

Lemma clean_separators path :
  Forall (λ c, Str.is_slash c = true) (Str.chars path) → clean path = [].
Proof. intros H. by apply StrFacts.compact_empties, StrFacts.split_slashes. Qed.

(** C6: an empty or all-separator declaration is not dropped.  The filter
    of [module.exports] is applied to [resources] only; the empty array
    still reaches [normalize] through [simpleResources], and [place]
    files it under the key "undefined".  So every client built from a
    list with such a declaration has a top-level resource of that name;
    with [users] declared, the top-level names go from [users] alone to
    [users] and [undefined]. *)
Theorem C6_empty_declaration_adds_a_node :
  (∀ cfg h api path,
     quickrest cfg = Some (h, api) →
     Simple path ∈ endpoints cfg →
     Forall (λ c, Str.is_slash c = true) (Str.chars path) →
     ∃ v fn, lookup_key "undefined" (resource_tree cfg) = Some v
             ∧ get h api "undefined" = VRef fn
             ∧ kind_of h fn = Some (KNode api "undefined" v))
  ∧ keys (resource_tree (example_cfg [Simple "users"] [])) = ["users"]
  ∧ keys (resource_tree (example_cfg [Simple "users"; Simple EmptyString] []))
    = ["users"; "undefined"]
  ∧ keys (resource_tree (example_cfg [Simple "users"; Simple "/"] []))
    = ["users"; "undefined"]
  ∧ ∃ h api fn,
      quickrest (example_cfg [Simple "users"; Simple EmptyString] []) = Some (h, api)
      ∧ get h api "undefined" = VRef fn
      ∧ call_route (example_cfg [Simple "users"; Simple EmptyString] []) 1 h fn
        = Some (h, "https://api.example.com/undefined").
Proof.
  split.
  { intros cfg h api path Hb Hin Hsl.
    destruct (normalize_empty (all_paths (endpoints cfg) (commonVersions cfg)) (plain []))
      as [v E]; [|done|].
    - apply all_paths_simple. rewrite <- (clean_separators path Hsl). by apply replicas_self.
    - fold (resource_tree cfg) in E.
      destruct (compiled_child cfg [] h api _ "undefined" v (built_compiled cfg h api Hb) E)
        as (fn & Hget & Hk).
      by exists v, fn. }
  split; [reflexivity|]. split; [reflexivity|]. split; [reflexivity|].
  eexists _, _, _. split; [vm_compute; reflexivity|].
  split; vm_compute; reflexivity.
Qed.

Lemma C6_witness :
  ∃ v fn,
    lookup_key "undefined" (resource_tree (example_cfg [Simple "users"; Simple "//"] [])) = Some v
    ∧ get (loop (example_cfg [Simple "users"; Simple "//"] [])
                (Sub (resource_tree (example_cfg [Simple "users"; Simple "//"] [])))
                0 [Object KAccum ∅]) 0 "undefined" = VRef fn.
Proof.
  destruct C6_empty_declaration_adds_a_node as [H _].
  destruct (H (example_cfg [Simple "users"; Simple "//"] []) _ 0 "//" eq_refl)
    as (v & fn & Hv & Hfn & _).
  - unfold example_cfg. simpl. rewrite !elem_of_cons. auto.
  - repeat constructor.
  - exists v, fn. auto.
Defined.

(** ** Claims about versions and the root *)



Lemma cleanroot_strips root :
  Str.endsWith_slash root = true → Str.endsWith_slash (cleanroot root) = false.
Proof.
  intros E. unfold cleanroot. rewrite E. simpl. unfold Str.endsWith_slash.
  rewrite StrFacts.chars_join, rev_involutive.
  destruct (Str.dropWhile _ _) as [|c l] eqn:Ed; [done|].
  by apply StrFacts.dropWhile_head in Ed.
Qed.

(** C9: the root is tested for a trailing separator before it is trimmed
    of white space.  A root that does not end in a separator is returned
    trimmed and no more, so a root that ends in a separator followed by
    white space keeps the separator, and the routes of the client carry
    it.  A root that ends in a separator is cleaned of all of them; the
    three roots of the claim are cleaned to the same prefix. *)
Theorem C9_separator_before_white_space_survives :
  (∀ root, Str.endsWith_slash root = false → cleanroot root = Str.trim root)
  ∧ cleanroot "https://x/ " = "https://x/"
  ∧ Str.endsWith_slash (cleanroot "https://x/ ") = true
  ∧ (∃ h api fn,
       quickrest (Config "https://x/ " [Simple "users"] [] None no_alt None true) = Some (h, api)
       ∧ get h api "users" = VRef fn
       ∧ call_route (Config "https://x/ " [Simple "users"] [] None no_alt None true) 1 h fn
         = Some (h, "https://x//users"))
  ∧ (∀ root, Str.endsWith_slash root = true → Str.endsWith_slash (cleanroot root) = false)
  ∧ cleanroot "https://x" = "https://x"
  ∧ cleanroot "https://x/" = "https://x"
  ∧ cleanroot "https://x//" = "https://x".
Proof.
  split; [intros root E; unfold cleanroot; by rewrite E|].
  split; [reflexivity|]. split; [reflexivity|].
  split; [|split; [apply cleanroot_strips | repeat split; reflexivity]].
  eexists _, _, _. split; [vm_compute; reflexivity|]. split; vm_compute; reflexivity.
Qed.

Lemma C9_witness :
  cleanroot "https://x/ " = Str.trim "https://x/ "
  ∧ Str.endsWith_slash (cleanroot "https://x//") = false.
Proof.
  destruct C9_separator_before_white_space_survives as (H1 & _ & _ & _ & H2 & _).
  split; [apply H1 | apply H2]; reflexivity.
Defined.

(** ** Claims about the verbs *)

Lemma run_verb_factory cfg op resource route arg cb :
  run_verb cfg op resource route arg cb =
    verbFactory cfg route (verb_method op resource) (verb_props op arg)
                (verb_query op arg) (opts_headers cfg) (default Noop cb).
Proof. by destruct op. Qed.

Lemma assign_lookup_Some (a b : jsmap) k x : b !! k = Some x → assign a b !! k = Some x.
Proof. intros E. unfold assign. by apply lookup_union_Some_l. Qed.

Lemma assign_lookup_None (a b : jsmap) k : b !! k = None → assign a b !! k = a !! k.
Proof. intros E. unfold assign. by apply lookup_union_r. Qed.




Lemma spy_method route method properties query hdrs cb call u m p q hd f :
  spy route method properties query hdrs cb call = Request u m p q hd f → m = method.
Proof.
  unfold spy, processed. destruct call.1; [by destruct cb|]. by intros [= _ <- _ _ _ _].
Qed.

(** Every request a verb makes carries the method of its table entry. *)
Lemma run_verb_method cfg op resource route arg cb u m p q hd f :
  Request u m p q hd f ∈ (run_verb cfg op resource route arg cb).1 →
  m = verb_method op resource.
Proof.
  rewrite run_verb_factory. unfold verbFactory.
  set (P := verb_props op arg). set (Q := verb_query op arg). set (H := opts_headers cfg).
  set (M := verb_method op resource). set (c := default Noop cb).
  assert (Hspy : ∀ calls, Request u m p q hd f ∈ map (spy route M P Q H c) calls → m = M).
  { intros calls Hin. apply list_elem_of_fmap in Hin as (call & E & _).
    symmetry in E. by apply spy_method in E. }
  assert (Hone : ∀ md fin, Request u m p q hd f ∈ [processed route M P Q H md fin] → m = M).
  { intros md fin Hin. apply list_elem_of_singleton in Hin. unfold processed in Hin.
    by injection Hin as _ -> _ _ _ _. }
  destruct (beforeEach cfg) as [hk|].
  - destruct (h_return (hk P Q H)); simpl; [apply Hspy | | apply Hspy].
    rewrite elem_of_app. intros [Hin|Hin]; [by apply (Hspy _ Hin) | by apply (Hone _ _ Hin)].
  - destruct c; simpl; apply Hone.
Qed.

(** C5: [create] always posts.  [proto] looks for [createMethod] under
    [resource.props], and [resource] is the name of the segment; the
    record of a configured declaration never reaches [proto].  Under
    every configuration each request of [create] carries [post]; with
    [createMethod: 'put'] declared for [comments], [api.comments.create]
    calls the request function with [post]. *)
Theorem C5_create_ignores_createMethod :
  (∀ resource, create_method resource = "post")
  ∧ (∀ cfg resource route arg cb u m p q hd f,
       Request u m p q hd f ∈ (run_verb cfg Create resource route arg cb).1 → m = "post")
  ∧ ∃ h api fn,
      quickrest put_cfg = Some (h, api)
      ∧ get h api "comments" = VRef fn
      ∧ call_verb put_cfg 1 h fn "create" {["post_id" := "3"]} None
        = Some (h, ([Request "https://api.example.com/comments" "post"
                       {["post_id" := "3"]} ∅ DEFAULT_HEADERS (Some Noop)],
                    FromRequest)).
Proof.
  split; [reflexivity|]. split.
  { intros cfg resource route arg cb u m p q hd f Hin. by apply run_verb_method in Hin. }
  eexists _, _, _. split; [vm_compute; reflexivity|]. split; vm_compute; reflexivity.
Qed.

Lemma C5_witness :
  Request "https://api.example.com/comments" "post" {["post_id" := "3"]} ∅
          DEFAULT_HEADERS (Some Noop)
  ∈ (run_verb put_cfg Create "comments" "https://api.example.com/comments"
              {["post_id" := "3"]} None).1
  ∧ create_method "comments" = "post".
Proof.
  assert (Hin : Request "https://api.example.com/comments" (create_method "comments")
                  {["post_id" := "3"]} ∅ DEFAULT_HEADERS (Some Noop)
                ∈ (run_verb put_cfg Create "comments" "https://api.example.com/comments"
                            {["post_id" := "3"]} None).1)
    by (apply list_elem_of_singleton; reflexivity).
  destruct C5_create_ignores_createMethod as (_ & H & _).
  split; [exact Hin | exact (H _ _ _ _ _ _ _ _ _ _ _ Hin)].
Defined.



(** ** Claims about routes and instances *)

(** C1: the route of a fluent expression, on the client as it was built
    and on the client after any use.  When no segment of the tree and no
    method of [proto] is called [_route], [_out] or [out], and none has
    the name of a member of [Object.prototype], then on every later heap
    of the client [api.s(id)] is an object whose accessor returns the
    clean root followed by [/s/id]; and every path over the tree, with
    or without identifiers, ends at an object whose accessor returns the
    clean root followed by [/segment] or [/segment/identifier] for each
    step in order.  The heap each expression leaves is again a later
    heap of the client, so the same holds after it. *)
Theorem C1_route_of_a_fluent_path cfg h0 api h :
  quickrest cfg = Some (h0, api) →
  ordinary cfg = true →
  names_free cfg kept_names →
  avoids kept_names (Sub (resource_tree cfg)) →
  used h0 h →
  (∀ s id,
     is_Some (lookup_key s (resource_tree cfg)) →
     ∃ h' out n, call_resource cfg h api s id = Some (h', VRef out)
       ∧ used h0 h'
       ∧ ∀ fuel, n ≤ fuel →
           call_route cfg fuel h' out
           = Some (h', cleanroot (root cfg) +:+ "/" +:+ s +:+ "/" +:+ id))
  ∧ (∀ path w,
       path ≠ [] →
       descend (Sub (resource_tree cfg)) (seg <$> path) = Some w →
       ∃ h' l n, navigate cfg h api path = Some (h', l)
         ∧ used h0 h'
         ∧ ∀ fuel, n ≤ fuel →
             call_route cfg fuel h' l
             = Some (h', cleanroot (root cfg) +:+ path_text path)).
Proof.
  intros Hb _ Hfree Hav Hused.
  pose proof (used_standing cfg h0 api h Hb Hav Hused) as Hst.
  assert (Hfree' : names_free cfg own_names) by (intros k Hk; by apply Hfree, kept_own).
  split.
  - intros s id [v E].
    destruct (step_call cfg call_writes Hfree' h api _ _ s v id Hst E)
      as (h' & Hcall & Hext & _ & Hr & _).
    destruct (call_route_complete cfg _ _ _ Hr) as [n Hn].
    exists h', (length h), n. split; [done|]. split; [|done].
    eapply extends_weaken; [apply (extends_trans _ _ _ _ _ Hused Hext)|]. naive_solver.
  - intros path w Hne Hd.
    destruct (navigate_sound cfg call_writes Hfree' own_not_written path h api _ _ w Hd Hst)
      as (h' & l & Hnav & Hext & _ & Hr).
    destruct (call_route_complete cfg _ _ _ (Hr (or_introl Hne))) as [n Hn].
    exists h', l, n. split; [done|]. split; [|done].
    eapply extends_weaken; [apply (extends_trans _ _ _ _ _ Hused Hext)|]. naive_solver.
Qed.

Lemma C1_witness :
  ∃ h1 l1 h2 l2 n,
    navigate (example_cfg [Simple "users"; Simple "users/posts"; Simple "users/posts/comments"] [])
      (loop (example_cfg [Simple "users"; Simple "users/posts"; Simple "users/posts/comments"] [])
            (Sub (resource_tree (example_cfg [Simple "users"; Simple "users/posts";
                                             Simple "users/posts/comments"] [])))
            0 [Object KAccum ∅])
      0 [Step "users" (Some "1")]
    = Some (h1, l1)
    ∧ navigate (example_cfg [Simple "users"; Simple "users/posts";
                             Simple "users/posts/comments"] [])
        h1 0 [Step "users" (Some "9000"); Step "posts" (Some "3"); Step "comments" None]
      = Some (h2, l2)
    ∧ ∀ fuel, n ≤ fuel →
        call_route (example_cfg [Simple "users"; Simple "users/posts";
                                 Simple "users/posts/comments"] []) fuel h2 l2
        = Some (h2, "https://api.example.com/users/9000/posts/3/comments").
Proof.
  set (cfg := example_cfg [Simple "users"; Simple "users/posts"; Simple "users/posts/comments"] []).
  set (h := loop cfg (Sub (resource_tree cfg)) 0 [Object KAccum ∅]).
  assert (Hav : avoids kept_names (Sub (resource_tree cfg))).
  { change (resource_tree cfg) with [("users", Sub [("posts", Sub [("comments", One)])])].
    avoids_by_computation. }
  assert (Hfree : names_free cfg kept_names) by (by apply names_free_kept_no_alt).
  destruct (C1_route_of_a_fluent_path cfg h 0 h eq_refl eq_refl Hfree Hav (extends_refl _ _))
    as [_ H1].
  destruct (H1 [Step "users" (Some "1")] (Sub [("posts", Sub [("comments", One)])]))
    as (h1 & l1 & _ & Hn1 & Hu1 & _); [done | reflexivity |].
  destruct (C1_route_of_a_fluent_path cfg h 0 h1 eq_refl eq_refl Hfree Hav Hu1) as [_ H2].
  destruct (H2 [Step "users" (Some "9000"); Step "posts" (Some "3"); Step "comments" None] One)
    as (h2 & l2 & n & Hn2 & _ & Hr); [done | reflexivity |].
  exists h1, l1, h2, l2, n. auto.
Defined.

(** C1, as it is written, for every segment name and every client.  With
    a top-level resource called [_route], the accessor of [api.users(5)]
    finds [accum._route] set, calls that resource function in place of
    an accessor and interpolates the object it returns.  With a
    top-level resource called [out], the call [api.users(1)] writes the
    instance it returns over that resource, and [api.out(2)] is a call of
    an object that is no function. *)
Lemma C1_counterexample :
  ¬ top_level_route_claim (example_cfg [Simple "users"; Simple "_route"] []) "users" "5"
  ∧ ¬ later_route_claim (example_cfg [Simple "users"; Simple "out"] [])
        [Step "users" (Some "1")] "out" "2".
Proof.
  split.
  - intros H.
    set (cfg := example_cfg [Simple "users"; Simple "_route"] []) in *.
    destruct (H (loop cfg (Sub (resource_tree cfg)) 0 [Object KAccum ∅]) 0 eq_refl)
      as (h' & out & n & Hcall & Hr).
    { exists One. reflexivity. }
    vm_compute in Hcall. injection Hcall as <- <-.
    specialize (Hr (S (S n)) (Nat.le_trans _ _ _ (Nat.le_succ_diag_r n) (Nat.le_succ_diag_r (S n)))).
    vm_compute in Hr. discriminate Hr.
  - intros H.
    set (cfg := example_cfg [Simple "users"; Simple "out"] []) in *.
    set (h0 := loop cfg (Sub (resource_tree cfg)) 0 [Object KAccum ∅]).
    destruct (navigate cfg h0 0 [Step "users" (Some "1")]) as [[h l]|] eqn:En;
      [|by vm_compute in En].
    destruct (H h0 0 h l eq_refl En) as (h' & out & n & Hcall & _).
    { exists One. reflexivity. }
    vm_compute in En. injection En as <- <-. vm_compute in Hcall. discriminate Hcall.
Qed.



(** ** Segments of a string declaration *)

Lemma append_cons c a b : String c a +:+ b = String c (a +:+ b).
Proof. reflexivity. Qed.

Lemma split_append a b :
  Str.split (a +:+ "/" +:+ b) = Str.split a ++ Str.split b.
Proof.
  induction a as [|c a IH].
  - reflexivity.
  - rewrite append_cons. simpl. rewrite IH.
    destruct (Str.is_slash c); [done|].
    destruct (Str.split a) as [|x xs] eqn:E; [by apply StrFacts.split_nonempty in E|done].
Qed.

Lemma split_slash_free s : slash_free s → Str.split s = [s].
Proof.
  induction s as [|c s IH]; intros H; [done|].
  unfold slash_free in H. simpl in H. apply Forall_cons in H as [Hc Hs].
  simpl. rewrite Hc, (IH Hs). done.
Qed.

Lemma split_pieces s : Forall slash_free (Str.split s).
Proof.
  induction s as [|c s IH]; simpl.
  - repeat constructor.
  - destruct (Str.is_slash c) eqn:Ec.
    + constructor; [constructor | done].
    + destruct (Str.split s) as [|x xs]; [repeat constructor; done|].
      apply Forall_cons in IH as [Hx Hxs]. constructor; [|done].
      unfold slash_free. simpl. by constructor.
Qed.

Lemma compact_app l1 l2 : Str.compact (l1 ++ l2) = Str.compact l1 ++ Str.compact l2.
Proof. apply filter_app. Qed.

Lemma nonempty_true s : Str.nonempty s = true ↔ s ≠ EmptyString.
Proof. destruct s; simpl; split; (done || congruence). Qed.

Lemma clean_append a b : clean (a +:+ "/" +:+ b) = clean a ++ clean b.
Proof. unfold clean. by rewrite split_append, compact_app. Qed.

Lemma clean_leading_separator a : clean ("/" +:+ a) = clean a.
Proof. apply (clean_append EmptyString a). Qed.

(** X1: the segments of [a/b] are those of [a] followed by those of
    [b]; so a separator in front, at the end or doubled adds nothing. *)
Theorem clean_concatenation a b :
  clean (a +:+ "/" +:+ b) = clean a ++ clean b
  ∧ clean ("/" +:+ a) = clean a
  ∧ clean (a +:+ "/") = clean a.
Proof.
  split; [apply clean_append|]. split.
  - apply clean_leading_separator.
  - change (a +:+ "/") with (a +:+ "/" +:+ EmptyString).
    rewrite (clean_append a EmptyString). apply app_nil_r.
Qed.

Lemma clean_segment s : segment_ok s → clean s = [s].
Proof.
  intros [Hne Hs]. unfold clean. rewrite (split_slash_free s Hs).
  unfold Str.compact. rewrite filter_cons_True; [done|]. by apply nonempty_true.
Qed.

Lemma clean_concat segs :
  Forall segment_ok segs → clean (String.concat "/" segs) = segs.
Proof.
  induction 1 as [|x l Hx Hl IH]; [done|].
  destruct l as [|y l'].
  - by apply clean_segment.
  - change (String.concat "/" (x :: y :: l'))
      with (x +:+ "/" +:+ String.concat "/" (y :: l')).
    unfold clean in *. rewrite split_append, compact_app.
    fold (clean x). rewrite (clean_segment x Hx). by rewrite IH.
Qed.

Lemma clean_segments_ok path : Forall segment_ok (clean path).
Proof.
  unfold clean, Str.compact. apply Forall_forall. intros s Hs.
  apply list_elem_of_filter in Hs as [Hne Hin]. split; [by apply nonempty_true|].
  pose proof (split_pieces path) as HF. rewrite Forall_forall in HF. by apply HF.
Qed.

(** X2: the segment lists of string declarations are exactly the lists
    of non-empty strings without separator, and joining such a list
    with separators gives a declaration with these segments. *)
Theorem clean_image segs :
  ((∃ path, clean path = segs) ↔ Forall segment_ok segs)
  ∧ (Forall segment_ok segs → clean (String.concat "/" segs) = segs).
Proof.
  split; [split|].
  - intros [path <-]. apply clean_segments_ok.
  - intros H. exists (String.concat "/" segs). by apply clean_concat.
  - apply clean_concat.
Qed.

Lemma clean_image_witness :
  clean (String.concat "/" ["users"; "posts"]) = ["users"; "posts"].
Proof.
  apply (clean_image ["users"; "posts"]).
  repeat constructor; (done || (unfold Str.is_slash; simpl; done)).
Defined.

(** ** White space and the root *)

Lemma dropWhile_split {A} (p : A → bool) (l : list A) :
  ∃ pre, l = pre ++ Str.dropWhile l p ∧ Forall (λ c, p c = true) pre.
Proof.
  induction l as [|x l (pre & E & HF)]; simpl.
  - by exists [].
  - destruct (p x) eqn:Ex.
    + exists (x :: pre). split; [by rewrite <- app_comm_cons, <- E | by constructor].
    + by exists [].
Qed.

Lemma dropWhile_all {A} (p : A → bool) (l : list A) :
  Forall (λ c, p c = true) l → Str.dropWhile l p = [].
Proof. induction 1 as [|x l Hx _ IH]; simpl; [done|by rewrite Hx]. Qed.

Lemma dropWhile_nil {A} (p : A → bool) (l : list A) :
  Str.dropWhile l p = [] → Forall (λ c, p c = true) l.
Proof.
  intros E. destruct (dropWhile_split p l) as (pre & E' & HF).
  rewrite E, app_nil_r in E'. by subst.
Qed.

Lemma strip_end {A} (p : A → bool) (l : list A) :
  ∃ suf, l = rev (Str.dropWhile (rev l) p) ++ suf ∧ Forall (λ c, p c = true) suf.
Proof.
  destruct (dropWhile_split p (rev l)) as (pre & E & HF).
  exists (rev pre). split; [|by apply Forall_rev].
  rewrite <- rev_app_distr, <- E. by rewrite rev_involutive.
Qed.

Lemma join_app l1 l2 : Str.join (l1 ++ l2) = Str.join l1 +:+ Str.join l2.
Proof. induction l1 as [|c l1 IH]; [done|]. simpl. by rewrite IH. Qed.

Lemma trim_blank s :
  Str.trim s = EmptyString ↔ Forall (λ c, Str.is_space c = true) (Str.chars s).
Proof.
  unfold Str.trim. split.
  - intros E. apply (f_equal Str.chars) in E. rewrite StrFacts.chars_join in E.
    simpl in E. apply (f_equal (@rev _)) in E. rewrite rev_involutive in E. simpl in E.
    apply dropWhile_nil, Forall_rev in E. rewrite rev_involutive in E.
    destruct (dropWhile_split Str.is_space (Str.chars s)) as (pre & E' & HF).
    rewrite E'. by apply Forall_app.
  - intros H. by rewrite (dropWhile_all _ _ H).
Qed.

(** X3: [cleanroot] takes nothing but separators off the end of the
    trimmed root, and nothing at all when the root as given does not end
    in one. *)
Theorem cleanroot_removes_separators_only root :
  ∃ suf, Str.trim root = cleanroot root +:+ Str.join suf
         ∧ Forall (λ c, Str.is_slash c = true) suf
         ∧ (Str.endsWith_slash root = false → suf = []).
Proof.
  unfold cleanroot. destruct (Str.endsWith_slash root); simpl.
  - destruct (strip_end Str.is_slash (Str.chars (Str.trim root))) as (suf & E & HF).
    exists suf. split; [|done].
    rewrite <- join_app, <- E. by rewrite StrFacts.join_chars.
  - exists []. split; [|done]. symmetry. apply append_nil_r.
Qed.

Lemma attachable_Sub kids :
  attachable (Sub kids) = forallb (λ e, negb (read_only e.1) && attachable e.2) kids.
Proof.
  induction kids as [|e kids IH]; [done|].
  change (attachable (Sub (e :: kids)))
    with (negb (read_only e.1) && attachable e.2 && attachable (Sub kids)).
  by rewrite IH.
Qed.

(** Construction stops in [loop] exactly when a read-only name is the
    last segment of a path of the tree. *)
Lemma attachable_false v :
  wf_node v →
  attachable v = false
  ↔ ∃ p k, read_only k = true ∧ is_Some (descend v (p ++ [k])).
Proof.
  induction v as [|kids IH] using node_ind'.
  { intros _. split; [done|]. intros (p & k & _ & [w Hw]).
    apply descend_One in Hw as [Hp _]. by destruct p. }
  intros Hwf. inversion Hwf as [|? Hnd Hall]; subst.
  rewrite attachable_Sub. rewrite Forall_forall in IH, Hall. split.
  - intros Hf. apply not_true_iff_false in Hf. rewrite forallb_forall in Hf.
    assert (He : ∃ e, e ∈ kids ∧ (negb (read_only e.1) && attachable e.2) = false).
    { clear -Hf. induction kids as [|e kids IH].
      - exfalso. apply Hf. intros x [].
      - destruct (negb (read_only e.1) && attachable e.2) eqn:E.
        + destruct IH as (e' & He' & E').
          { intros H. apply Hf. intros x [<-|Hx]; [done | by apply H]. }
          exists e'. split; [by right | done].
        + exists e. split; [by left | done]. }
    destruct He as ([k v] & He & E). simpl in E.
    pose proof (elem_lookup_key k v kids Hnd He) as El.
    apply andb_false_iff in E as [E|E].
    + apply negb_false_iff in E. exists [], k. split; [done|]. simpl. rewrite El. eauto.
    + apply (IH (k, v) He (Hall (k, v) He)) in E as (p & k' & Hk' & Hd).
      exists (k :: p), k'. split; [done|]. simpl. by rewrite El.
  - intros (p & k & Hk & [w Hw]). apply not_true_iff_false. rewrite forallb_forall.
    intros Hf. destruct p as [|s p]; simpl in Hw.
    + destruct (lookup_key k kids) as [v|] eqn:El; [|done].
      apply lookup_key_elem, list_elem_of_In, Hf in El. simpl in El. by rewrite Hk in El.
    + destruct (lookup_key s kids) as [v|] eqn:El; [|done].
      pose proof (lookup_key_elem _ _ _ El) as He.
      assert (Ha : attachable v = false).
      { apply (IH (s, v) He (Hall (s, v) He)). exists p, k. split; [done | by eexists]. }
      apply list_elem_of_In, Hf in He. simpl in He. rewrite Ha in He.
      by rewrite andb_false_r in He.
Qed.

Lemma buildable_false cfg :
  buildable cfg = false
  ↔ (∃ p k, read_only k = true ∧ is_Some (descend (Sub (resource_tree cfg)) (p ++ [k])))
    ∨ (resource_tree cfg ≠ [] ∧ ∃ k, k ∈ method_names cfg ∧ read_only k = true).
Proof.
  unfold buildable.
  rewrite andb_false_iff, (attachable_false (Sub (resource_tree cfg)) (wf_normalize _)).
  assert (Hm : forallb (λ k, negb (read_only k)) (method_names cfg) = false
               ↔ ∃ k, k ∈ method_names cfg ∧ read_only k = true).
  { generalize (method_names cfg). intros l. induction l as [|x l IH]; simpl.
    - split; [done|]. intros (k & Hk & _). by apply elem_of_nil in Hk.
    - rewrite andb_false_iff, IH, negb_false_iff. split.
      + intros [E|(k & Hk & E)]; [exists x | exists k]; rewrite elem_of_cons; auto.
      + intros (k & Hk & E). apply elem_of_cons in Hk as [->|Hk]; eauto. }
  destruct (resource_tree cfg) as [|e t] eqn:Et.
  - split; [intros [H|H]; [by left | done] | intros [H|[H _]]; [by left | done]].
  - rewrite Hm. split; [intros [H|H]; [by left | by right] |].
    intros [H|[_ H]]; [by left | by right].
Qed.

(** X4: on a configuration without a name of [Object.prototype],
    construction throws exactly when the root is empty or all white
    space, or no endpoint is declared, or no request function is given,
    or a path of the tree ends in a name a function object does not let
    [loop] write ([name], [length], [arguments], [caller]), or there is a
    resource and a method of [proto] has such a name. *)
Theorem construction_refused cfg :
  ordinary cfg = true →
  quickrest cfg = None
  ↔ Forall (λ c, Str.is_space c = true) (Str.chars (root cfg))
    ∨ endpoints cfg = [] ∨ has_request cfg = false
    ∨ (∃ p k, read_only k = true ∧ is_Some (descend (Sub (resource_tree cfg)) (p ++ [k])))
    ∨ (resource_tree cfg ≠ [] ∧ ∃ k, k ∈ method_names cfg ∧ read_only k = true).
Proof.
  intros _. rewrite <- buildable_false.
  unfold quickrest, validateConfig, chooseDependencies.
  rewrite <- trim_blank.
  destruct (Str.nonempty (root cfg)) eqn:E1; simpl.
  - destruct (Str.nonempty (Str.trim (root cfg))) eqn:E2; simpl.
    + apply nonempty_true in E2.
      destruct (bool_decide (endpoints cfg = [])) eqn:E3; simpl.
      * apply bool_decide_eq_true in E3. naive_solver.
      * apply bool_decide_eq_false in E3.
        destruct (has_request cfg); simpl; [|naive_solver].
        destruct (buildable cfg); naive_solver.
    + split; [|done]. intros _. left. by destruct (Str.trim (root cfg)).
  - split; [|done]. intros _. left. by destruct (root cfg).
Qed.

Lemma construction_refused_witness :
  quickrest (example_cfg [Simple "users/name"] []) = None.
Proof.
  apply (proj2 (construction_refused (example_cfg [Simple "users/name"] []) eq_refl)).
  right; right; right; left. exists ["users"], "name". split; [reflexivity|].
  vm_compute. eauto.
Defined.
(** ** The merged tree, told from the declared paths *)

Lemma replace_key_same k v t : lookup_key k t = Some v → replace_key k v t = t.
Proof.
  induction t as [|[k' v'] t IH]; simpl; [done|].
  destruct (decide (k = k')) as [->|Hne]; [by intros [= ->]|].
  intros H. by rewrite (IH H).
Qed.

Lemma set_key_same k v t : lookup_key k t = Some v → set_key k v t = t.
Proof. intros E. unfold set_key. rewrite E. by apply replace_key_same. Qed.

Lemma place_leaf_again t k : is_Some (lookup_key k t) → place_leaf t k = t.
Proof. intros [v E]. unfold place_leaf. by rewrite E. Qed.

Lemma place_leaf_idem t k : place_leaf (place_leaf t k) k = place_leaf t k.
Proof.
  destruct (lookup_key k t) eqn:E.
  - assert (Et : place_leaf t k = t) by (apply place_leaf_again; rewrite E; eauto).
    by rewrite !Et.
  - destruct (inherited k) eqn:Ei.
    + assert (Et : place_leaf t k = t) by (unfold place_leaf; by rewrite E, Ei).
      by rewrite !Et.
    + apply place_leaf_again. unfold place_leaf. rewrite E, Ei.
      rewrite lookup_set_key, decide_True by done. eauto.
Qed.

(** Placing the start of a path that has been placed changes nothing,
    whether the path was filed or not. *)
Lemma place_start_again p : ∀ t q,
  p ≠ [] → place (place t (p ++ q)) p = place t (p ++ q).
Proof.
  induction p as [|s r IH]; intros t q Hp; [done|].
  destruct r as [|r0 r'].
  - change (place (place t ([s] ++ q)) [s]) with (place_leaf (place t (s :: q)) s).
    change ([s] ++ q) with (s :: q).
    destruct q as [|q0 q'].
    + change (place t [s]) with (place_leaf t s). apply place_leaf_idem.
    + rewrite place_cons.
      destruct (lookup_key s t) as [[|kids]|] eqn:E;
        try (apply place_leaf_again; rewrite lookup_set_key, decide_True by done; eauto).
      destruct (inherited s) eqn:Ei.
      * unfold place_leaf. by rewrite E, Ei.
      * apply place_leaf_again. rewrite lookup_set_key, decide_True by done. eauto.
  - change ((s :: r0 :: r') ++ q) with (s :: r0 :: (r' ++ q)).
    assert (Hset : ∀ kids, place (set_key s (Sub (place kids (r0 :: r' ++ q))) t) (s :: r0 :: r')
                           = set_key s (Sub (place kids (r0 :: r' ++ q))) t).
    { intros kids. rewrite place_cons, lookup_set_key, decide_True by done.
      change (r0 :: r' ++ q) with ((r0 :: r') ++ q). rewrite IH by done.
      apply set_key_same. by rewrite lookup_set_key, decide_True. }
    rewrite (place_cons t s r0 (r' ++ q)).
    destruct (lookup_key s t) as [[|kids]|] eqn:E; [apply Hset | apply Hset |].
    destruct (inherited s) eqn:Ei; [|apply Hset].
    by rewrite place_cons, E, Ei.
Qed.

(** X5: a path placed after a longer one that starts with it changes
    nothing; in particular placing a path twice is placing it once. *)
Theorem place_after_longer t p q :
  p ≠ [] → place (place t (p ++ q)) p = place t (p ++ q).
Proof. apply place_start_again. Qed.

Lemma place_after_longer_witness :
  place (place [] ["users"; "posts"]) ["users"] = place [] ["users"; "posts"].
Proof. apply (place_after_longer [] ["users"] ["posts"]). discriminate. Defined.

Lemma descend_nil_tree p w : descend (Sub []) p = Some w → p = [].
Proof. destruct p; [done|]. simpl. done. Qed.

(** What [place] adds: a value found after placing [q] was there
    before, or lies on the path of [q]. *)
Lemma place_inv q : ∀ t p w,
  descend (Sub (place t q)) p = Some w → p ≠ [] →
  (∃ w0, descend (Sub t) p = Some w0 ∧ (is_sub w → is_sub w0))
  ∨ (∃ k, placed_path q = p ++ k ∧ (is_sub w → k ≠ [])).
Proof.
  assert (Hleaf : ∀ t s p w,
    descend (Sub (place_leaf t s)) p = Some w → p ≠ [] →
    (∃ w0, descend (Sub t) p = Some w0 ∧ (is_sub w → is_sub w0))
    ∨ (∃ k, [s] = p ++ k ∧ (is_sub w → k ≠ []))).
  { intros t s p w H Hp. unfold place_leaf in H.
    destruct (lookup_key s t) eqn:E; [left; eauto|].
    destruct (inherited s); [left; eauto|].
    destruct p as [|s' rest]; [done|]. simpl in H.
    rewrite lookup_set_key in H. destruct (decide (s' = s)) as [->|Hne].
    - apply descend_One in H as [-> ->]. right. exists []. split; [done|]. intros [].
    - left. exists w. simpl. split; [done|done]. }
  induction q as [|s r IH]; intros t p w H Hp; [by apply Hleaf|].
  destruct r as [|r0 r']; [by apply Hleaf|].
  change (placed_path (s :: r0 :: r')) with (s :: r0 :: r').
  destruct p as [|s' rest]; [done|]. rewrite place_cons in H.
  assert (Hset : ∀ kids,
    (lookup_key s t = Some (Sub kids) ∨ kids = []) →
    descend (Sub (set_key s (Sub (place kids (r0 :: r'))) t)) (s' :: rest) = Some w →
    (∃ w0, descend (Sub t) (s' :: rest) = Some w0 ∧ (is_sub w → is_sub w0))
    ∨ (∃ k, s :: r0 :: r' = (s' :: rest) ++ k ∧ (is_sub w → k ≠ []))).
  { intros kids Hkids H'. cbn [descend] in H'.
    rewrite lookup_set_key in H'. destruct (decide (s' = s)) as [->|Hne].
    - destruct rest as [|x rest'].
      + injection H' as <-. right. exists (r0 :: r'). split; [done|]. intros _. discriminate.
      + apply IH in H'; [|done]. destruct H' as [(w0 & H0 & Hs)|(k & Ek & Hk)].
        * left. exists w0. split; [|done]. simpl.
          destruct Hkids as [->| ->]; [done | by apply descend_nil_tree in H0].
        * right. exists k. split; [|done].
          change (placed_path (r0 :: r')) with (r0 :: r') in Ek. by rewrite Ek.
    - left. exists w. simpl. by split. }
  destruct (lookup_key s t) as [[|kids]|] eqn:E.
  - apply (Hset []); [by right | done].
  - apply (Hset kids); [by left | done].
  - destruct (inherited s); [left; eauto|]. apply (Hset []); [by right | done].
Qed.

Lemma normalize_inv ls : ∀ t p w,
  descend (Sub (foldl (λ out xs, place out (segs xs)) t ls)) p = Some w → p ≠ [] →
  (∃ w0, descend (Sub t) p = Some w0 ∧ (is_sub w → is_sub w0))
  ∨ (∃ xs k, xs ∈ ls ∧ placed_path (segs xs) = p ++ k ∧ (is_sub w → k ≠ [])).
Proof.
  induction ls as [|x ls IH]; intros t p w H Hp; simpl in H.
  - left. eauto.
  - apply IH in H; [|done]. destruct H as [(w0 & H0 & Hs)|(xs & k & Hin & E & Hk)].
    + apply place_inv in H0; [|done]. destruct H0 as [(w1 & H1 & Hs1)|(k & E & Hk)].
      * left. exists w1. split; [done|]. tauto.
      * right. exists x, k. split; [apply list_elem_of_here|]. split; [done|]. tauto.
    + right. exists xs, k. split; [by apply list_elem_of_further|done].
Qed.

Lemma normalize_reaches_placed ls xs :
  xs ∈ ls → ordinary_names (segs xs) = true →
  is_Some (descend (Sub (normalize ls)) (placed_path (segs xs))).
Proof.
  intros Hin Hord. destruct (segs xs) as [|s r] eqn:E.
  - destruct (normalize_empty ls xs Hin E) as [v Hv]. simpl. rewrite Hv. by eexists.
  - change (placed_path (s :: r)) with (s :: r). rewrite <- E.
    apply normalize_reaches; [done | by rewrite E | by rewrite E].
Qed.

Lemma normalize_reach ls p :
  Forall (λ xs, ordinary_names (segs xs) = true) ls →
  p ≠ [] →
  is_Some (descend (Sub (normalize ls)) p)
  ↔ ∃ xs k, xs ∈ ls ∧ placed_path (segs xs) = p ++ k.
Proof.
  intros Hord Hp. rewrite Forall_forall in Hord. split.
  - intros [w H]. apply normalize_inv in H; [|done].
    destruct H as [(w0 & H0 & _)|(xs & k & Hin & E & _)]; [|eauto].
    apply descend_nil_tree in H0. done.
  - intros (xs & k & Hin & E).
    pose proof (normalize_reaches_placed ls xs Hin (Hord xs Hin)) as H.
    rewrite E, descend_app in H.
    destruct (descend (Sub (normalize ls)) p); [done|by destruct H].
Qed.

Lemma normalize_internal ls p :
  Forall (λ xs, ordinary_names (segs xs) = true) ls →
  p ≠ [] →
  (∃ kids, descend (Sub (normalize ls)) p = Some (Sub kids))
  ↔ ∃ xs k, xs ∈ ls ∧ placed_path (segs xs) = p ++ k ∧ k ≠ [].
Proof.
  intros Hord Hp. rewrite Forall_forall in Hord. split.
  - intros [kids H]. apply normalize_inv in H; [|done].
    destruct H as [(w0 & H0 & _)|(xs & k & Hin & E & Hk)].
    + apply descend_nil_tree in H0. done.
    + exists xs, k. split; [done|]. split; [done|]. by apply Hk.
  - intros (xs & k & Hin & E & Hk).
    pose proof (normalize_reaches_placed ls xs Hin (Hord xs Hin)) as [w H]. rewrite E in H.
    by apply descend_internal in H.
Qed.

(** X6: when no array has a segment that [Object.prototype] answers
    for, the merged tree holds, below the top, a value at [p] exactly
    when [p] starts the path of one of the arrays, and the value is an
    object, not the leaf marker, exactly when one of the paths goes on
    after [p]. *)
Theorem normalize_nodes ls p :
  Forall (λ xs, ordinary_names (segs xs) = true) ls →
  p ≠ [] →
  (is_Some (descend (Sub (normalize ls)) p)
   ↔ ∃ xs k, xs ∈ ls ∧ placed_path (segs xs) = p ++ k)
  ∧ ((∃ kids, descend (Sub (normalize ls)) p = Some (Sub kids))
     ↔ ∃ xs k, xs ∈ ls ∧ placed_path (segs xs) = p ++ k ∧ k ≠ []).
Proof.
  intros Hord Hp. split; [by apply normalize_reach | by apply normalize_internal].
Qed.

Lemma normalize_nodes_witness :
  ∃ kids, descend (Sub (normalize [plain ["users"; "posts"]; plain ["users"]])) ["users"]
          = Some (Sub kids).
Proof.
  apply (normalize_nodes [plain ["users"; "posts"]; plain ["users"]] ["users"]);
    [by repeat constructor | discriminate |].
  exists (plain ["users"; "posts"]), ["posts"].
  split; [apply list_elem_of_here|]. split; [reflexivity|discriminate].
Defined.

(** X7: when no array has a segment that [Object.prototype] answers
    for, which values the merged tree holds, and which of them are
    objects, depends on which arrays are handed to [normalize] only: not
    on their order, not on how often one occurs. *)
Theorem normalize_ignores_order ls ls' p :
  Forall (λ xs, ordinary_names (segs xs) = true) ls →
  (∀ xs, xs ∈ ls ↔ xs ∈ ls') →
  (descend (Sub (normalize ls)) p = Some One ↔ descend (Sub (normalize ls')) p = Some One)
  ∧ ((∃ kids, descend (Sub (normalize ls)) p = Some (Sub kids))
     ↔ ∃ kids, descend (Sub (normalize ls')) p = Some (Sub kids)).
Proof.
  intros Hord Hsame.
  assert (Hord' : Forall (λ xs, ordinary_names (segs xs) = true) ls').
  { rewrite Forall_forall in *. intros xs Hxs. by apply Hord, Hsame. }
  destruct p as [|s r]; [split; split; (done || eauto)|].
  assert (Hp : s :: r ≠ []) by done.
  pose proof (normalize_reach ls (s :: r) Hord Hp) as Hr.
  pose proof (normalize_internal ls (s :: r) Hord Hp) as Hi.
  pose proof (normalize_reach ls' (s :: r) Hord' Hp) as Hr'.
  pose proof (normalize_internal ls' (s :: r) Hord' Hp) as Hi'.
  assert (Hint : (∃ kids, descend (Sub (normalize ls)) (s :: r) = Some (Sub kids))
                 ↔ ∃ kids, descend (Sub (normalize ls')) (s :: r) = Some (Sub kids)).
  { rewrite Hi, Hi'. split; intros (xs & k & Hin & H); exists xs, k; by rewrite Hsame in *. }
  assert (Hreach : is_Some (descend (Sub (normalize ls)) (s :: r))
                   ↔ is_Some (descend (Sub (normalize ls')) (s :: r))).
  { rewrite Hr, Hr'. split; intros (xs & k & Hin & H); exists xs, k; by rewrite Hsame in *. }
  split; [|done].
  assert (Hone : ∀ l, descend (Sub (normalize l)) (s :: r) = Some One
            ↔ is_Some (descend (Sub (normalize l)) (s :: r))
              ∧ ¬ ∃ kids, descend (Sub (normalize l)) (s :: r) = Some (Sub kids)).
  { intros l. destruct (descend (Sub (normalize l)) (s :: r)) as [[|kids]|].
    - split; [|done]. intros _. split; [done|]. by intros [? ?].
    - split; [done|]. intros [_ H]. destruct H. eauto.
    - split; [done|]. by intros [[? ?] _]. }
  rewrite !Hone. tauto.
Qed.

Lemma normalize_ignores_order_witness :
  descend (Sub (normalize [plain ["users"]; plain ["users"; "posts"]; plain ["users"]]))
          ["users"; "posts"] = Some One
  ↔ descend (Sub (normalize [plain ["users"; "posts"]; plain ["users"]]))
            ["users"; "posts"] = Some One.
Proof.
  apply (normalize_ignores_order
           [plain ["users"]; plain ["users"; "posts"]; plain ["users"]]
           [plain ["users"; "posts"]; plain ["users"]] ["users"; "posts"]).
  - by repeat constructor.
  - intros xs. rewrite !elem_of_cons. tauto.
Defined.

(** ** The resources of the client, told from the declarations *)

Lemma map_endpoints_eps cvs eps : ∀ st, (map_endpoints cvs st eps).2 = map declared eps.
Proof.
  induction eps as [|e eps IH]; intros st; simpl; [done|].
  destruct (buildResource cvs st e) as [st1 x] eqn:E1.
  specialize (IH st1). destruct (map_endpoints cvs st1 eps) as [st2 xs]. simpl in *.
  rewrite IH. by destruct e; simpl in E1; injection E1 as <- <-.
Qed.

Lemma buildResources_eps eps cvs : (buildResources eps cvs).1.2 = map declared eps.
Proof.
  unfold buildResources. pose proof (map_endpoints_eps cvs eps (BrState [] ∅)) as H.
  destruct (map_endpoints cvs (BrState [] ∅) eps) as [st xs]. simpl in *. exact H.
Qed.

Lemma elem_all_paths eps cvs x :
  x ∈ all_paths eps cvs
  ↔ (x ∈ map declared eps ∧ segs x ≠ []) ∨ x ∈ flat_map (replicas cvs) eps.
Proof.
  unfold all_paths. pose proof (buildResources_simple eps cvs) as H1.
  pose proof (buildResources_eps eps cvs) as H2.
  destruct (buildResources eps cvs) as [[simple resources] vs]. simpl in H1, H2. subst.
  rewrite elem_sort_longest_first, elem_of_app, list_elem_of_filter. tauto.
Qed.

Lemma placed_path_nonempty p : p ≠ [] → placed_path p = p.
Proof. by destruct p. Qed.

(** The paths of the arrays in [all] are the declared paths. *)
Lemma all_paths_declared eps cvs q :
  (∃ xs, xs ∈ all_paths eps cvs ∧ placed_path (segs xs) = q)
  ↔ ∃ e, e ∈ eps ∧ q ∈ declared_paths cvs e.
Proof.
  split.
  - intros (xs & Hin & <-). apply elem_all_paths in Hin as [[Hin Hne]|Hin].
    + apply list_elem_of_fmap in Hin as (e & -> & He). exists e. split; [done|].
      destruct e as [path|c]; simpl in *.
      * apply list_elem_of_here.
      * rewrite placed_path_nonempty by done. apply list_elem_of_here.
    + apply list_elem_of_In, in_flat_map in Hin as (e & He & Hx).
      exists e. split; [by apply list_elem_of_In|].
      destruct e as [path|c]; simpl in *; [|done].
      destruct Hx as [<-|Hx]; [apply list_elem_of_here|].
      apply in_map_iff in Hx as (cv & <- & Hcv). simpl.
      apply list_elem_of_further, list_elem_of_fmap. exists cv.
      split; [done | by apply list_elem_of_In].
  - intros (e & He & Hq). destruct e as [path|c]; simpl in Hq.
    + apply elem_of_cons in Hq as [->|Hq].
      * exists (plain (clean path)). split; [|done].
        apply elem_all_paths. right. by apply replicas_self.
      * apply list_elem_of_fmap in Hq as (cv & -> & Hcv).
        exists (plain (cv :: clean path)). split; [|done].
        apply elem_all_paths. right. by apply replicas_version.
    + apply list_elem_of_singleton in Hq as ->.
      exists (declared (Configured c)). split.
      * apply elem_all_paths. left. split; [|apply StrFacts.split_nonempty].
        apply list_elem_of_fmap. by exists (Configured c).
      * simpl. apply placed_path_nonempty, StrFacts.split_nonempty.
Qed.

Lemma resource_tree_nodes cfg p :
  ordinary cfg = true →
  p ≠ [] →
  (is_Some (descend (Sub (resource_tree cfg)) p)
   ↔ ∃ e q, e ∈ endpoints cfg ∧ q ∈ declared_paths (commonVersions cfg) e ∧ p `prefix_of` q)
  ∧ ((∃ kids, descend (Sub (resource_tree cfg)) p = Some (Sub kids))
     ↔ ∃ e q k, e ∈ endpoints cfg ∧ q ∈ declared_paths (commonVersions cfg) e
                ∧ q = p ++ k ∧ k ≠ []).
Proof.
  intros Hord Hp. unfold resource_tree. apply ordinary_all in Hord.
  rewrite (normalize_reach (all_paths (endpoints cfg) (commonVersions cfg)) p Hord Hp).
  rewrite (normalize_internal (all_paths (endpoints cfg) (commonVersions cfg)) p Hord Hp).
  split; split.
  - intros (xs & k & Hin & E).
    destruct (proj1 (all_paths_declared (endpoints cfg) (commonVersions cfg) (p ++ k))) as (e & He & Hq); [eauto|].
    exists e, (p ++ k). split; [done|]. split; [done|]. by exists k.
  - intros (e & q & He & Hq & [k ->]).
    destruct (proj2 (all_paths_declared (endpoints cfg) (commonVersions cfg) (p ++ k))) as (xs & Hin & E); eauto.
  - intros (xs & k & Hin & E & Hk).
    destruct (proj1 (all_paths_declared (endpoints cfg) (commonVersions cfg) (p ++ k))) as (e & He & Hq); [eauto|].
    by exists e, (p ++ k), k.
  - intros (e & q & k & He & Hq & -> & Hk).
    destruct (proj2 (all_paths_declared (endpoints cfg) (commonVersions cfg) (p ++ k))) as (xs & Hin & E); eauto.
Qed.

Lemma proto_values conf s k m :
  proto conf s !! k = Some m → m = VGetUrl ∨ ∃ op, m = VVerb op s.
Proof.
  unfold proto.
  repeat (rewrite lookup_insert_Some; intros [[_ <-]|[_ H]]; [by eauto|revert H]).
  by rewrite lookup_empty.
Qed.

Lemma fresh_props_no_ref conf route s k l :
  (∀ l', route ≠ VRef l') →
  default VUndef (fresh_props conf route s !! k) ≠ VRef l.
Proof.
  intros Hr. unfold fresh_props. destruct (proto conf s !! k) as [m|] eqn:E.
  - rewrite (lookup_union_Some_l _ _ _ _ E). simpl.
    apply proto_values in E as [->|[op ->]]; done.
  - rewrite (lookup_union_r _ _ _ E).
    destruct (decide (k = "_route")) as [->|Hne].
    + rewrite lookup_singleton_eq. simpl. apply Hr.
    + by rewrite lookup_singleton_ne.
Qed.

(** A chain of property reads that ends in a resource function follows
    the tree. *)
Lemma navigate_plain_inv conf p : ∀ h cur v h' l,
  compiled conf [] h cur v →
  (∀ k fn, k ∉ keys (kids_of v) → get h cur k ≠ VRef fn) →
  navigate conf h cur (plain_path p) = Some (h', l) →
  is_Some (descend v p).
Proof.
  induction p as [|s r IH]; intros h cur v h' l Hc Hno Hnav; [by eexists|].
  simpl in Hnav. destruct (get h cur s) as [|fn| | | |] eqn:Eg; try done.
  destruct (decide (s ∈ keys (kids_of v))) as [Hin|Hout]; [|by destruct (Hno s fn Hout)].
  destruct v as [|kids]; [by apply elem_of_nil in Hin|]. simpl in Hin.
  apply lookup_key_is_Some in Hin as [v' Ev]. simpl. rewrite Ev.
  apply compiled_Sub in Hc. rewrite Forall_forall in Hc.
  destruct (Hc _ (lookup_key_elem _ _ _ Ev)) as (fn' & _ & Hget & _ & Hprops & Hsub).
  simpl in *. rewrite Eg in Hget. injection Hget as <-.
  apply (IH h fn v' h' l Hsub); [|done].
  intros k fn' Hk. rewrite (Hprops k Hk (not_elem_of_nil _)). by apply fresh_props_no_ref.
Qed.

Lemma navigable_iff_declared cfg h api p :
  quickrest cfg = Some (h, api) → ordinary cfg = true → p ≠ [] →
  (is_Some (navigate cfg h api (plain_path p))
   ↔ ∃ e q, e ∈ endpoints cfg ∧ q ∈ declared_paths (commonVersions cfg) e ∧ p `prefix_of` q).
Proof.
  intros Hb Hord Hp. rewrite <- (proj1 (resource_tree_nodes cfg p Hord Hp)). split.
  - intros [[h' l] Hnav].
    apply (navigate_plain_inv cfg p h api _ h' l (built_compiled cfg h api Hb)); [|done].
    intros k fn Hk. simpl in Hk. by rewrite (built_api_get cfg h api Hb k Hk).
  - intros [w Hw].
    destruct (navigate_plain cfg [] p h api _ w (wf_normalize _) (built_compiled cfg h api Hb) Hw)
      as (l & Hnav & _). rewrite Hnav. by eexists.
Qed.


(** ** Verb calls *)

Lemma assign_empty (a : jsmap) : assign a ∅ = a.
Proof. unfold assign. apply (left_id_L ∅ (∪)). Qed.

(** X9: without a hook, each verb calls the request function once, with
    the route, the method of the verb, the caller's data as it was given
    and the merged headers of the configuration, and hands the caller's
    callback on; a falsy value in place of the callback gives a promise
    that is never settled. *)
Theorem default_request_flow cfg op resource route arg cb :
  beforeEach cfg = None →
  run_verb cfg op resource route arg cb
  = match default Noop cb with
    | Falsy =>
        ([Request route (verb_method op resource) (verb_props op arg) (verb_query op arg)
            (opts_headers cfg) None], Pending)
    | c =>
        ([Request route (verb_method op resource) (verb_props op arg) (verb_query op arg)
            (opts_headers cfg) (Some c)], FromRequest)
    end.
Proof.
  intros Hb. rewrite run_verb_factory. unfold verbFactory, processed. rewrite Hb. simpl.
  rewrite !assign_empty. by destruct (default Noop cb).
Qed.

Lemma default_request_flow_witness :
  run_verb (example_cfg [Simple "users"] []) Update "users" "https://api.example.com/users/7"
           {["name" := "ann"]} (Some (Fn 1))
  = ([Request "https://api.example.com/users/7" "put" {["name" := "ann"]} ∅
        (opts_headers (example_cfg [Simple "users"] [])) (Some (Fn 1))], FromRequest).
Proof.
  exact (default_request_flow (example_cfg [Simple "users"] []) Update "users"
           "https://api.example.com/users/7" {["name" := "ann"]} (Some (Fn 1)) eq_refl).
Defined.



(** X11: a hook that does not use its completion callback.  When it
    returns a modification, the one request is made with the merged
    data and without the caller's callback; when its promise rejects,
    no request is made and the verb returns the rejection. *)
Theorem hook_promise_flow cfg hk op resource route arg cb :
  beforeEach cfg = Some hk →
  h_calls (hk (verb_props op arg) (verb_query op arg) (opts_headers cfg)) = [] →
  run_verb cfg op resource route arg cb
  = match h_return (hk (verb_props op arg) (verb_query op arg) (opts_headers cfg)) with
    | HUndefined => ([], Nothing)
    | HValue md =>
        ([Request route (verb_method op resource)
            (assign (verb_props op arg) (default ∅ (m_properties md)))
            (assign (verb_query op arg) (default ∅ (m_query md)))
            (assign (opts_headers cfg) (default ∅ (m_headers md)))
            None], ThenRequest)
    | HRejects e => ([], Rejects e)
    end.
Proof.
  intros Hb Hc. rewrite run_verb_factory. unfold verbFactory. rewrite Hb, Hc.
  by destruct (h_return _).
Qed.

Lemma hook_promise_flow_witness :
  run_verb (hooked_cfg (λ _ _ _, HookBehaviour
              (HValue (Modification (Some {["X-Token" := "abc"]}) None None)) []))
           Get "users" "https://api.example.com/users" ∅ (Some (Fn 1))
  = ([Request "https://api.example.com/users" "get" (assign ∅ ∅) (assign ∅ ∅)
        (assign (opts_headers (hooked_cfg (λ _ _ _, HookBehaviour
              (HValue (Modification (Some {["X-Token" := "abc"]}) None None)) [])))
                {["X-Token" := "abc"]})
        None], ThenRequest).
Proof.
  exact (hook_promise_flow
           (hooked_cfg (λ _ _ _, HookBehaviour
              (HValue (Modification (Some {["X-Token" := "abc"]}) None None)) []))
           (λ _ _ _, HookBehaviour
              (HValue (Modification (Some {["X-Token" := "abc"]}) None None)) [])
           Get "users" "https://api.example.com/users" ∅ (Some (Fn 1)) eq_refl eq_refl).
Defined.

Lemma opts_headers_lookup cfg k :
  opts_headers cfg !! k
  = match default ∅ (headers cfg) !! k with
    | Some v => Some v
    | None => DEFAULT_HEADERS !! k
    end.
Proof.
  unfold opts_headers. destruct (default ∅ (headers cfg) !! k) as [v|] eqn:E.
  - by apply assign_lookup_Some.
  - by apply assign_lookup_None.
Qed.

Lemma spy_headers route method properties query hdrs cb call u m p q hd f :
  spy route method properties query hdrs cb call = Request u m p q hd f →
  call.1 = None ∧ hd = assign hdrs (default ∅ (m_headers (default no_mod call.2))).
Proof.
  unfold spy, processed. destruct call.1; [by destruct cb|]. by intros [= _ _ _ _ <- _].
Qed.

(** X12: the headers of every request a verb makes.  For each name the
    value is the one of the hook's modification if it has one, else the
    one of the configured [headers] if they have one, else the default
    ([application/json] for [Accept] and [Content-Type], nothing for
    other names).  The modification is the one the hook returned or the
    one of the completion call that made the request; without a hook
    there is none. *)
Theorem request_headers cfg op resource route arg cb u m p q hd f :
  Request u m p q hd f ∈ (run_verb cfg op resource route arg cb).1 →
  ∃ mh : jsmap,
    match beforeEach cfg with
    | None => mh = ∅
    | Some hk =>
        let b := hk (verb_props op arg) (verb_query op arg) (opts_headers cfg) in
        (∃ md, h_return b = HValue md ∧ mh = default ∅ (m_headers md))
        ∨ (∃ call, call ∈ h_calls b ∧ call.1 = None
                   ∧ mh = default ∅ (m_headers (default no_mod call.2)))
    end
    ∧ ∀ k, hd !! k
           = match mh !! k with
             | Some v => Some v
             | None =>
                 match default ∅ (headers cfg) !! k with
                 | Some v => Some v
                 | None =>
                     if decide (k = "Accept" ∨ k = "Content-Type")
                     then Some "application/json" else None
                 end
             end.
Proof.
  assert (Hdef : ∀ k, DEFAULT_HEADERS !! k
                      = if decide (k = "Accept" ∨ k = "Content-Type")
                        then Some "application/json" else None).
  { intros k. unfold DEFAULT_HEADERS.
    destruct (decide (k = "Accept")) as [->|H1]; [by rewrite lookup_insert_eq|].
    rewrite lookup_insert_ne by done.
    destruct (decide (k = "Content-Type")) as [->|H2].
    - rewrite lookup_insert_eq. by rewrite decide_True by (by right).
    - rewrite lookup_insert_ne by done. rewrite lookup_empty.
      by rewrite decide_False by (intros [?|?]; done). }
  assert (Hmerge : ∀ mh, hd = assign (opts_headers cfg) mh →
            ∀ k, hd !! k = match mh !! k with
                           | Some v => Some v
                           | None => match default ∅ (headers cfg) !! k with
                                     | Some v => Some v
                                     | None => if decide (k = "Accept" ∨ k = "Content-Type")
                                               then Some "application/json" else None
                                     end
                           end).
  { intros mh -> k. destruct (mh !! k) as [v|] eqn:E.
    - by apply assign_lookup_Some.
    - rewrite (assign_lookup_None _ _ _ E), opts_headers_lookup. by rewrite Hdef. }
  rewrite run_verb_factory. unfold verbFactory.
  set (P := verb_props op arg). set (Q := verb_query op arg). set (H := opts_headers cfg).
  set (M := verb_method op resource). set (c := default Noop cb).
  assert (Hspy : ∀ calls, Request u m p q hd f ∈ map (spy route M P Q H c) calls →
                   ∃ call, call ∈ calls ∧ call.1 = None
                           ∧ hd = assign H (default ∅ (m_headers (default no_mod call.2)))).
  { intros calls Hin. apply list_elem_of_fmap in Hin as (call & E & Hc).
    symmetry in E. apply spy_headers in E as [E1 E2]. eauto. }
  assert (Hone : ∀ md fin, Request u m p q hd f ∈ [processed route M P Q H md fin] →
                   hd = assign H (default ∅ (m_headers md))).
  { intros md fin Hin. apply list_elem_of_singleton in Hin. unfold processed in Hin.
    by injection Hin as _ _ _ _ -> _. }
  destruct (beforeEach cfg) as [hk|].
  - intros Hin.
    assert (Hcalls : Request u m p q hd f ∈ map (spy route M P Q H c) (h_calls (hk P Q H)) →
              ∃ mh, ((∃ md, h_return (hk P Q H) = HValue md ∧ mh = default ∅ (m_headers md))
                     ∨ (∃ call, call ∈ h_calls (hk P Q H) ∧ call.1 = None
                                ∧ mh = default ∅ (m_headers (default no_mod call.2))))
                    ∧ hd = assign H mh).
    { intros Hc. destruct (Hspy _ Hc) as (call & Hcall & E1 & E2).
      eexists. split; [right; exists call; by repeat split|done]. }
    assert (∃ mh, ((∃ md, h_return (hk P Q H) = HValue md ∧ mh = default ∅ (m_headers md))
                   ∨ (∃ call, call ∈ h_calls (hk P Q H) ∧ call.1 = None
                              ∧ mh = default ∅ (m_headers (default no_mod call.2))))
                  ∧ hd = assign H mh) as (mh & Hmh & E).
    { revert Hin. destruct (h_return (hk P Q H)) as [|md|e] eqn:Er; simpl;
        [apply Hcalls | | apply Hcalls].
      rewrite elem_of_app. intros [Hin|Hin]; [by apply Hcalls|].
      apply Hone in Hin. exists (default ∅ (m_headers md)). split; [left; eauto|done]. }
    exists mh. split; [done|by apply Hmerge].
  - intros Hin. exists ∅. split; [done|]. apply Hmerge.
    destruct c; simpl in Hin; by apply Hone in Hin.
Qed.

Lemma request_headers_witness :
  ∃ mh : jsmap, mh = ∅ ∧ ∀ k,
    opts_headers (example_cfg [Simple "users"] []) !! k
    = match mh !! k with
      | Some v => Some v
      | None => if decide (k = "Accept" ∨ k = "Content-Type")
                then Some "application/json" else None
      end.
Proof.
  destruct (request_headers (example_cfg [Simple "users"] []) Get "users" "r" ∅ None
              "r" "get" ∅ ∅ (opts_headers (example_cfg [Simple "users"] [])) (Some Noop))
    as (mh & Hmh & H).
  - apply list_elem_of_here.
  - exists mh. split; [exact Hmh|]. intros k. rewrite (H k).
    destruct (mh !! k); [done|]. simpl. by rewrite lookup_empty.
Defined.

(** ** The keys of [proto] *)

Lemma forall_verb (P : verb → Prop) :
  (∀ op, P op) ↔ P Create ∧ P Patch ∧ P Del ∧ P Delete ∧ P Get ∧ P List ∧ P Update.
Proof. split; [intros H; repeat split; apply H|]. intros (?&?&?&?&?&?&?) []; done. Qed.

(** X13: which method [proto] keeps under a name.  The object literal
    computes one key per verb, the alias if one is given and the default
    name if not; where two keys are equal the one written later in the
    literal replaces the earlier, and [getUrl] is written last. *)
Theorem proto_last_key_wins conf resource k op :
  proto conf resource !! k = Some (VVerb op resource)
  ↔ verb_name conf op = k ∧ k ≠ "getUrl"
    ∧ ∀ op', rank op < rank op' → verb_name conf op' ≠ k.
Proof.
  rewrite forall_verb. unfold proto.
  rewrite !lookup_insert_Some, lookup_empty.
  destruct op; unfold verb_name, rank; simpl; split.
  all: intros H; repeat split; try lia.
  all: try (intros _; intros ->).
  all: naive_solver lia.
Qed.
(** ** What construction and invocation allocate *)

Lemma nodes_Sub_cons e kids : nodes (Sub (e :: kids)) = S (nodes e.2 + nodes (Sub kids)).
Proof. reflexivity. Qed.

Lemma loop_length conf v : ∀ accum h,
  length (loop conf v accum h) = length h + nodes v.
Proof.
  induction v as [|kids IH] using node_ind'; intros accum h; [simpl; lia|].
  rewrite loop_Sub. revert h.
  induction IH as [|e kids He _ IHk]; intros h; [simpl; lia|].
  cbn [foldl]. rewrite IHk, nodes_Sub_cons, compile_key_eq, length_set_prop, He, length_app.
  simpl. lia.
Qed.

(** X14: construction allocates the client and one resource function
    for every entry of the merged tree, and each call of a resource
    function allocates the instance and a new resource function for
    every entry below the resource. *)
Theorem allocation cfg :
  (∀ h api, quickrest cfg = Some (h, api) →
     length h = 1 + nodes (Sub (resource_tree cfg)))
  ∧ (∀ h this fn accum name v id,
       kind_of h fn = Some (KNode accum name v) → get h this "_out" = VUndef →
       ∃ h', invoke cfg h this fn id = Some (h', VRef (length h))
             ∧ length h' = length h + 1 + nodes v).
Proof.
  split.
  - intros h api Hb. destruct (built_eq cfg h api Hb) as [_ ->]. by rewrite loop_length.
  - intros h this fn accum name v id Hk Ho. unfold invoke. rewrite Hk, Ho. simpl.
    eexists. split; [done|]. by rewrite loop_length, length_set_prop, length_app.
Qed.

Lemma allocation_witness :
  length (loop (example_cfg [Simple "users/posts"; Simple "users/likes"] [])
               (Sub (resource_tree (example_cfg [Simple "users/posts"; Simple "users/likes"] [])))
               0 [Object KAccum ∅]) = 4.
Proof.
  exact (proj1 (allocation (example_cfg [Simple "users/posts"; Simple "users/likes"] []))
           _ 0 eq_refl).
Defined.

(** X15: apart from the members every function object has, the new
    client of a configuration without a name of [Object.prototype] holds
    the top-level resource functions and nothing else: no verb method, no
    [getUrl], no route accessor; so a verb or a resource that is not
    declared cannot be called on it. *)
Theorem client_holds_resources_only cfg h api k :
  quickrest cfg = Some (h, api) →
  ordinary cfg = true →
  k ∉ function_members →
  match lookup_key k (resource_tree cfg) with
  | Some v => ∃ fn, get h api k = VRef fn ∧ kind_of h fn = Some (KNode api k v)
  | None => get h api k = VUndef ∧ ∀ id, call_resource cfg h api k id = None
  end
  ∧ ∀ fuel arg cb, call_verb cfg fuel h api k arg cb = None.
Proof.
  intros Hb _ _.
  assert (H : match lookup_key k (resource_tree cfg) with
              | Some v => ∃ fn, get h api k = VRef fn ∧ kind_of h fn = Some (KNode api k v)
              | None => get h api k = VUndef
              end).
  { destruct (lookup_key k (resource_tree cfg)) as [v|] eqn:E.
    - apply (compiled_child cfg [] h api _ k v (built_compiled cfg h api Hb) E).
    - apply (built_api_get cfg h api Hb). by apply lookup_key_None. }
  destruct (lookup_key k (resource_tree cfg)) as [v|].
  - destruct H as (fn & Hg & Hk). split; [eauto|].
    intros fuel arg cb. unfold call_verb. by rewrite Hg.
  - split; [split; [done|]|].
    + intros id. unfold call_resource. by rewrite H.
    + intros fuel arg cb. unfold call_verb. by rewrite H.
Qed.

Lemma client_holds_resources_only_witness :
  get (loop (example_cfg [Simple "users"] []) (Sub (resource_tree (example_cfg [Simple "users"] [])))
            0 [Object KAccum ∅]) 0 "create" = VUndef.
Proof.
  assert (Hk : "create" ∉ function_members).
  { unfold function_members, object_members. simpl. rewrite !not_elem_of_cons.
    repeat split; (done || apply not_elem_of_nil). }
  exact (proj1 (proj1 (client_holds_resources_only (example_cfg [Simple "users"] []) _ 0
                         "create" eq_refl eq_refl Hk))).
Defined.

(** ** A verb at the end of a fluent expression *)

Lemma path_text_app p1 p2 : path_text (p1 ++ p2) = path_text p1 +:+ path_text p2.
Proof.
  induction p1 as [|[s [id|]] p1 IH]; [done| |]; cbn [app path_text];
    rewrite IH, <- ?append_assoc; done.
Qed.

Section LastStep.

Variable conf : config.
Variable written : list string.
Hypothesis Hfree : names_free conf own_names.
Hypothesis Hwritten : ∀ k, k ∈ own_names → k ∉ written.

(** The last step of a fluent expression: the object it yields holds
    the methods of [proto] that no child replaces, and has its route. *)
Lemma last_step h cur kids r s v' oid :
  standing conf written h cur (Sub kids) r → lookup_key s kids = Some v' →
  ∃ h' l, navigate conf h cur [Step s oid] = Some (h', l)
    ∧ extends (λ _ k, k = "out") h h'
    ∧ (∀ k m, proto conf s !! k = Some m → k ∉ keys (kids_of v') → k ∉ written →
         get h' l k = m)
    ∧ has_route conf h' l (r +:+ path_text [Step s oid]).
Proof.
  intros Hst E.
  destruct (standing_attached conf written h cur kids r s v' Hst E)
    as ((fn & Hlt & Hget & Hkind & Hprops & _) & Hwf & Hav).
  simpl in Hget, Hkind, Hprops.
  destruct oid as [id|]; cbn [navigate path_text].
  - destruct Hst as (_ & Hbase & Hout & Hcur & _ & _).
    destruct (call_fresh conf written Hfree h cur fn r s v' id Hget Hkind Hout Hcur Hbase Hwf Hav)
      as (h' & Hcall & Hext & _ & _ & Hr & _).
    destruct (invoke_spec conf h cur fn cur s v' id Hkind Hout) as
      (h'' & Hinv & _ & _ & _ & Hprops' & _); [by apply lookup_lt_is_Some | done |].
    unfold call_resource in Hcall. rewrite Hget, Hinv in Hcall. injection Hcall as ->.
    exists h', (length h). unfold call_resource. rewrite Hget, Hinv.
    split; [done|]. split; [|split].
    + eapply extends_weaken; [exact Hext|]. naive_solver.
    + intros k m Hm Hk _. rewrite (Hprops' k Hk). by apply fresh_props_method.
    + by rewrite append_nil_r.
  - destruct (step_plain conf written Hfree Hwritten h cur kids r s v' Hst E)
      as (fn' & Hget' & _ & Hr & _).
    rewrite Hget' in Hget. injection Hget as ->.
    exists h, fn. rewrite Hget'. split; [done|]. split; [apply extends_refl|]. split.
    + intros k m Hm Hk Hw. rewrite (Hprops k Hk Hw). by apply fresh_props_method.
    + by rewrite append_nil_r.
Qed.

End LastStep.

(** X16: a verb at the end of a fluent expression, on the client as it
    was built and after any use.  On a client where no segment and no
    method is called [_route], [_out] or [out] and none has the name of
    a member of [Object.prototype], the expression
    [api.s1(id1)...s(id).key(arg, cb)], with or without identifiers,
    where [key] is a method name of [proto] that no child of the last
    resource bears, does what that verb does with the route of the
    expression: the clean root followed by [/segment] and [/identifier]
    of each step; and the heap it leaves is a later heap of the client. *)
Theorem verb_at_path cfg h0 api h1 path s oid w key op arg cb :
  quickrest cfg = Some (h0, api) →
  ordinary cfg = true →
  names_free cfg kept_names →
  avoids kept_names (Sub (resource_tree cfg)) →
  used h0 h1 →
  descend (Sub (resource_tree cfg)) (seg <$> (path ++ [Step s oid])) = Some w →
  proto cfg s !! key = Some (VVerb op s) →
  key ∉ keys (kids_of w) →
  ∃ h l n,
    navigate cfg h1 api (path ++ [Step s oid]) = Some (h, l)
    ∧ used h0 h
    ∧ ∀ fuel, n ≤ fuel →
        call_verb cfg fuel h l key arg cb
        = Some (h, run_verb cfg op s
                     (cleanroot (root cfg) +:+ path_text (path ++ [Step s oid])) arg cb).
Proof.
  intros Hb _ Hfree Hav Hused Hd Hm Hk.
  assert (Hfree' : names_free cfg own_names) by (intros k' Hk'; by apply Hfree, kept_own).
  assert (Hkey : key ∉ call_writes).
  { intros Hin. apply kept_written, Hfree in Hin.
    by rewrite (proto_lookup_None cfg s key Hin) in Hm. }
  rewrite fmap_app, descend_app in Hd.
  destruct (descend (Sub (resource_tree cfg)) (seg <$> path)) as [w0|] eqn:E0; [|done].
  cbn [fmap list_fmap seg descend] in Hd.
  destruct w0 as [|kids]; [done|].
  destruct (lookup_key s kids) as [v'|] eqn:E; [|done]. injection Hd as ->.
  destruct (navigate_sound cfg call_writes Hfree' own_not_written path h1 api _ _ _ E0
              (used_standing cfg h0 api h1 Hb Hav Hused))
    as (h2 & cur & Hnav & Hext & Hst & _).
  destruct (last_step cfg call_writes Hfree' own_not_written h2 cur kids _ s w oid Hst E)
    as (h & l & Hnav' & Hext' & Hprops & Hr).
  destruct (call_route_complete cfg _ _ _ Hr) as [n Hn].
  exists h, l, n. split; [|split].
  - by rewrite navigate_app, Hnav.
  - eapply extends_weaken;
      [apply (extends_trans _ _ _ _ _ (extends_trans _ _ _ _ _ Hused Hext) Hext')|].
    naive_solver.
  - intros fuel Hf. unfold call_verb. rewrite (Hprops key _ Hm Hk Hkey), (Hn fuel Hf).
    by rewrite path_text_app, append_assoc.
Qed.

Lemma verb_at_path_witness :
  ∃ h l n,
    navigate (example_cfg [Simple "users/posts"] [])
      (loop (example_cfg [Simple "users/posts"] [])
            (Sub (resource_tree (example_cfg [Simple "users/posts"] []))) 0 [Object KAccum ∅])
      0 ([Step "users" (Some "9000")] ++ [Step "posts" None]) = Some (h, l)
    ∧ ∀ fuel, n ≤ fuel →
        call_verb (example_cfg [Simple "users/posts"] []) fuel h l "create"
                  {["title" := "t"]} None
        = Some (h, run_verb (example_cfg [Simple "users/posts"] []) Create "posts"
                     (cleanroot "https://api.example.com"
                      +:+ path_text ([Step "users" (Some "9000")] ++ [Step "posts" None]))
                     {["title" := "t"]} None).
Proof.
  set (cfg := example_cfg [Simple "users/posts"] []).
  assert (Hav : avoids kept_names (Sub (resource_tree cfg))).
  { change (resource_tree cfg) with [("users", Sub [("posts", One)])].
    avoids_by_computation. }
  destruct (verb_at_path cfg _ 0 _ [Step "users" (Some "9000")] "posts" None One "create" Create
              {["title" := "t"]} None eq_refl eq_refl (names_free_kept_no_alt cfg eq_refl) Hav
              (extends_refl _ _) eq_refl)
    as (h & l & n & Hnav & _ & Hv).
  - reflexivity.
  - apply not_elem_of_nil.
  - exists h, l, n. auto.
Defined.

(** ** What the compiler leaves alone, and what an instance holds *)

(** X17: compiling the entries of a tree value onto [accum] only adds
    objects and writes, on [accum], the properties named like the
    entries; every other property of every object that was there, and
    the kind of each, is as before. *)
Theorem loop_frame cfg v accum h l o :
  accum < length h → h !! l = Some o →
  ∃ o', loop cfg v accum h !! l = Some o'
        ∧ okind o' = okind o
        ∧ ∀ k, l ≠ accum ∨ k ∉ keys (kids_of v) → oprops o' !! k = oprops o !! k.
Proof.
  intros Ha Hl. destruct (loop_extends cfg v accum h Ha) as [_ H].
  destruct (H l o Hl) as (o' & E & Hk & Hp). exists o'. split; [done|]. split; [done|].
  intros k Hd. apply Hp. intros [-> Hin]. by destruct Hd.
Qed.

Lemma loop_frame_witness :
  ∃ o', loop (example_cfg [Simple "users"] []) (Sub [("users", One)]) 0
             [Object KAccum {["version" := VUndef]}] !! 0 = Some o'
        ∧ okind o' = KAccum
        ∧ ∀ k, 0 ≠ 0 ∨ k ∉ keys (kids_of (Sub [("users", One)])) →
               oprops o' !! k = ({["version" := VUndef]} : gmap string value) !! k.
Proof.
  assert (H : 0 < length [Object KAccum {["version" := VUndef]}]) by (simpl; lia).
  exact (loop_frame (example_cfg [Simple "users"] []) (Sub [("users", One)]) 0
           [Object KAccum {["version" := VUndef]}] 0 (Object KAccum {["version" := VUndef]})
           H eq_refl).
Defined.



(** X19: the [resource] of a configured endpoint is split at the
    separators but not compacted.  On a configuration without a name of
    [Object.prototype], one that starts with a separator puts the
    resource under a top-level resource with the empty name, where a
    string declaration with the same text would not. *)
Theorem configured_resource_keeps_empty_pieces cfg h api c r :
  quickrest cfg = Some (h, api) →
  ordinary cfg = true →
  Configured c ∈ endpoints cfg →
  rc_resource c = "/" +:+ r →
  is_Some (navigate cfg h api (plain_path (EmptyString :: Str.split r)))
  ∧ clean (rc_resource c) = clean r.
Proof.
  intros Hb Hord Hin Hr. split.
  - apply (navigable_iff_declared cfg h api _ Hb Hord); [done|].
    exists (Configured c), (Str.split (rc_resource c)).
    split; [done|]. split; [apply list_elem_of_here|]. by rewrite Hr.
  - rewrite Hr. apply (clean_leading_separator r).
Qed.

Lemma configured_resource_keeps_empty_pieces_witness :
  is_Some (navigate (example_cfg [Configured (ResourceConfig "/comments" [] None ∅)] [])
             (loop (example_cfg [Configured (ResourceConfig "/comments" [] None ∅)] [])
                   (Sub (resource_tree
                           (example_cfg [Configured (ResourceConfig "/comments" [] None ∅)] [])))
                   0 [Object KAccum ∅])
             0 (plain_path [EmptyString; "comments"])).
Proof.
  exact (proj1 (configured_resource_keeps_empty_pieces
                  (example_cfg [Configured (ResourceConfig "/comments" [] None ∅)] []) _ 0
                  (ResourceConfig "/comments" [] None ∅) "comments" eq_refl eq_refl
                  (list_elem_of_here _ _) eq_refl)).
Defined.
(** ** The array-based revision *)

Section LegacyHeap.

Implicit Types (h : Legacy.heap) (l : loc) (k : string) (v : value).

Lemma legacy_get_app h h2 l k :
  is_Some (h !! l) → Legacy.get (h ++ h2) l k = Legacy.get h l k.
Proof.
  intros Hs. unfold Legacy.get. by rewrite lookup_app_l by (by apply lookup_lt_is_Some).
Qed.

Lemma legacy_get_new h o k :
  Legacy.get (h ++ [o]) (length h) k = default VUndef (Legacy.oprops o !! k).
Proof. unfold Legacy.get. by rewrite list_lookup_middle. Qed.

Lemma legacy_get_set_prop h l l' k k' v :
  Legacy.get (Legacy.set_prop l k v h) l' k' =
    if decide (l' = l ∧ k' = k ∧ (l < length h)%nat) then v else Legacy.get h l' k'.
Proof.
  unfold Legacy.get, Legacy.set_prop. destruct (decide (l' = l)) as [->|Hne].
  - rewrite list_lookup_alter_eq. destruct (h !! l) as [o|] eqn:E; rewrite ?E; simpl.
    + apply lookup_lt_Some in E as Hlt. destruct (decide (k' = k)) as [->|Hk].
      * rewrite lookup_insert_eq, decide_True by done. done.
      * rewrite lookup_insert_ne by done. rewrite decide_False by naive_solver. done.
    + apply lookup_ge_None in E. rewrite decide_False by lia. done.
  - rewrite list_lookup_alter_ne by congruence. rewrite decide_False by naive_solver. done.
Qed.

Lemma legacy_get_eq h h' l k : h' !! l = h !! l → Legacy.get h' l k = Legacy.get h l k.
Proof. unfold Legacy.get. by intros ->. Qed.

Lemma legacy_get_truthy h l k : truthy (Legacy.get h l k) = true → is_Some (h !! l).
Proof. unfold Legacy.get. destruct (h !! l); [eauto | done]. Qed.

End LegacyHeap.

Section LegacyFacts.

Variable conf : config.

Implicit Types (h : Legacy.heap) (l : loc) (k : string) (v : value).

Lemma legacy_proto_None resource k :
  k ∉ Legacy.method_names conf → Legacy.proto conf resource !! k = None.
Proof.
  unfold Legacy.method_names, Legacy.proto. rewrite !not_elem_of_cons. intros H.
  repeat (rewrite lookup_insert_ne by naive_solver). apply lookup_empty.
Qed.

Lemma legacy_fresh_props_route route name :
  "_route" ∉ Legacy.method_names conf →
  Legacy.fresh_props conf route name !! "_route" = Some route.
Proof.
  intros H. unfold Legacy.fresh_props.
  rewrite lookup_union_r by (by apply legacy_proto_None). apply lookup_singleton_eq.
Qed.

Lemma legacy_fresh_props_None route name k :
  k ∉ "_route" :: Legacy.method_names conf →
  Legacy.fresh_props conf route name !! k = None.
Proof.
  rewrite not_elem_of_cons. intros [H1 H2]. unfold Legacy.fresh_props.
  rewrite lookup_union_r by (by apply legacy_proto_None). by apply lookup_singleton_ne.
Qed.

(** What [loop] does to a heap: it adds objects, it changes no object
    but [accum], it leaves what [accum] holds already, and under a name
    that [accum] does not hold it puts the resource function of the first
    array that starts with the name. *)
Lemma legacy_loop_spec ps : ∀ h accum,
  accum < length h →
  length h ≤ length (Legacy.loop conf ps accum h)
  ∧ (∀ l, l < length h → l ≠ accum → Legacy.loop conf ps accum h !! l = h !! l)
  ∧ Legacy.kind_of (Legacy.loop conf ps accum h) accum = Legacy.kind_of h accum
  ∧ (∀ s, truthy (Legacy.get h accum s) = true →
       Legacy.get (Legacy.loop conf ps accum h) accum s = Legacy.get h accum s)
  ∧ (∀ s, Legacy.get h accum s = VUndef →
       match Legacy.first_with_head s ps with
       | Some subs =>
           ∃ fn, length h ≤ fn
             ∧ Legacy.get (Legacy.loop conf ps accum h) accum s = VRef fn
             ∧ Legacy.loop conf ps accum h !! fn
               = Some (Legacy.Object (Legacy.KNamespace accum s subs)
                         (Legacy.fresh_props conf (VNodeRoute accum s) s))
       | None => Legacy.get (Legacy.loop conf ps accum h) accum s = VUndef
       end).
Proof.
  induction ps as [|xs rest IH]; intros h accum Ha.
  { simpl. repeat split; (done || lia). }
  destruct xs as [|t subs].
  { simpl. repeat split; (done || lia). }
  cbn [Legacy.loop Legacy.first_with_head].
  destruct (truthy (Legacy.get h accum t)) eqn:Et.
  - destruct (IH h accum Ha) as (H1 & H2 & H3 & H4 & H5).
    split; [done|]. split; [done|]. split; [done|]. split; [done|].
    intros s Hs. destruct (decide (t = s)) as [->|Hne]; [by rewrite Hs in Et|]. by apply H5.
  - set (o := Legacy.Object (Legacy.KNamespace accum t subs)
                (Legacy.fresh_props conf (VNodeRoute accum t) t)).
    set (h2 := Legacy.set_prop accum t (VRef (length h)) (h ++ [o])).
    assert (L2 : length h2 = S (length h)).
    { unfold h2, Legacy.set_prop. rewrite length_alter, length_app. simpl. lia. }
    assert (Hl2 : ∀ l, l ≠ accum → h2 !! l = (h ++ [o]) !! l).
    { intros l Hl. unfold h2, Legacy.set_prop. by rewrite list_lookup_alter_ne by congruence. }
    assert (Hg2 : ∀ s, Legacy.get h2 accum s
                        = if decide (s = t) then VRef (length h) else Legacy.get h accum s).
    { intros s. unfold h2. rewrite legacy_get_set_prop.
      destruct (decide (s = t)) as [->|Hne].
      - rewrite decide_True; [done|]. rewrite length_app. simpl. split; [done|]. split; [done|lia].
      - rewrite decide_False by naive_solver.
        apply legacy_get_app. by apply lookup_lt_is_Some. }
    destruct (IH h2 accum) as (H1 & H2 & H3 & H4 & H5); [lia|].
    split; [lia|]. split; [|split; [|split]].
    + intros l Hl Hne. rewrite H2 by (done || lia). rewrite Hl2 by done.
      by apply lookup_app_l.
    + rewrite H3. unfold h2, Legacy.kind_of, Legacy.set_prop.
      rewrite list_lookup_alter_eq, lookup_app_l by done.
      by destruct (h !! accum).
    + intros s Hs. assert (s ≠ t) by (intros ->; by rewrite Hs in Et).
      rewrite H4; rewrite Hg2, decide_False by done; done.
    + intros s Hs. destruct (decide (t = s)) as [->|Hne].
      * exists (length h). split; [done|]. split.
        -- rewrite H4; rewrite Hg2, decide_True by done; done.
        -- rewrite H2 by lia. rewrite Hl2 by lia. apply list_lookup_middle. done.
      * assert (Hs2 : Legacy.get h2 accum s = VUndef) by (by rewrite Hg2, decide_False).
        specialize (H5 s Hs2). destruct (Legacy.first_with_head s rest) as [subs'|]; [|done].
        destruct H5 as (fn & Hfn & Hget & Hobj). exists fn. split; [lia|done].
Qed.

(** A route stays what it is while the objects that were there stay
    what they are. *)
Lemma legacy_has_route_grow h h' l r :
  Legacy.has_route conf h l r → (∀ l', is_Some (h !! l') → h' !! l' = h !! l') →
  Legacy.has_route conf h' l r.
Proof.
  intros Hr Hsame.
  assert (Hget : ∀ l', is_Some (h !! l') → Legacy.get h' l' "_route" = Legacy.get h l' "_route").
  { intros l' Hs. by apply legacy_get_eq, Hsame. }
  assert (Hget' : ∀ l', truthy (Legacy.get h l' "_route") = true →
                        Legacy.get h' l' "_route" = Legacy.get h l' "_route").
  { intros l' Ht. apply Hget. by apply legacy_get_truthy in Ht. }
  induction Hr as [l accum name E Ha Eu|l accum name r E Ht _ IH
                  |l accum self name id E Ha Eu|l accum self name id r E Ht _ IH].
  - apply Legacy.hr_node_top with accum.
    + rewrite Hget', E; [done | by rewrite E].
    + rewrite Hsame; done.
    + by rewrite Hget.
  - apply Legacy.hr_node_sub with accum; [| |done].
    + rewrite Hget', E; [done | by rewrite E].
    + by rewrite Hget'.
  - apply Legacy.hr_inst_top with accum self.
    + rewrite Hget', E; [done | by rewrite E].
    + rewrite Hsame; done.
    + by rewrite Hget.
  - apply Legacy.hr_inst_sub with accum self; [| |done].
    + rewrite Hget', E; [done | by rewrite E].
    + by rewrite Hget'.
Qed.

Lemma legacy_call_route_complete h l r :
  Legacy.has_route conf h l r →
  ∃ n, ∀ fuel, n ≤ fuel → Legacy.call_route conf fuel h l = Some (h, r).
Proof.
  induction 1 as [l accum name E Ha Eu|l accum name r E Ht _ [n IH]
                 |l accum self name id E Ha Eu|l accum self name id r E Ht _ [n IH]].
  - exists 1. intros [|fuel] Hf; [lia|]. simpl. by rewrite E, Eu.
  - exists (S n). intros [|fuel] Hf; [lia|]. simpl. rewrite E, Ht, IH by lia. done.
  - exists 1. intros [|fuel] Hf; [lia|]. simpl. by rewrite E, Eu.
  - exists (S n). intros [|fuel] Hf; [lia|]. simpl. rewrite E, Ht, IH by lia. done.
Qed.

Lemma legacy_base_route_grow h h' cur r :
  Legacy.base_route conf h cur r → (∀ l', is_Some (h !! l') → h' !! l' = h !! l') →
  Legacy.base_route conf h' cur r.
Proof.
  intros [(Hs & Hu & ->)|[Ht Hr]] Hsame.
  - left. split; [by rewrite Hsame|]. split; [|done].
    by rewrite (legacy_get_eq h h' cur "_route") by (by apply Hsame).
  - right. split; [|by apply (legacy_has_route_grow h h')].
    rewrite (legacy_get_eq h h' cur "_route"); [done|].
    apply Hsame. by apply legacy_get_truthy in Ht.
Qed.

Hypothesis Hfree : "_route" ∉ Legacy.method_names conf.

(** A call of the resource function for [t], found on [cur]. *)
Lemma legacy_step_call h cur t subs r id :
  Legacy.standing conf h cur (t :: subs) r →
  Forall (λ s, s ∉ "_route" :: Legacy.method_names conf) subs →
  ∃ fn h', Legacy.get h cur t = VRef fn
    ∧ Legacy.invoke conf h fn id = Some (h', VRef (length h))
    ∧ Legacy.has_route conf h' (length h) (r +:+ "/" +:+ t +:+ "/" +:+ id)
    ∧ Legacy.standing conf h' (length h) subs (r +:+ "/" +:+ t +:+ "/" +:+ id).
Proof.
  intros [Hbase (fn & Hget & Hkind & Hroute)] Hok.
  exists fn. unfold Legacy.invoke. rewrite Hkind.
  set (o := Legacy.Object Legacy.KPlain
              (Legacy.fresh_props conf (VInstRoute cur cur t id) t)).
  assert (Hcur : is_Some (h !! cur)).
  { destruct Hbase as [(? & _)|[Ht _]]; [done|by apply legacy_get_truthy in Ht]. }
  assert (Hnew : ∀ k, Legacy.get (h ++ [o]) (length h) k
                      = default VUndef (Legacy.fresh_props conf (VInstRoute cur cur t id) t !! k)).
  { intros k. apply legacy_get_new. }
  assert (Hfinish : ∀ h', (∀ l', is_Some (h !! l') → h' !! l' = h !! l') →
            Legacy.get h' (length h) "_route" = VInstRoute cur cur t id →
            Legacy.has_route conf h' (length h) (r +:+ "/" +:+ t +:+ "/" +:+ id)
            ∧ Legacy.base_route conf h' (length h) (r +:+ "/" +:+ t +:+ "/" +:+ id)).
  { intros h' Hsame Er.
    assert (Hr : Legacy.has_route conf h' (length h) (r +:+ "/" +:+ t +:+ "/" +:+ id)).
    { destruct (legacy_base_route_grow h h' cur r Hbase Hsame) as [(Hs & Hu & ->)|[Ht Hr]].
      - by apply Legacy.hr_inst_top with cur cur.
      - by apply Legacy.hr_inst_sub with cur cur. }
    split; [done|]. right. split; [by rewrite Er|done]. }
  destruct subs as [|t' subs'].
  - exists (h ++ [o]). split; [done|]. split; [done|].
    destruct (Hfinish (h ++ [o])) as [Hr Hb].
    + intros l' Hs. by apply lookup_app_l, lookup_lt_is_Some.
    + by rewrite Hnew, legacy_fresh_props_route.
    + split; [done|]. by split.
  - exists (Legacy.loop conf [t' :: subs'] (length h) (h ++ [o])).
    split; [done|]. split; [done|].
    assert (Hlen : length h < length (h ++ [o])) by (rewrite length_app; simpl; lia).
    destruct (legacy_loop_spec [t' :: subs'] (h ++ [o]) (length h) Hlen)
      as (H1 & H2 & H3 & H4 & H5).
    apply Forall_cons in Hok as [Ht' Hok'].
    assert (Hsame : ∀ l', is_Some (h !! l') →
              Legacy.loop conf [t' :: subs'] (length h) (h ++ [o]) !! l' = h !! l').
    { intros l' Hs. apply lookup_lt_is_Some in Hs.
      rewrite H2 by (rewrite ?length_app; simpl; lia). by apply lookup_app_l. }
    destruct (Hfinish _ Hsame) as [Hr Hb].
    { rewrite H4; rewrite Hnew, legacy_fresh_props_route; done. }
    split; [done|]. split; [done|].
    specialize (H5 t'). rewrite Hnew, legacy_fresh_props_None in H5 by done.
    specialize (H5 eq_refl). cbn [Legacy.first_with_head] in H5.
    rewrite decide_True in H5 by done.
    destruct H5 as (fn' & Hfn' & Hg' & Ho'). exists fn'. split; [done|].
    unfold Legacy.kind_of, Legacy.get. rewrite Ho'. simpl. split; [done|].
    by rewrite legacy_fresh_props_route.
Qed.

Lemma legacy_navigate_sound path : ∀ h cur rest r,
  Legacy.standing conf h cur rest r →
  (seg <$> path) `prefix_of` rest →
  Legacy.called_but_last path →
  Forall (λ s, s ∉ "_route" :: Legacy.method_names conf) (tail rest) →
  ∃ h' l, Legacy.navigate conf h cur path = Some (h', l)
    ∧ (path ≠ [] → Legacy.has_route conf h' l (r +:+ path_text path)).
Proof.
  induction path as [|[s oid] path IH]; intros h cur rest r Hst Hpre Hcalled Hok.
  { exists h, cur. by split. }
  destruct Hpre as [k Hk]. destruct rest as [|t subs]; [done|].
  rewrite fmap_cons in Hk. cbn [seg] in Hk. injection Hk as -> Hk. simpl in Hok.
  destruct oid as [id|].
  - destruct (legacy_step_call h cur s subs r id Hst Hok) as (fn & h1 & Hget & Hinv & Hr & Hst1).
    destruct (IH h1 (length h) subs _ Hst1) as (h' & l & Hnav & Hr').
    + by exists k.
    + destruct path; [done|]. by destruct Hcalled.
    + destruct subs as [|? ?]; [done|]. simpl. by apply Forall_cons in Hok as [_ ?].
    + exists h', l. cbn [Legacy.navigate path_text]. rewrite Hget, Hinv.
      split; [done|]. intros _. destruct path as [|st path'].
      * simpl in Hnav. injection Hnav as <- <-. by rewrite append_nil_r.
      * rewrite <- !append_assoc. rewrite <- !append_assoc in Hr'. by apply Hr'.
  - destruct path as [|st path']; [|by destruct Hcalled as [[? ?] _]].
    destruct Hst as [Hbase (fn & Hget & Hkind & Hroute)].
    exists h, fn. cbn [Legacy.navigate path_text]. rewrite Hget. split; [done|].
    intros _. rewrite append_nil_r.
    destruct Hbase as [(Hs & Hu & ->)|[Ht Hr]].
    + by apply Legacy.hr_node_top with cur.
    + by apply Legacy.hr_node_sub with cur.
Qed.

End LegacyFacts.

Lemma legacy_client_spec cfg s :
  match Legacy.first_with_head s (segs <$> all_paths (endpoints cfg) (commonVersions cfg)) with
  | Some subs =>
      ∃ fn, Legacy.get (Legacy.client cfg) 0 s = VRef fn
        ∧ Legacy.client cfg !! fn
          = Some (Legacy.Object (Legacy.KNamespace 0 s subs)
                    (Legacy.fresh_props cfg (VNodeRoute 0 s) s))
  | None => Legacy.get (Legacy.client cfg) 0 s = VUndef
  end.
Proof.
  unfold Legacy.client.
  destruct (legacy_loop_spec cfg (segs <$> all_paths (endpoints cfg) (commonVersions cfg))
              [Legacy.Object Legacy.KAccum ∅] 0) as (_ & _ & _ & _ & H); [simpl; lia|].
  specialize (H s eq_refl).
  destruct (Legacy.first_with_head s _) as [subs|]; [|done].
  destruct H as (fn & _ & Hg & Ho). eauto.
Qed.

Lemma legacy_client_alloc cfg : is_Some (Legacy.client cfg !! 0).
Proof.
  unfold Legacy.client.
  destruct (legacy_loop_spec cfg (segs <$> all_paths (endpoints cfg) (commonVersions cfg))
              [Legacy.Object Legacy.KAccum ∅] 0) as (H & _); [simpl; lia|].
  apply lookup_lt_is_Some. simpl in H. lia.
Qed.

(** X20: the route in the array-based revision, on a configuration
    without a name that a function object answers for.  Let [s :: subs]
    be the first of the sorted arrays that starts with [s], and let no
    method and no top-level resource be called [_route] and no segment
    of [subs] be called [_route] or like a method.  Then an expression
    [api.s(id1).s2(id2)...] along this array, in which every resource
    but the last is called, reaches an object whose route is the clean
    root followed by [/segment] and [/identifier] of each step. *)
Theorem legacy_route_of_a_fluent_path cfg s subs path :
  Legacy.ordinary cfg = true →
  "_route" ∉ Legacy.method_names cfg →
  Legacy.first_with_head "_route" (segs <$> all_paths (endpoints cfg) (commonVersions cfg))
    = None →
  Legacy.first_with_head s (segs <$> all_paths (endpoints cfg) (commonVersions cfg))
    = Some subs →
  Forall (λ t, t ∉ "_route" :: Legacy.method_names cfg) subs →
  path ≠ [] → (seg <$> path) `prefix_of` (s :: subs) → Legacy.called_but_last path →
  ∃ h' l n,
    Legacy.navigate cfg (Legacy.client cfg) 0 path = Some (h', l)
    ∧ ∀ fuel, n ≤ fuel →
        Legacy.call_route cfg fuel h' l
        = Some (h', cleanroot (root cfg) +:+ path_text path).
Proof.
  intros _ Hfree Hroute Hs Hok Hne Hpre Hcalled.
  pose proof (legacy_client_spec cfg "_route") as Hr. rewrite Hroute in Hr.
  pose proof (legacy_client_spec cfg s) as Hc. rewrite Hs in Hc.
  destruct Hc as (fn & Hg & Ho).
  assert (Hst : Legacy.standing cfg (Legacy.client cfg) 0 (s :: subs) (cleanroot (root cfg))).
  { split.
    - left. split; [apply legacy_client_alloc|]. by split.
    - exists fn. split; [done|]. unfold Legacy.kind_of, Legacy.get. rewrite Ho. simpl.
      split; [done|]. by rewrite legacy_fresh_props_route. }
  destruct (legacy_navigate_sound cfg Hfree path _ 0 _ _ Hst Hpre Hcalled Hok)
    as (h' & l & Hnav & Hhr).
  destruct (legacy_call_route_complete cfg _ _ _ (Hhr Hne)) as [n Hn].
  by exists h', l, n.
Qed.

Lemma legacy_route_of_a_fluent_path_witness :
  ∃ h' l n,
    Legacy.navigate (example_cfg [Simple "users/posts"] [])
      (Legacy.client (example_cfg [Simple "users/posts"] [])) 0
      [Step "users" (Some "9000"); Step "posts" (Some "3")] = Some (h', l)
    ∧ ∀ fuel, n ≤ fuel →
        Legacy.call_route (example_cfg [Simple "users/posts"] []) fuel h' l
        = Some (h', cleanroot "https://api.example.com"
                    +:+ path_text [Step "users" (Some "9000"); Step "posts" (Some "3")]).
Proof.
  apply (legacy_route_of_a_fluent_path (example_cfg [Simple "users/posts"] [])
           "users" ["posts"] [Step "users" (Some "9000"); Step "posts" (Some "3")]).
  - reflexivity.
  - unfold Legacy.method_names. simpl. rewrite !not_elem_of_cons.
    repeat split; (done || apply not_elem_of_nil).
  - reflexivity.
  - reflexivity.
  - repeat constructor. unfold Legacy.method_names. simpl. rewrite !not_elem_of_cons.
    repeat split; (done || apply not_elem_of_nil).
  - discriminate.
  - by exists [].
  - simpl. split; [by eexists|done].
Defined.

Lemma legacy_fresh_props_no_ref cfg route s k l :
  (∀ l', route ≠ VRef l') →
  default VUndef (Legacy.fresh_props cfg route s !! k) ≠ VRef l.
Proof.
  intros Hr. unfold Legacy.fresh_props. destruct (Legacy.proto cfg s !! k) as [m|] eqn:E.
  - rewrite (lookup_union_Some_l _ _ _ _ E). simpl. revert E. unfold Legacy.proto.
    repeat (rewrite lookup_insert_Some; intros [[_ <-]|[_ E]]; [done|revert E]).
    by rewrite lookup_empty.
  - rewrite (lookup_union_r _ _ _ E).
    destruct (decide (k = "_route")) as [->|Hne].
    + rewrite lookup_singleton_eq. simpl. apply Hr.
    + by rewrite lookup_singleton_ne.
Qed.

(** X21: in the array-based revision a resource function stands for one
    array only.  On a configuration without a name that a function
    object answers for, the client holds, under a name [s] that is no
    such name either, the function of the first of the sorted arrays
    that starts with [s], and nothing when there is none; later arrays
    with that first segment are passed over, and the object a call
    returns holds no resource function but the one for the next segment
    of that array. *)
Theorem legacy_first_path_wins cfg s :
  Legacy.ordinary cfg = true →
  s ∉ function_members →
  match Legacy.first_with_head s (segs <$> all_paths (endpoints cfg) (commonVersions cfg)) with
  | Some subs =>
      ∃ fn, Legacy.get (Legacy.client cfg) 0 s = VRef fn
        ∧ Legacy.kind_of (Legacy.client cfg) fn = Some (Legacy.KNamespace 0 s subs)
        ∧ ∀ id, ∃ h' out,
            Legacy.invoke cfg (Legacy.client cfg) fn id = Some (h', VRef out)
            ∧ ∀ k fn', Legacy.get h' out k = VRef fn' → ∃ subs', subs = k :: subs'
  | None => Legacy.get (Legacy.client cfg) 0 s = VUndef
  end.
Proof.
  intros _ _. pose proof (legacy_client_spec cfg s) as H.
  destruct (Legacy.first_with_head s _) as [subs|]; [|done].
  destruct H as (fn & Hg & Ho). exists fn. split; [done|].
  assert (Hk : Legacy.kind_of (Legacy.client cfg) fn = Some (Legacy.KNamespace 0 s subs)).
  { unfold Legacy.kind_of. by rewrite Ho. }
  split; [done|]. intros id. unfold Legacy.invoke. rewrite Hk.
  set (h := Legacy.client cfg).
  set (o := Legacy.Object Legacy.KPlain (Legacy.fresh_props cfg (VInstRoute 0 0 s id) s)).
  assert (Hnew : ∀ k fn', Legacy.get (h ++ [o]) (length h) k ≠ VRef fn').
  { intros k fn'. rewrite legacy_get_new. by apply legacy_fresh_props_no_ref. }
  destruct subs as [|t subs'].
  - exists (h ++ [o]), (length h). split; [done|]. intros k fn' E. by destruct (Hnew k fn').
  - exists (Legacy.loop cfg [t :: subs'] (length h) (h ++ [o])), (length h).
    split; [done|]. intros k fn' E.
    destruct (legacy_loop_spec cfg [t :: subs'] (h ++ [o]) (length h))
      as (_ & _ & _ & H4 & H5); [rewrite length_app; simpl; lia|].
    destruct (truthy (Legacy.get (h ++ [o]) (length h) k)) eqn:Et.
    + rewrite (H4 k Et) in E. by destruct (Hnew k fn').
    + assert (Eu : Legacy.get (h ++ [o]) (length h) k = VUndef).
      { by destruct (Legacy.get (h ++ [o]) (length h) k). }
      specialize (H5 k Eu). cbn [Legacy.first_with_head] in H5.
      destruct (decide (t = k)) as [->|Hne]; [eauto|]. by rewrite H5 in E.
Qed.

Lemma legacy_first_path_wins_witness :
  ∃ fn, Legacy.get (Legacy.client (example_cfg [Simple "users"; Simple "users/posts"] []))
                   0 "users" = VRef fn
        ∧ Legacy.kind_of (Legacy.client (example_cfg [Simple "users"; Simple "users/posts"] []))
                         fn = Some (Legacy.KNamespace 0 "users" ["posts"]).
Proof.
  assert (Hs : "users" ∉ function_members).
  { unfold function_members, object_members. simpl. rewrite !not_elem_of_cons.
    repeat split; (done || apply not_elem_of_nil). }
  pose proof (legacy_first_path_wins (example_cfg [Simple "users"; Simple "users/posts"] [])
                "users" eq_refl Hs) as H.
  assert (E : Legacy.first_with_head "users"
                (segs <$> all_paths
                   (endpoints (example_cfg [Simple "users"; Simple "users/posts"] []))
                   (commonVersions (example_cfg [Simple "users"; Simple "users/posts"] [])))
              = Some ["posts"]) by reflexivity.
  rewrite E in H. destruct H as (fn & Hg & Hk & _). exists fn. split; [exact Hg | exact Hk].
Defined.

Lemma map_sorted {A B} (f : A → B) (R : B → B → Prop) l :
  StronglySorted (λ a b, R (f a) (f b)) l → StronglySorted R (f <$> l).
Proof.
  induction 1 as [|x l Hs IH Hall]; [constructor|].
  rewrite fmap_cons. constructor; [done|]. by apply Forall_fmap.
Qed.

Lemma legacy_loop_sorted cfg ps :
  StronglySorted (λ a b : list string, length b ≤ length a) ps →
  ∀ accum h,
    Legacy.loop cfg ps accum h = Legacy.loop cfg (filter (λ xs, xs ≠ []) ps) accum h.
Proof.
  induction 1 as [|xs rest Hs IH Hall]; intros accum h; [done|].
  destruct xs as [|t subs].
  - rewrite filter_cons_False by (by intros H; apply H).
    assert (E : filter (λ xs : list string, xs ≠ []) rest = []).
    { clear -Hall. induction Hall as [|y l Hy _ IHl]; [done|].
      destruct y; [|simpl in Hy; lia]. by rewrite filter_cons_False by (by intros H; apply H). }
    by rewrite E.
  - rewrite filter_cons_True by done. cbn [Legacy.loop].
    destruct (truthy (Legacy.get h accum t)); by rewrite IH.
Qed.

(** X22: in the array-based revision an empty array ends the loop, and
    as the arrays are sorted longest first nothing comes after it: the
    client is the one built from the non-empty arrays, and it has a
    resource called "undefined" only if a declared path starts with a
    segment of that name. *)
Theorem legacy_empty_declaration_adds_nothing cfg :
  (∀ l1 l2 accum h,
     Legacy.loop cfg (l1 ++ [] :: l2) accum h = Legacy.loop cfg (l1 ++ [[]]) accum h)
  ∧ Legacy.client cfg
    = Legacy.loop cfg
        (filter (λ xs, xs ≠ []) (segs <$> all_paths (endpoints cfg) (commonVersions cfg)))
        0 [Legacy.Object Legacy.KAccum ∅]
  ∧ ((∀ xs, xs ∈ all_paths (endpoints cfg) (commonVersions cfg) →
        head (segs xs) ≠ Some "undefined") →
     Legacy.get (Legacy.client cfg) 0 "undefined" = VUndef).
Proof.
  split; [|split].
  - induction l1 as [|xs l1 IH]; intros l2 accum h; [done|].
    destruct xs as [|t subs]; [done|]. cbn [app Legacy.loop].
    destruct (truthy (Legacy.get h accum t)); by rewrite IH.
  - unfold Legacy.client. apply legacy_loop_sorted, map_sorted, all_paths_sorted.
  - intros Hno. pose proof (legacy_client_spec cfg "undefined") as H.
    assert (E : Legacy.first_with_head "undefined"
                  (segs <$> all_paths (endpoints cfg) (commonVersions cfg)) = None).
    { revert Hno. generalize (all_paths (endpoints cfg) (commonVersions cfg)).
      induction l as [|x l IH]; intros Hno; [done|].
      rewrite fmap_cons. cbn [Legacy.first_with_head].
      destruct (segs x) as [|t subs] eqn:Ex; [done|].
      destruct (decide (t = "undefined")) as [->|Hne].
      - destruct (Hno x (list_elem_of_here _ _)). by rewrite Ex.
      - apply IH. intros xs Hxs. apply Hno. by apply list_elem_of_further. }
    by rewrite E in H.
Qed.

Lemma legacy_empty_declaration_adds_nothing_witness :
  Legacy.get (Legacy.client (example_cfg [Simple "users"; Simple EmptyString] [])) 0 "undefined"
  = VUndef.
Proof.
  apply (proj2 (proj2 (legacy_empty_declaration_adds_nothing
                         (example_cfg [Simple "users"; Simple EmptyString] [])))).
  intros xs Hxs.
  remember (all_paths (endpoints (example_cfg [Simple "users"; Simple EmptyString] []))
              (commonVersions (example_cfg [Simple "users"; Simple EmptyString] []))) as l eqn:El.
  vm_compute in El. subst l.
  rewrite !elem_of_cons in Hxs. destruct Hxs as [->|[->|[->|Hxs]]]; try done.
  by apply elem_of_nil in Hxs.
Defined.
(** ** The request function built on superagent *)

(** X23: what the built-in request function delivers.  When a response
    came, the callback, if it is a function, is called once with the
    error and with the status and body of the response, and after it the
    promise is rejected with the error if there is one and fulfilled with
    the same status and body if not; [makeRequest] and [requestFactory]
    with a promise library do the same.  When no response came, the
    handler throws before either of them is told. *)
Theorem transport_delivery cb r :
  match Transport.res r with
  | Some rs =>
      cb ≠ Falsy →
      Transport.makeRequest cb r = Transport.requestFactory true cb r
      ∧ Transport.requestFactory true cb r
        = [Transport.Callback cb (Transport.err r)
             (Transport.Out (Transport.status rs) (Transport.body rs));
           match Transport.err r with
           | Some e => Transport.Reject e
           | None => Transport.Resolve (Transport.Out (Transport.status rs) (Transport.body rs))
           end]
      ∧ Transport.requestFactory false cb r
        = [Transport.Callback cb (Transport.err r)
             (Transport.Out (Transport.status rs) (Transport.body rs))]
  | None =>
      Transport.makeRequest cb r = [Transport.TypeError]
      ∧ ∀ promiseLib, Transport.requestFactory promiseLib cb r = [Transport.TypeError]
  end.
Proof.
  unfold Transport.makeRequest, Transport.requestFactory, Transport.settle.
  destruct (Transport.res r) as [rs|]; [|by split].
  intros Hcb. by destruct cb.
Qed.

Lemma transport_delivery_witness :
  Transport.makeRequest (Fn 1)
    (Transport.Reply (Some "Not Found") (Some (Transport.Response 404 "{}")))
  = [Transport.Callback (Fn 1) (Some "Not Found") (Transport.Out 404 "{}");
     Transport.Reject "Not Found"].
Proof.
  destruct (transport_delivery (Fn 1)
              (Transport.Reply (Some "Not Found") (Some (Transport.Response 404 "{}"))))
    as (H1 & H2 & _); [discriminate|].
  rewrite H1. exact H2.
Defined.

(** ** What the record of a configured endpoint changes *)

Lemma all_paths_eq eps cvs :
  all_paths eps cvs
  = sort_longest_first
      (filter (λ ls, segs ls ≠ []) (map declared eps) ++ flat_map (replicas cvs) eps).
Proof.
  unfold all_paths. pose proof (buildResources_simple eps cvs) as H1.
  pose proof (buildResources_eps eps cvs) as H2.
  destruct (buildResources eps cvs) as [[simple resources] vs]. simpl in H1, H2. by subst.
Qed.

Lemma sort_insert_same_segs x x' l l' :
  segs x = segs x' → Forall2 (λ a b, segs a = segs b) l l' →
  Forall2 (λ a b, segs a = segs b) (sort_insert x l) (sort_insert x' l').
Proof.
  intros Hx. induction 1 as [|y y' l l' Hy Hl IH]; simpl; [by repeat constructor|].
  rewrite Hx, Hy. destruct (length (segs y') <=? length (segs x')); by repeat constructor.
Qed.

Lemma sort_same_segs l l' :
  Forall2 (λ a b, segs a = segs b) l l' →
  Forall2 (λ a b, segs a = segs b) (sort_longest_first l) (sort_longest_first l').
Proof.
  unfold sort_longest_first.
  induction 1 as [|x x' l l' Hx Hl IH]; simpl; [constructor|]. by apply sort_insert_same_segs.
Qed.

Lemma filter_same_segs l l' :
  Forall2 (λ a b, segs a = segs b) l l' →
  Forall2 (λ a b, segs a = segs b)
    (filter (λ ls, segs ls ≠ []) l) (filter (λ ls, segs ls ≠ []) l').
Proof.
  induction 1 as [|x x' l l' Hx Hl IH]; [constructor|].
  rewrite !filter_cons. rewrite <- Hx.
  destruct (decide (segs x ≠ [])); [by constructor|done].
Qed.

Lemma normalize_same_segs l l' :
  Forall2 (λ a b, segs a = segs b) l l' → normalize l = normalize l'.
Proof.
  unfold normalize. generalize ([] : rtree).
  intros t H. revert t. induction H as [|x x' l l' Hx Hl IH]; intros t; [done|].
  simpl. rewrite Hx. apply IH.
Qed.

Lemma resource_tree_bare cfg : resource_tree (bare_config cfg) = resource_tree cfg.
Proof.
  unfold resource_tree, bare_config, commonVersions. simpl.
  apply normalize_same_segs. rewrite !all_paths_eq. apply sort_same_segs, Forall2_app.
  - apply filter_same_segs. induction (endpoints cfg) as [|e eps IH]; [constructor|].
    rewrite fmap_cons. cbn [map]. constructor; [by destruct e|done].
  - assert (E : flat_map (replicas (Str.compact (versions cfg))) (bare <$> endpoints cfg)
                = flat_map (replicas (Str.compact (versions cfg))) (endpoints cfg)).
    { induction (endpoints cfg) as [|e eps IH]; [done|].
      rewrite fmap_cons. cbn [flat_map]. rewrite IH. by destruct e. }
    rewrite E. by apply Forall_Forall2_diag, Forall_forall.
Qed.

Lemma loop_same_names cfg cfg' v :
  altMethodNames cfg' = altMethodNames cfg →
  ∀ accum h, loop cfg' v accum h = loop cfg v accum h.
Proof.
  intros Halt.
  assert (Hnew : ∀ a name w, new_fn cfg' a name w = new_fn cfg a name w).
  { intros a name w. unfold new_fn, fresh_props, proto. by rewrite Halt. }
  induction v as [|kids IH] using node_ind'; intros accum h; [done|].
  rewrite !loop_Sub. revert h.
  induction IH as [|e kids He _ IHk]; intros h; [done|].
  cbn [foldl]. rewrite !compile_key_eq, Hnew, He. apply IHk.
Qed.

(** X24: what the record of a configured endpoint configures has no
    effect.  With every configured endpoint reduced to its [resource]
    (no [versions], no [createMethod], no [headers]) construction gives
    the same heap, and calls of resource functions, routes and verbs
    give the same results. *)
Theorem endpoint_configuration_is_ignored cfg :
  resource_tree (bare_config cfg) = resource_tree cfg
  ∧ quickrest (bare_config cfg) = quickrest cfg
  ∧ (∀ h this fn id, invoke (bare_config cfg) h this fn id = invoke cfg h this fn id)
  ∧ (∀ fuel h this,
       call_route (bare_config cfg) fuel h this = call_route cfg fuel h this)
  ∧ (∀ op resource route arg cb,
       run_verb (bare_config cfg) op resource route arg cb
       = run_verb cfg op resource route arg cb).
Proof.
  assert (Hloop : ∀ v accum h, loop (bare_config cfg) v accum h = loop cfg v accum h).
  { intros v. by apply loop_same_names. }
  assert (Hinv : ∀ h this fn id, invoke (bare_config cfg) h this fn id = invoke cfg h this fn id).
  { intros h this fn id. unfold invoke. by destruct (kind_of h fn) as [[| |accum name v]|]. }
  split; [apply resource_tree_bare|]. split; [|split; [done|split]].
  - unfold quickrest. rewrite resource_tree_bare, Hloop.
    replace (buildable (bare_config cfg)) with (buildable cfg)
      by (unfold buildable; by rewrite resource_tree_bare).
    replace (validateConfig (bare_config cfg)) with (validateConfig cfg); [done|].
    unfold validateConfig, bare_config. simpl. f_equal. f_equal.
    by destruct (endpoints cfg).
  - done.
  - intros op resource route arg cb. by rewrite !run_verb_factory.
Qed.

Lemma first_with_head_longest s ps subs :
  StronglySorted (λ a b : list string, length b ≤ length a) ps →
  Legacy.first_with_head s ps = Some subs →
  (s :: subs) ∈ ps
  ∧ ∀ xs, xs ∈ ps → head xs = Some s → length xs ≤ length (s :: subs).
Proof.
  induction 1 as [|x rest Hs IH Hall]; [done|].
  destruct x as [|t sb]; [done|]. cbn [Legacy.first_with_head].
  destruct (decide (t = s)) as [->|Hne].
  - intros [= ->]. split; [apply list_elem_of_here|].
    intros xs Hxs _. apply elem_of_cons in Hxs as [->|Hxs]; [done|].
    rewrite Forall_forall in Hall. by apply Hall.
  - intros E. destruct (IH E) as [Hin Hlen]. split; [by apply list_elem_of_further|].
    intros xs Hxs Hhd. apply elem_of_cons in Hxs as [->|Hxs]; [|by apply Hlen].
    simpl in Hhd. congruence.
Qed.

Lemma first_with_head_found s ps xs :
  StronglySorted (λ a b : list string, length b ≤ length a) ps →
  xs ∈ ps → head xs = Some s → is_Some (Legacy.first_with_head s ps).
Proof.
  induction 1 as [|x rest Hs IH Hall]; intros Hin Hhd; [by apply elem_of_nil in Hin|].
  destruct x as [|t sb].
  - apply elem_of_cons in Hin as [->|Hin]; [done|].
    rewrite Forall_forall in Hall. apply Hall in Hin. destruct xs; [done|]. simpl in Hin. lia.
  - cbn [Legacy.first_with_head]. destruct (decide (t = s)) as [->|Hne]; [eauto|].
    apply elem_of_cons in Hin as [->|Hin]; [simpl in Hhd; congruence|]. by apply IH.
Qed.

(** X25: in the array-based revision the longest-first sort decides
    which path a resource function stands for.  On a configuration
    without a name that a function object answers for, whenever a path
    handed to [loop] starts with [s] the client holds under [s] a
    resource function; the array it was made for is one of those paths,
    and it is as long as any that starts with [s]. *)
Theorem legacy_longest_path_wins cfg s xs :
  Legacy.ordinary cfg = true →
  xs ∈ all_paths (endpoints cfg) (commonVersions cfg) →
  head (segs xs) = Some s →
  ∃ fn subs ys,
    Legacy.get (Legacy.client cfg) 0 s = VRef fn
    ∧ Legacy.kind_of (Legacy.client cfg) fn = Some (Legacy.KNamespace 0 s subs)
    ∧ ys ∈ all_paths (endpoints cfg) (commonVersions cfg)
    ∧ segs ys = s :: subs
    ∧ length (segs xs) ≤ length (s :: subs).
Proof.
  intros _ Hxs Hhd.
  pose proof (map_sorted segs (λ a b : list string, length b ≤ length a) _
                (all_paths_sorted (endpoints cfg) (commonVersions cfg))) as Hsorted.
  assert (Hin : segs xs ∈ segs <$> all_paths (endpoints cfg) (commonVersions cfg)).
  { apply list_elem_of_fmap. by exists xs. }
  destruct (first_with_head_found s _ (segs xs) Hsorted Hin Hhd) as [subs E].
  pose proof (legacy_client_spec cfg s) as Hc. rewrite E in Hc.
  destruct Hc as (fn & Hg & Ho).
  destruct (first_with_head_longest s _ subs Hsorted E) as [Hys Hlen].
  apply list_elem_of_fmap in Hys as (ys & Eys & Hys).
  exists fn, subs, ys. split; [done|]. split; [unfold Legacy.kind_of; by rewrite Ho|].
  split; [done|]. split; [done|]. by apply Hlen.
Qed.

Lemma legacy_longest_path_wins_witness :
  ∃ fn subs,
    Legacy.get (Legacy.client (example_cfg [Simple "users"; Simple "users/posts"] []))
               0 "users" = VRef fn
    ∧ Legacy.kind_of (Legacy.client (example_cfg [Simple "users"; Simple "users/posts"] []))
                     fn = Some (Legacy.KNamespace 0 "users" subs)
    ∧ length ["users"] ≤ length ("users" :: subs).
Proof.
  destruct (legacy_longest_path_wins (example_cfg [Simple "users"; Simple "users/posts"] [])
              "users" (plain ["users"]) eq_refl)
    as (fn & subs & ys & Hg & Hk & _ & _ & Hlen).
  - remember (all_paths (endpoints (example_cfg [Simple "users"; Simple "users/posts"] []))
                (commonVersions (example_cfg [Simple "users"; Simple "users/posts"] [])))
      as l eqn:El.
    vm_compute in El. subst l. rewrite !elem_of_cons. auto.
  - reflexivity.
  - exists fn, subs. split; [exact Hg|]. split; [exact Hk | exact Hlen].
Defined.
